(** * surya/recognition.py : the batched recognition scheduler

    A shallow embedding of [surya/recognition.py]: memory-driven batch
    sizing, cache padding, the width-sorted batch plan, the autoregressive
    decoding loop with its done-mask, confidence aggregation and the
    restoration of caller order.

    Conventions.
    - Python [int]s are [Z]; sizes of lists and tensor dimensions are [nat].
    - The Python [float]s of the memory budget are IEEE 754 doubles, rounded
      to nearest after every operation (module [Float]). The scores of the
      decoder are modelled by exact rationals [Q] over an abstract
      exponential; equalities between scores are stated with [==].
    - A Python exception is the [Raise] outcome of the [result] monad.
    - The neural network, the tokenizer, the image processor and the text
      post-processing are external: they are fields of the records
      [Model], [Processor] and [Postprocessing]. *)

From Stdlib Require Import ZArith QArith Qround Qpower Lia Lqa.
From stdpp Require Import base option list relations sorting strings.

Local Open Scope Z_scope.

(** ** Exceptions and the error monad *)

Inductive exn : Type :=
  | OSError
  | IndexError
  | ValueError
  | TypeError
  | RuntimeError
  | ZeroDivisionError
  | AssertionError
  | AttributeError
  | OverflowError.

(** [OutOfFuel] is not a Python outcome: the [while] loop of the decoder is
    run with a bound on its iterations, and [OutOfFuel] says the bound was
    reached before the loop ended. *)
Inductive result (A : Type) : Type :=
  | Ok (a : A)
  | Raise (e : exn)
  | OutOfFuel.
Arguments Ok {A} a.
Arguments Raise {A} e.
Arguments OutOfFuel {A}.

#[global] Instance result_ret : MRet result := fun A a => Ok a.
#[global] Instance result_bind : MBind result := fun A B f m =>
  match m with
  | Ok a => f a
  | Raise e => Raise e
  | OutOfFuel => OutOfFuel
  end.
#[global] Instance result_fmap : FMap result := fun A B f m =>
  match m with
  | Ok a => Ok (f a)
  | Raise e => Raise e
  | OutOfFuel => OutOfFuel
  end.


(** ** Python floats : IEEE 754 binary64 *)

Module Float.

Local Open Scope Q_scope.

(** A double is a finite number, given by its exact value, an infinity or
    the not-a-number. *)
Inductive float : Type :=
  | Num (q : Q)
  | Inf (negative : bool)
  | NotANumber.

(** The exponent of the leading bit of [q], for [0 < q]. *)
Definition floor_log2 (q : Q) : Z :=
  let e := (Z.log2 (Qnum q) - Z.log2 (Zpos (Qden q)))%Z in
  if Qle_bool (2 ^ e) q then e else (e - 1)%Z.

(** The exponent of the unit in the last place of the doubles around [q]:
    53 significant bits, and the exponent of the subnormal doubles at
    least. *)
Definition ulp_exponent (q : Q) : Z := Z.max (-1074) (floor_log2 q - 52).

(** The nearest integer, the even one of two nearest. *)
Definition round_half_even (x : Q) : Z :=
  let f := Qfloor x in
  match Qcompare (x - inject_Z f) (1 # 2) with
  | Lt => f
  | Eq => if Z.even f then f else (f + 1)%Z
  | Gt => (f + 1)%Z
  end.

(** The number with 53 significant bits nearest to [q], for [0 < q]. *)
Definition nearest (q : Q) : Q :=
  let e := ulp_exponent q in
  inject_Z (round_half_even (q / 2 ^ e)) * 2 ^ e.

(** The double nearest to [q], for [0 < q]; past the largest double the
    result overflows. *)
Definition round_positive (q : Q) : float :=
  let r := nearest q in
  if Qle_bool (2 ^ 1024) r then Inf false else Num r.

Definition opp (x : float) : float :=
  match x with
  | Num q => Num (- q)
  | Inf negative => Inf (negb negative)
  | NotANumber => NotANumber
  end.

(** Rounding to nearest, ties to even. *)
Definition round (q : Q) : float :=
  match Qcompare q 0 with
  | Eq => Num 0
  | Gt => round_positive q
  | Lt => opp (round_positive (- q))
  end.

(** A decimal literal of the source denotes the nearest double. *)
Definition literal (q : Q) : float := round q.

Definition negative (q : Q) : bool := negb (Qle_bool 0 q).

(** [x * y] on floats. *)
Definition mul (x y : float) : float :=
  match x, y with
  | Num a, Num b => round (a * b)
  | Num a, Inf s | Inf s, Num a =>
      if Qeq_bool a 0 then NotANumber else Inf (xorb s (negative a))
  | Inf s, Inf t => Inf (xorb s t)
  | _, _ => NotANumber
  end.

(** [x / y] on floats; Python raises on a zero divisor. *)
Definition div (x y : float) : result float :=
  match x, y with
  | _, Num b =>
      if Qeq_bool b 0 then Raise ZeroDivisionError
      else match x with
           | Num a => Ok (round (a / b))
           | Inf s => Ok (Inf (xorb s (negative b)))
           | NotANumber => Ok NotANumber
           end
  | Num a, Inf _ => Ok (Num 0)
  | _, _ => Ok NotANumber
  end.

(** [a / b] on ints: the quotient correctly rounded, and an error when it
    is too large for a float. *)
Definition true_divide (a b : Z) : result float :=
  if (b =? 0)%Z then Raise ZeroDivisionError
  else match round (inject_Z a / inject_Z b) with
       | Num q => Ok (Num q)
       | _ => Raise OverflowError
       end.

(** [math.floor(x)] *)
Definition floor (x : float) : result Z :=
  match x with
  | Num q => Ok (Qfloor q)
  | Inf _ => Raise OverflowError
  | NotANumber => Raise ValueError
  end.

(** The truth value of a float: only zero is false. *)
Definition truthy (x : float) : bool :=
  match x with
  | Num q => negb (Qeq_bool q 0)
  | _ => true
  end.

End Float.

(** ** Memory budget : [get_available_memory_gb] and [get_batch_size] *)

Module Memory.

(** What the environment answers to the three queries of
    [get_available_memory_gb]: [psutil.virtual_memory().available] (bytes),
    [torch.cuda.is_available()] and
    [torch.cuda.get_device_properties(0).total_memory] (bytes). A query that
    fails raises. *)
Record Probe : Type := mkProbe {
  virtual_memory_available : result Z;
  cuda_is_available : bool;
  cuda_total_memory : result Z
}.

Definition GiB : Z := 1024 ^ 3.

Definition get_available_memory_gb (device : string) (env : Probe)
  : result (Float.float * option Float.float) :=
  available ← virtual_memory_available env;
  sys_memory ← Float.true_divide available GiB;
  if String.eqb device "cuda" && cuda_is_available env then
    total ← cuda_total_memory env;
    gpu_memory ← Float.true_divide total GiB;
    mret (sys_memory, Some gpu_memory)
  else if String.eqb device "mps" then
    mret (sys_memory, Some (Float.mul sys_memory (Float.literal (7 # 10))))
  else
    mret (sys_memory, None).

(** Python truthiness of [gpu_memory]: [None] and [0.0] are false. *)
Definition truthy (gpu_memory : option Float.float) : bool :=
  match gpu_memory with
  | None => false
  | Some g => Float.truthy g
  end.

Definition mem_per_sample : Float.float := Float.literal (1 # 10).
Definition min_batch : Z := 8.
Definition max_batch : Z := 512.

(** The clamp and the device specific adjustment, lines 52-59. *)
Definition adjust (device : string) (optimal_batch : Z) : Z :=
  let batch_size := Z.max min_batch (Z.min optimal_batch max_batch) in
  if String.eqb device "mps" then Z.min batch_size 64
  else if String.eqb device "cuda" then (batch_size / 8) * 8
  else batch_size.

(** Line 43: the GPU memory when it is a true value, the host memory
    otherwise. *)
Definition available_memory (sys_memory : Float.float)
    (gpu_memory : option Float.float) : Float.float :=
  if truthy gpu_memory then default sys_memory gpu_memory else sys_memory.

(** Lines 46-59: the batch size for an amount of memory. *)
Definition batch_for (device : string) (available_memory : Float.float)
  : result Z :=
  let safe_memory := Float.mul available_memory (Float.literal (8 # 10)) in
  quotient ← Float.div safe_memory mem_per_sample;
  optimal_batch ← Float.floor quotient;
  mret (adjust device optimal_batch).

Definition get_batch_size (device : string) (env : Probe) : result Z :=
  '(sys_memory, gpu_memory) ← get_available_memory_gb device env;
  batch_for device (available_memory sys_memory gpu_memory).

(** A probe whose queries all succeed. *)
Definition readings (sys_bytes : Z) (cuda : bool) (gpu_bytes : Z) : Probe :=
  mkProbe (Ok sys_bytes) cuda (Ok gpu_bytes).

(** A probe on a host where memory introspection is unavailable. *)
Definition unavailable : Probe :=
  mkProbe (Raise OSError) false (Raise RuntimeError).

End Memory.

(** ** Tensors, constant padding and [pad_to_batch_size] *)

Module Torch.

(** A tensor is its shape and its elements in row-major order. *)
Record tensor (A : Type) : Type := Tensor {
  shape : list nat;
  data : list A
}.
Arguments Tensor {A} shape data.
Arguments shape {A} t.
Arguments data {A} t.

Definition numel (s : list nat) : nat := foldr Nat.mul 1%nat s.

Definition well_formed {A} (t : tensor A) : Prop :=
  length (data t) = numel (shape t).

Definition dim {A} (t : tensor A) : nat := length (shape t).

(** [tensor.shape[0]] *)
Definition shape0 {A} (t : tensor A) : result nat :=
  match shape t with
  | [] => Raise IndexError
  | d :: _ => Ok d
  end.

(** [tensor.shape[-1]] *)
Definition shape_last {A} (t : tensor A) : result nat :=
  match last (shape t) with
  | None => Raise IndexError
  | Some d => Ok d
  end.

(** The [d] consecutive blocks of [k] elements of a row-major list. *)
Fixpoint chunks {A} (k d : nat) (l : list A) : list (list A) :=
  match d with
  | O => []
  | S d' => take k l :: chunks k d' (drop k l)
  end.

(** [F.pad(..., mode="constant", value=zero)] on the elements, with one
    (before, after) pair per dimension, outermost dimension first. *)
Definition padded_shape (s : list nat) (pads : list (nat * nat)) : list nat :=
  zip_with (fun d p => (p.1 + d + p.2)%nat) s pads.

Fixpoint pad_dims {A} (zero : A) (s : list nat) (pads : list (nat * nat))
    (l : list A) : list A :=
  match s, pads with
  | d :: s', p :: pads' =>
      let inner := numel (padded_shape s' pads') in
      replicate (p.1 * inner) zero
      ++ concat (pad_dims zero s' pads' <$> chunks (numel s') d l)
      ++ replicate (p.2 * inner) zero
  | _, _ => l
  end.

(** The padding tuple of [F.pad] read as (before, after) pairs; [None] when
    its length is odd. *)
Fixpoint pairs (padding : list nat) : option (list (nat * nat)) :=
  match padding with
  | [] => Some []
  | a :: b :: rest => cons (a, b) <$> pairs rest
  | _ => None
  end.

(** [F.pad(tensor, padding, mode="constant", value=zero)]. The tuple lists
    the last dimension first and may cover only the trailing dimensions. *)
Definition F_pad {A} (zero : A) (t : tensor A) (padding : list nat)
  : result (tensor A) :=
  match pairs padding with
  | None => Raise RuntimeError
  | Some ps =>
      if decide (length ps <= dim t)%nat then
        let pads := replicate (dim t - length ps) (0, 0)%nat ++ reverse ps in
        Ok (Tensor (padded_shape (shape t) pads)
                   (pad_dims zero (shape t) pads (data t)))
      else Raise RuntimeError
  end.

(** Lines 64-72. [batch_size] is a Python int; in the padding branch
    [pad_size] is positive. *)
Definition pad_to_batch_size {A} (zero : A) (t : tensor A) (batch_size : Z)
  : result (tensor A) :=
  current_batch_size ← shape0 t;
  if Z.of_nat current_batch_size >=? batch_size then mret t
  else
    let pad_size := batch_size - Z.of_nat current_batch_size in
    let padding :=
      concat (replicate (dim t - 1) [0; 0]%nat) ++ [0%nat; Z.to_nat pad_size] in
    F_pad zero t padding.


(** [torch.tensor(np.stack(rows, axis=0))] for a list of equally long lists. *)
Definition stack_rows {A} (rows : list (list A)) (width : nat) : tensor A :=
  Tensor [length rows; width] (concat rows).

(** [v.unsqueeze(1)] of a vector. *)
Definition unsqueeze1 {A} (v : list A) : tensor A :=
  Tensor [length v; 1%nat] v.

(** [tensor[lo:hi]] for [0 <= lo]. *)
Definition rows_between {A} (lo hi : nat) (t : tensor A) : result (tensor A) :=
  match shape t with
  | [] => Raise IndexError
  | d :: s =>
      let k := ((hi `min` d) - lo)%nat in
      Ok (Tensor (k :: s) (take (k * numel s) (drop (lo * numel s) (data t))))
  end.

(** [torch.cat([a, b], dim=0)] *)
Definition cat_dim0 {A} (a b : tensor A) : result (tensor A) :=
  match shape a, shape b with
  | da :: sa, db :: sb =>
      if decide (sa = sb)
      then Ok (Tensor ((da + db)%nat :: sa) (data a ++ data b))
      else Raise RuntimeError
  | _, _ => Raise RuntimeError
  end.

(** [torch.tensor(np.stack(arrays, axis=0))] *)
Definition np_stack {A} (arrays : list (tensor A)) : result (tensor A) :=
  match arrays with
  | [] => Raise ValueError
  | a :: _ =>
      if decide (Forall (fun b => shape b = shape a) arrays) then
        Ok (Tensor (length arrays :: shape a) (concat (data <$> arrays)))
      else Raise ValueError
  end.

(** [torch.max(v).item()] of a vector of ints *)
Definition max_item (v : list Z) : result Z :=
  match v with
  | [] => Raise RuntimeError
  | x :: v' => Ok (foldl Z.max x v')
  end.

(** [torch.arange(count).unsqueeze(0).expand(rows, -1)] *)
Definition arange_expand (count rows : nat) : tensor Z :=
  Tensor [rows; count] (concat (replicate rows (Z.of_nat <$> seq 0 count))).

End Torch.

(** ** Python built-ins used by [batch_recognition] *)

Module Py.

(** [enumerate(l)] *)
Definition enumerate {A} (l : list A) : list (nat * A) := imap pair l.

(** [sorted(l, key=key)]: a stable sort, ascending in the key. *)
Fixpoint insert_by {A} (key : A -> Z) (x : A) (l : list A) : list A :=
  match l with
  | [] => [x]
  | y :: l' => if key y <? key x then y :: insert_by key x l' else x :: l
  end.

Definition sorted {A} (key : A -> Z) (l : list A) : list A :=
  foldr (insert_by key) [] l.

(** Ascending in the key. *)
Definition key_le {A} (key : A -> Z) (a b : A) : Prop := key a <= key b.

(** [range(0, stop, step)] *)
Definition range (stop step : Z) : result (list Z) :=
  if step =? 0 then Raise ValueError
  else
    let count :=
      if 0 <? step then (stop + step - 1) / step
      else (- stop - step - 1) / (- step) in
    mret ((fun k => Z.of_nat k * step) <$> seq 0 (Z.to_nat count)).

(** [l[lo:hi]] *)
Definition clamp_index (len i : Z) : nat :=
  Z.to_nat (if i <? 0 then Z.max 0 (i + len) else Z.min i len).

Definition slice {A} (l : list A) (lo hi : Z) : list A :=
  let len := Z.of_nat (length l) in
  take (clamp_index len hi - clamp_index len lo) (drop (clamp_index len lo) l).

(** [max(l)] on ints *)
Definition max (l : list Z) : result Z :=
  match l with
  | [] => Raise ValueError
  | x :: l' => Ok (foldl Z.max x l')
  end.

End Py.

(** ** Float tensors of scores *)

Module Scores.

Local Open Scope Q_scope.

Definition sum (l : list Q) : Q := foldr Qplus 0 l.

Definition nonzero (x : Q) : bool := negb (Qeq_bool x 0).

(** [torch.sum(row != 0)] *)
Definition count_nonzero (l : list Q) : nat :=
  length (filter (fun x => nonzero x = true) l).

Definition Qlt_bool (a b : Q) : bool := negb (Qle_bool b a).

(** [torch.max(row)] and [torch.argmax(row)] over a vector; both fail on an
    empty one. The first maximal position wins. *)
Definition maximum (l : list Q) : result Q :=
  match l with
  | [] => Raise RuntimeError
  | x :: l' => Ok (foldl (fun m y => if Qlt_bool m y then y else m) x l')
  end.

Fixpoint argmax_from (best : nat) (m : Q) (i : nat) (l : list Q) : nat :=
  match l with
  | [] => best
  | y :: l' =>
      if Qlt_bool m y then argmax_from i y (S i) l'
      else argmax_from best m (S i) l'
  end.

Definition argmax (l : list Q) : result Z :=
  match l with
  | [] => Raise RuntimeError
  | x :: l' => Ok (Z.of_nat (argmax_from 0 x 1 l'))
  end.

(** [F.softmax(row, dim=-1)], over an exponential [exp]. *)
Definition softmax (exp : Q -> Q) (row : list Q) : list Q :=
  let total := sum (exp <$> row) in
  (fun x => exp x / total) <$> row.

(** A float that may be the not-a-number [0.0 / 0]. *)
Inductive score : Type :=
  | Finite (q : Q)
  | NaN.

(** One row of [torch.sum(s, dim=-1) / torch.sum(s != 0, dim=-1)]. A row
    without a nonzero entry sums to zero, and [0.0 / 0] is [nan]. *)
Definition confidence (row : list Q) : score :=
  match count_nonzero row with
  | O => NaN
  | S k => Finite (sum row / inject_Z (Z.of_nat (S k)))
  end.

Definition mean (l : list Q) : Q := sum l / inject_Z (Z.of_nat (length l)).

(** Of the raw scores of a sample up to its terminal step, those before the
    terminal step; the single score when the first step is terminal. *)
Definition counted (raws : list Q) : list Q :=
  match raws with
  | [_] => raws
  | _ => take (length raws - 1) raws
  end.

(** [scores.masked_fill(mask, 0)] for [scores] of shape [n, 1] (line 220
    ends in [unsqueeze(1)]) and [mask] of shape [m] (the vector [all_done]).
    The out-of-place [masked_fill] expands the tensor and the mask to their
    common broadcast shape, as [torch.where(mask, 0, scores)] does, so the
    result has shape [n, m]: entry [i, j] is [0] where [mask[j]] holds and
    [scores[i, 0]] elsewhere. With one sample this is the masking of that
    sample's score by its own flag. *)
Definition masked_fill (scores : list Q) (mask : list bool) : list (list Q) :=
  (fun s => (fun m : bool => if m then 0 else s) <$> mask) <$> scores.

(** [torch.cat([a, b], dim=1)] of two matrices given by their rows. *)
Definition cat_dim1 (a b : list (list Q)) : result (list (list Q)) :=
  if decide (length a = length b) then Ok (zip_with app a b)
  else Raise RuntimeError.

(** [a | b] on boolean vectors, with broadcasting of a vector of length 1. *)
Definition broadcast_or (a b : list bool) : result (list bool) :=
  if decide (length a = length b) then Ok (zip_with orb a b)
  else match a, b with
       | [x], _ => Ok (orb x <$> b)
       | _, [y] => Ok ((fun x => orb x y) <$> a)
       | _, _ => Raise RuntimeError
       end.

End Scores.

(** ** The external collaborators *)

Module Recognition.
Import Torch.

(** [surya.settings.settings] *)
Class Settings : Type := {
  TORCH_DEVICE_MODEL : string;
  RECOGNITION_MAX_TOKENS : Z;
  RECOGNITION_STATIC_CACHE : bool;
  RECOGNITION_ENCODER_BATCH_DIVISOR : Z
}.

(** [processor.tokenizer]; [batch_decode] decodes each sequence. *)
Class Tokenizer : Type := {
  pad_id : Z;
  eos_id : Z;
  decode : list Z -> string
}.

Definition batch_decode `{Tokenizer} (sequences : list (list Z))
  : list string :=
  decode <$> sequences.

(** [PIL.Image.Image]: [convert] is [image.convert("RGB")]. *)
Class Pillow : Type := {
  Image : Type;
  width : Image -> Z;
  convert : Image -> Image
}.

Definition Langs : Type := option (list string).

(** [processor(text=..., images=..., langs=...)] with its two outputs
    ["pixel_values"] and ["langs"]. *)
Class Processor `{Pillow} : Type := {
  process : list string -> list Image -> list Langs
            -> list (tensor Q) * list (list Z)
}.

(** The network. [decoder] reads and updates the key/value cache and returns
    the logits as [batch][position][vocabulary]. *)
Class Model : Type := {
  Cache : Type;
  decoder_start_token_id : Z;
  query_token_count : nat;
  encoder : tensor Q -> tensor Q;
  text_encoder : tensor Z -> tensor Q -> tensor Q;
  setup_cache : Z -> Cache;
  decoder : Cache -> tensor Z -> tensor Q -> list Z -> bool
            -> Cache * list (list (list Q))
}.

(** [surya.postprocessing] *)
Class Postprocessing : Type := {
  truncate_repetitions : string -> string;
  contains_math : string -> bool;
  fix_math : string -> string
}.

(** The exponential used by [F.softmax]. *)
Class Numerics : Type := {
  exp : Q -> Q
}.

(** The exponential is positive. *)
Definition exp_positive `{Numerics} : Prop := forall x : Q, (0 < exp x)%Q.

(** The decoder answers one sample of logits per row of its input, each with
    at least one position and a vocabulary that is not empty. *)
Definition decoder_shaped `{Model} : Prop :=
  forall c input_ids hidden position_ids prefill,
    let logits := (decoder c input_ids hidden position_ids prefill).2 in
    (forall d s, shape input_ids = d :: s -> length logits = d)
    /\ Forall (fun sample => exists x row, last sample = Some (x :: row))
              logits.

(** ** The decoding loop, lines 200-258 *)

(** What one call of the decoder produced: the predicted tokens, their raw
    scores and the done-mask after the call. The code keeps no such record;
    [history] below only remembers it for the statements about the loop. *)
Record Step : Type := mkStep {
  step_preds : list Z;
  step_scores : list Q;
  step_done : list bool
}.

(** A recorded step after which some sample is still running. *)
Definition running (s : Step) : Prop := forallb id (step_done s) = false.

(** The token that a recorded step hands to sample [j]: the predicted token
    when the sample is not done after the step, none otherwise; and the
    tokens that a run of steps hands to the sample. *)
Definition emitted (j : nat) (s : Step) : option Z :=
  match step_done s !! j with
  | Some false => step_preds s !! j
  | _ => None
  end.

Definition transcript (j : nat) (steps : list Step) : list Z :=
  omap (emitted j) steps.

(** Every sample that is done in [a] is done in [b]. *)
Definition done_le (a b : list bool) : Prop :=
  forall j, a !! j = Some true -> b !! j = Some true.

Record DecoderState `{Model} : Type := mkState {
  token_count : Z;
  inference_token_count : Z;
  batch_decoder_input : tensor Z;
  decoder_position_ids : list Z;
  sequence_scores : option (list (list Q));
  all_done : list bool;
  batch_predictions : list (list Z);
  cache : Cache;
  history : list Step
}.
Arguments mkState {_} _ _ _ _ _ _ _ _ _.

Section Decoding.
Context `{Settings, Tokenizer, Model, Numerics}.

(** Loop constants of one batch. *)
Variable batch_size : Z.
Variable current_batch_size : nat.
Variable encoder_text_hidden_states : tensor Q.

(** [logits[:, -1]] of one sample. *)
Definition last_position (sample : list (list Q)) : result (list Q) :=
  match last sample with
  | None => Raise IndexError
  | Some row => Ok row
  end.

Definition is_done (pred : Z) : bool := (pred =? eos_id) || (pred =? pad_id).

(** Lines 238-240: the token of every sample that is not done is appended. *)
Definition append_predictions (predictions : list (list Z))
    (preds : list Z) (statuses : list bool) : list (list Z) :=
  imap (fun j tokens =>
          match zip preds statuses !! j with
          | Some (pred, false) => tokens ++ [pred]
          | _ => tokens
          end) predictions.

(** [torch.ones_like(row).cumsum(0) - 1 + offset] for a row of [w] tokens. *)
Definition positions (w : nat) (offset : Z) : list Z :=
  (fun k => Z.of_nat k + 1 - 1 + offset) <$> seq 0 w.

(** [batch_decoder_input[0, :]] has as many entries as the last dimension;
    it needs a first row. *)
Definition row0_width (t : tensor Z) : result nat :=
  rows ← shape0 t;
  if decide (rows = 0%nat) then Raise IndexError else shape_last t.

(** One iteration of the [while] loop. The boolean says whether the
    iteration ended in [break]. *)
Definition decode_step (st : DecoderState) : result (bool * DecoderState) :=
  let is_prefill := token_count st =? 0 in
  let '(cache', all_logits) :=
    decoder (cache st) (batch_decoder_input st) encoder_text_hidden_states
            (decoder_position_ids st) is_prefill in
  let position_ids : list Z :=
    (fun p => p + 1)
      <$> drop (length (decoder_position_ids st) - 1)%nat
               (decoder_position_ids st) in
  let logits := take current_batch_size all_logits in
  last_logits ← mapM last_position logits;
  preds ← mapM Scores.argmax last_logits;
  scores ←
    mapM (fun row => Scores.maximum (Scores.softmax exp row)) last_logits;
  let done : list bool := is_done <$> preds in
  all_done' ← Scores.broadcast_or (all_done st) done;
  sequence_scores' ←
    (if is_prefill then Ok ((fun s => [s]) <$> scores)
     else match sequence_scores st with
          | None => Raise TypeError
          | Some previous =>
              Scores.cat_dim1 previous (Scores.masked_fill scores all_done')
          end);
  let history' := history st ++ [mkStep preds scores all_done'] in
  if forallb id all_done' then
    mret (true,
          mkState (token_count st) (inference_token_count st)
                  (batch_decoder_input st) position_ids (Some sequence_scores')
                  all_done' (batch_predictions st) cache' history')
  else
    let next_input := unsqueeze1 preds in
    let predictions :=
      append_predictions (batch_predictions st) preds all_done' in
    let token_count' := token_count st + inference_token_count st in
    inference_token_count' ← shape_last next_input;
    max_position_id ← max_item position_ids;
    w ← row0_width next_input;
    let position_ids' := positions w max_position_id in
    next_input' ←
      (if RECOGNITION_STATIC_CACHE
       then pad_to_batch_size 0 next_input batch_size
       else Ok next_input);
    mret (false,
          mkState token_count' (Z.of_nat inference_token_count')
                  next_input' position_ids' (Some sequence_scores')
                  all_done' predictions cache' history').

(** [while token_count < settings.RECOGNITION_MAX_TOKENS - 1: ...], with a
    bound [fuel] on the number of iterations. *)
Fixpoint decode_loop (fuel : nat) (st : DecoderState) : result DecoderState :=
  if token_count st <? RECOGNITION_MAX_TOKENS - 1 then
    match fuel with
    | O => OutOfFuel
    | S fuel' =>
        '(stop, st') ← decode_step st;
        if (stop : bool) then mret st' else decode_loop fuel' st'
    end
  else mret st.

(** The loop condition, an iteration that goes on to the next one, and an
    iteration that ends in [break]. *)
Definition guard (st : DecoderState) : bool :=
  token_count st <? RECOGNITION_MAX_TOKENS - 1.

Definition continues (st st' : DecoderState) : Prop :=
  guard st = true /\ decode_step st = Ok (false, st').

Definition breaks (st final : DecoderState) : Prop :=
  guard st = true /\ decode_step st = Ok (true, final).

(** The number of tokens the loop may still consume. *)
Definition budget (st : DecoderState) : nat :=
  Z.to_nat (RECOGNITION_MAX_TOKENS - 1 - token_count st).

(** The first entry of every score row is the sample's raw score at the
    first call of the decoder, and that score is positive. *)
Definition prefill_kept (st : DecoderState) : Prop :=
  exists first rows,
    history st !! 0%nat = Some first
    /\ sequence_scores st = Some rows
    /\ Forall2 (fun row s => exists rest, row = s :: rest /\ (0 < s)%Q)
               rows (step_scores first).

(** Before the first call nothing is recorded; after it the prefill scores
    head the rows. *)
Definition entered (st : DecoderState) : Prop :=
  1 <= inference_token_count st
  /\ ((token_count st = 0 /\ history st = [] /\ sequence_scores st = None)
      \/ (0 < token_count st /\ prefill_kept st)).

(** A batch of one sample that is still running: its row holds the raw
    scores of all the calls so far. *)
Definition raw_scores (steps : list Step) (raws : list Q) : Prop :=
  Forall2 (fun s raw => step_scores s = [raw]) steps raws
  /\ Forall (fun raw => (0 < raw)%Q) raws.

Definition single_running (st : DecoderState) : Prop :=
  all_done st = [false]
  /\ ((token_count st = 0 /\ history st = [] /\ sequence_scores st = None)
      \/ (0 < token_count st
          /\ exists raws, raws <> [] /\ raw_scores (history st) raws
                          /\ sequence_scores st = Some [raws])).

(** The states the loop runs on: [n >= 1] samples, a decoder input with a
    row for each of them, one done flag and one token list per sample, a
    score row per sample once a step has run, and a step that consumes at
    least one token. *)
Record state_ok (st : DecoderState) : Prop := {
  ok_samples : (1 <= current_batch_size)%nat;
  ok_input : exists d s, shape (batch_decoder_input st) = d :: s
                         /\ (current_batch_size <= d)%nat;
  ok_done : length (all_done st) = current_batch_size;
  ok_predictions : length (batch_predictions st) = current_batch_size;
  ok_scores : token_count st = 0
              \/ exists rows, sequence_scores st = Some rows
                              /\ length rows = current_batch_size;
  ok_count : 1 <= inference_token_count st;
  ok_positions : decoder_position_ids st <> []
}.

(** What the recorded steps say about the state: the done masks only grow
    from one step to the next and up to the state's mask, and a sample that a
    step leaves running was handed a token that is no end and no pad
    marker. *)
Record traced (st : DecoderState) : Prop := {
  traced_sorted :
    StronglySorted (fun s s' => done_le (step_done s) (step_done s'))
                   (history st);
  traced_done :
    Forall (fun s => done_le (step_done s) (all_done st)) (history st);
  traced_steps :
    Forall (fun s =>
              length (step_preds s) = current_batch_size
              /\ length (step_done s) = current_batch_size
              /\ forall j p, step_done s !! j = Some false ->
                             step_preds s !! j = Some p -> is_done p = false)
           (history st)
}.

(** The tokens of every sample are the ones the recorded steps handed to
    it. *)
Definition transcribed (st : DecoderState) : Prop :=
  forall j, (j < current_batch_size)%nat ->
            batch_predictions st !! j = Some (transcript j (history st)).

End Decoding.

(** ** One batch, lines 96-272 *)

Section Batch.
Context `{Settings, Tokenizer, Pillow, !Processor, Model, Postprocessing,
          Numerics}.

(** [lang and "_math" in lang], read as a truth value. *)
Definition has_math_flag (lang : Langs) : bool :=
  match lang with
  | None => false
  | Some tags => bool_decide ("_math"%string ∈ tags)
  end.

(** Lines 116-121: left-pad every decoder input to the longest one. *)
Definition pad_decoder_input (rows : list (list Z)) (max_input_length : Z)
  : list (list Z) :=
  (fun row =>
     let lang_len := Z.of_nat (length row) in
     if lang_len <? max_input_length
     then replicate (Z.to_nat (max_input_length - lang_len)) pad_id ++ row
     else row) <$> rows.

(** Lines 159-171: the encoder runs on consecutive blocks of rows. *)
Fixpoint encode_chunks (starts : list Z) (encoder_batch_size : Z)
    (batch_pixel_values : tensor Q) (encoder_hidden_states : option (tensor Q))
  : result (option (tensor Q)) :=
  match starts with
  | [] => mret encoder_hidden_states
  | z :: rest =>
      rows ← shape0 batch_pixel_values;
      encoder_pixel_values ←
        rows_between (Z.to_nat z)
          (Z.to_nat (Z.min (z + encoder_batch_size) (Z.of_nat rows)))
          batch_pixel_values;
      let encoder_hidden_states_batch := encoder encoder_pixel_values in
      joined ←
        match encoder_hidden_states with
        | None => Ok encoder_hidden_states_batch
        | Some previous => cat_dim0 previous encoder_hidden_states_batch
        end;
      encode_chunks rest encoder_batch_size batch_pixel_values (Some joined)
  end.

Definition floor_div (a b : Z) : result Z :=
  if b =? 0 then Raise ZeroDivisionError else Ok (a / b).

Definition initial_state (batch_decoder_input : tensor Z)
    (inference_token_count : nat) (position_ids : list Z)
    (current_batch_size : nat) (batch_size : Z) : DecoderState :=
  mkState 0 (Z.of_nat inference_token_count) batch_decoder_input position_ids
          None (replicate current_batch_size false)
          (replicate current_batch_size []) (setup_cache batch_size) [].

Definition postprocess (text : string) (math : bool) : string :=
  if math && contains_math text then fix_math text else text.

Definition recognize_batch (batch_size : Z) (batch_images : list Image)
    (batch_langs : list Langs) : result (list string * list Scores.score) :=
  let has_math : list bool := has_math_flag <$> batch_langs in
  let '(batch_pixel_values, langs) :=
    process (replicate (length batch_images) ""%string)
            batch_images batch_langs in
  let batch_decoder_input : list (list Z) :=
    (fun lang => decoder_start_token_id :: lang) <$> langs in
  max_input_length ←
    Py.max ((fun tokens => Z.of_nat (length tokens)) <$> batch_decoder_input);
  let batch_decoder_input :=
    pad_decoder_input batch_decoder_input max_input_length in
  let current_batch_size := length batch_pixel_values in
  batch_pixel_values ← np_stack batch_pixel_values;
  let batch_decoder_input :=
    stack_rows batch_decoder_input (Z.to_nat max_input_length) in
  inference_token_count ← shape_last batch_decoder_input;
  w ← row0_width batch_decoder_input;
  let decoder_position_ids := positions w 0 in
  divided ← floor_div batch_size RECOGNITION_ENCODER_BATCH_DIVISOR;
  let encoder_batch_size := divided + 1 in
  rows ← shape0 batch_pixel_values;
  starts ← Py.range (Z.of_nat rows) encoder_batch_size;
  encoder_hidden_states ←
    encode_chunks starts encoder_batch_size batch_pixel_values None;
  encoder_hidden_states ←
    match encoder_hidden_states with
    | None => Raise AttributeError
    | Some states => Ok states
    end;
  size0 ← shape0 encoder_hidden_states;
  let text_encoder_input_ids := arange_expand query_token_count size0 in
  let encoder_text_hidden_states :=
    text_encoder text_encoder_input_ids encoder_hidden_states in
  encoder_text_hidden_states ←
    (if RECOGNITION_STATIC_CACHE
     then pad_to_batch_size 0%Q encoder_text_hidden_states batch_size
     else Ok encoder_text_hidden_states);
  batch_decoder_input ←
    (if RECOGNITION_STATIC_CACHE
     then pad_to_batch_size 0 batch_decoder_input batch_size
     else Ok batch_decoder_input);
  final ←
    decode_loop batch_size current_batch_size encoder_text_hidden_states
      (Z.to_nat RECOGNITION_MAX_TOKENS)
      (initial_state batch_decoder_input inference_token_count
         decoder_position_ids current_batch_size batch_size);
  sequence_scores ←
    match sequence_scores final with
    | None => Raise TypeError
    | Some rows => Ok rows
    end;
  let confidences : list Scores.score :=
    Scores.confidence <$> sequence_scores in
  let detected_text := batch_decode (batch_predictions final) in
  let detected_text : list string := truncate_repetitions <$> detected_text in
  let detected_text := zip_with postprocess detected_text has_math in
  mret (detected_text, confidences).

End Batch.

(** ** What the batch code expects of its collaborators *)

(** Given as many language entries as images, the processor answers one
    pixel array and one token list per image, and the pixel arrays have one
    shape. *)
Definition processor_shaped `{Pillow, !Processor} : Prop :=
  forall texts images langs,
    length langs = length images ->
    let out := process texts images langs in
    length out.1 = length images
    /\ length out.2 = length images
    /\ exists s, Forall (fun a => shape a = s) out.1.

(** The encoders keep the batch axis; the shape of the encoder's hidden
    states depends on the shape of the images only. *)
Definition encoder_shaped `{Model} : Prop :=
  forall s, exists hs,
    forall t d, shape t = d :: s -> shape (encoder t) = d :: hs.

Definition text_encoder_shaped `{Model} : Prop :=
  forall ids h d s,
    shape h = d :: s -> exists s', shape (text_encoder ids h) = d :: s'.

(** At least one decoding step fits the token budget, and the encoder
    divisor is positive. *)
Definition settings_ok `{Settings} : Prop :=
  2 <= RECOGNITION_MAX_TOKENS /\ 1 <= RECOGNITION_ENCODER_BATCH_DIVISOR.

Definition collaborators_ok `{Settings, Pillow, !Processor, Model} : Prop :=
  settings_ok /\ processor_shaped /\ encoder_shaped /\ text_encoder_shaped
  /\ decoder_shaped.

(** ** [batch_recognition], lines 75-280 *)

Section BatchRecognition.
Context `{Settings, Tokenizer, Pillow, !Processor, Model, Postprocessing,
          Numerics}.

(** The environment queried by [get_batch_size] when no batch size is given. *)
Variable memory : Memory.Probe.

(** Line 88-91. *)
Definition sorted_pairs (images : list Image) : list (nat * Image) :=
  Py.sorted (fun x => width x.2) (Py.enumerate images).

(** The order of the slots after the sort: by width, and by original index
    among images of one width. *)
Definition slot_before (x y : nat * Image) : Prop :=
  width x.2 < width y.2 \/ (width x.2 = width y.2 /\ (x.1 < y.1)%nat).

(** Lines 96 and 101: the images and the language tags of the batch that
    starts at [i]. *)
Definition batch_inputs (images : list Image) (languages : list Langs)
    (batch_size i : Z) : list Image * list Langs :=
  (Py.slice images i (i + batch_size), Py.slice languages i (i + batch_size)).

(** The [for] loop of line 95 over the batch starts. *)
Fixpoint run_batches (starts : list Z) (images : list Image)
    (languages : list Langs) (batch_size : Z)
    (output_text : list string) (confidences : list Scores.score)
  : result (list string * list Scores.score) :=
  match starts with
  | [] => mret (output_text, confidences)
  | i :: rest =>
      let '(batch_images, batch_langs) :=
        batch_inputs images languages batch_size i in
      let batch_images := convert <$> batch_images in
      '(detected_text, sequence_scores) ←
        recognize_batch batch_size batch_images batch_langs;
      run_batches rest images languages batch_size
        (output_text ++ detected_text) (confidences ++ sequence_scores)
  end.

(** What the batch that starts at [i] returned. *)
Definition batch_result (images : list Image) (languages : list Langs)
    (batch_size i : Z) (r : list string * list Scores.score) : Prop :=
  let inputs := batch_inputs images languages batch_size i in
  recognize_batch batch_size (convert <$> inputs.1) inputs.2 = Ok r.

(** Lines 276-279. *)
Definition restore_order {A} (indices : list nat) (outputs : list A) : list A :=
  snd <$> Py.sorted (fun x => Z.of_nat x.1) (zip indices outputs).

Definition batch_recognition (images : list Image) (languages : list Langs)
    (batch_size : option Z) : result (list string * list Scores.score) :=
  if negb (length images =? length languages)%nat then Raise AssertionError
  else if (length images =? 0)%nat then mret ([], [])
  else
    batch_size ←
      match batch_size with
      | None => Memory.get_batch_size TORCH_DEVICE_MODEL memory
      | Some b => Ok b
      end;
    let pairs := sorted_pairs images in
    let indices := fst <$> pairs in
    let images := snd <$> pairs in
    starts ← Py.range (Z.of_nat (length images)) batch_size;
    '(output_text, confidences) ←
      run_batches starts images languages batch_size [] [];
    mret (restore_order indices output_text, restore_order indices confidences).

End BatchRecognition.

End Recognition.

(** ** A small concrete world, for running the code on examples *)

Module Example.
Import Torch Recognition.

(** An image is its width and a label. *)
#[local] Instance pillow : Pillow := {|
  Image := Z * string;
  width := fst;
  convert := fun image => image
|}.

(** Tokens: 0 is the pad marker, 1 the end marker, 2.. are letters. *)
#[local] Instance tokenizer : Tokenizer := {|
  pad_id := 0;
  eos_id := 1;
  decode := fun tokens =>
    String.string_of_list_ascii
      ((fun t => Ascii.ascii_of_nat (Z.to_nat t + 95)) <$> tokens)
|}.

(** One pixel per image (its width); a language tag becomes one token. *)
#[local] Instance processor : Processor := {|
  process := fun _ images langs =>
    ((fun image : Image => Tensor [1%nat] [inject_Z (width image)]) <$> images,
     (fun lang : Langs => (fun _ : string => 5) <$> default [] lang) <$> langs)
|}.

#[local] Instance postprocessing : Postprocessing := {|
  truncate_repetitions := fun text => text;
  contains_math := fun text => String.prefix "aa" text;
  fix_math := fun text => ("$$" ++ text ++ "$$")%string
|}.

(** Powers of two stand for the exponential. *)
Definition exp2 (x : Q) : Q := Qpower 2 (Qfloor x).

#[local] Instance numerics : Numerics := {| exp := exp2 |}.

(** A decoder that follows a script: at its [c]-th call it answers, for the
    sample in row [j], the logits [script c j] over a vocabulary of three
    tokens. The cache counts the calls. *)
Definition scripted (script : nat -> nat -> list Q) : Model := {|
  Cache := nat;
  decoder_start_token_id := 3;
  query_token_count := 2%nat;
  encoder := fun pixel_values => pixel_values;
  text_encoder := fun _ hidden => hidden;
  setup_cache := fun _ => 0%nat;
  decoder := fun c input_ids _ _ _ =>
    (S c, (fun j => [script c j])
            <$> seq 0 (default 0%nat (head (shape input_ids))))
|}.

Definition settings (max_tokens : Z) (static_cache : bool) : Settings := {|
  TORCH_DEVICE_MODEL := "cpu";
  RECOGNITION_MAX_TOKENS := max_tokens;
  RECOGNITION_STATIC_CACHE := static_cache;
  RECOGNITION_ENCODER_BATCH_DIVISOR := 2
|}.

(** Logits whose arg-max is the letter 2, with score 1/2; the end marker,
    with score 2/3; the letter 2, with score 4/5. *)
Definition letter_half : list Q := [0; 0; 1]%Q.
Definition eos_two_thirds : list Q := [-1; 1; -1]%Q.
Definition letter_four_fifths : list Q := [-1; -1; 2]%Q.

(** One sample: a letter, then the end marker. *)
Definition script_letter_then_eos (c j : nat) : list Q :=
  match c with
  | O => letter_half
  | _ => eos_two_thirds
  end.

(** Two samples: sample 0 ends at the prefill step, sample 1 writes two
    letters and ends at the third call. *)
Definition script_early_and_late (c j : nat) : list Q :=
  match j, c with
  | O, O => eos_two_thirds
  | O, _ => letter_four_fifths
  | _, O => letter_half
  | _, 1%nat => letter_half
  | _, _ => eos_two_thirds
  end.

(** Every sample writes two letters and then the end marker. *)
Definition script_two_letters (c j : nat) : list Q :=
  match c with
  | O | 1%nat => letter_half
  | _ => eos_two_thirds
  end.

(** A decoder that never emits the end or the pad marker. *)
Definition script_never_done (c j : nat) : list Q := letter_half.

(** The state at the entry of the loop for [rows] samples whose decoder
    input is the start token alone. *)
Definition entry_state (model : Model) (rows : nat) (batch_size : Z)
  : @DecoderState model :=
  initial_state (stack_rows (replicate rows [3]) 1) 1 (positions 1 0)
                rows batch_size.

Definition context (rows : nat) : tensor Q :=
  Tensor [rows; 1%nat] (replicate rows 1%Q).

(** The single sample that writes a letter and then the end marker: its
    model, one iteration of its loop, and its states after the first and
    after the second call of the decoder. *)
Definition letter_model : Model := scripted script_letter_then_eos.

Definition letter_step
  : @DecoderState letter_model -> result (bool * @DecoderState letter_model) :=
  @decode_step (settings 6 false) tokenizer letter_model numerics
    1 1%nat (context 1).

Definition after (r : result (bool * @DecoderState letter_model))
  : @DecoderState letter_model :=
  match r with
  | Ok (_, st) => st
  | _ => entry_state letter_model 1 1
  end.

Definition after_letter : @DecoderState letter_model :=
  Eval lazy in after (letter_step (entry_state letter_model 1 1)).

Definition after_eos : @DecoderState letter_model :=
  Eval lazy in after (letter_step after_letter).

(** With the static cache and room for four samples: the first iteration
    of the loop of two samples, and the state after it. *)
Definition static_step
  : @DecoderState (scripted script_early_and_late) ->
    result (bool * @DecoderState (scripted script_early_and_late)) :=
  @decode_step (settings 6 true) tokenizer (scripted script_early_and_late)
    numerics 4 2%nat (context 2).

Definition after_static : @DecoderState (scripted script_early_and_late) :=
  Eval lazy in
    match static_step (entry_state (scripted script_early_and_late) 2 4) with
    | Ok (_, st) => st
    | _ => entry_state (scripted script_early_and_late) 2 4
    end.

(** The decoding loop of [rows] samples in this world, from its entry. *)
Definition run (script : nat -> nat -> list Q) (rows : nat)
  : result (@DecoderState (scripted script)) :=
  @decode_loop (settings 6 false) tokenizer (scripted script) numerics
    (Z.of_nat rows) rows (context rows) 6
    (entry_state (scripted script) rows (Z.of_nat rows)).

(** [batch_recognition] in this world. *)
Definition recognize (script : nat -> nat -> list Q)
    (images : list Image) (languages : list Langs) (batch_size : Z)
  : result (list string * list Scores.score) :=
  @batch_recognition (settings 6 false) tokenizer pillow processor
    (scripted script) postprocessing numerics Memory.unavailable
    images languages (Some batch_size).

End Example.

(** * Properties

    ** Rounding to the nearest double *)

Section Rounding.
Local Open Scope Q_scope.

Lemma pow2_positive (e : Z) : 0 < 2 ^ e.
Proof. by apply Qpower_0_lt. Qed.

Lemma pow2_le (a b : Z) : (a <= b)%Z -> 2 ^ a <= 2 ^ b.
Proof. intros Hab. by apply Qpower_le_compat_l. Qed.

Lemma pow2_le_inv (a b : Z) : 2 ^ a <= 2 ^ b -> (a <= b)%Z.
Proof. intros Hab. by apply (Qpower_le_compat_l_inv 2). Qed.

Lemma pow2_lt_inv (a b : Z) : 2 ^ a < 2 ^ b -> (a < b)%Z.
Proof. intros Hab. by apply (Qpower_lt_compat_l_inv 2). Qed.

Lemma pow2_add (a b : Z) : 2 ^ (a + b) == 2 ^ a * 2 ^ b.
Proof. by apply Qpower_plus. Qed.

Lemma pow2_inject (n : Z) : (0 <= n)%Z -> inject_Z (2 ^ n) == 2 ^ n.
Proof. intros Hn. by rewrite Zpower_Qpower. Qed.

Lemma inject_Z_le (a b : Z) : (a <= b)%Z -> inject_Z a <= inject_Z b.
Proof. intros Hab. by rewrite <- Zle_Qle. Qed.

Lemma pow2_div (a b : Z) : 2 ^ a / 2 ^ b == 2 ^ (a - b).
Proof.
  pose proof (pow2_positive b).
  replace a with ((a - b) + b)%Z at 1 by lia. rewrite pow2_add.
  field. lra.
Qed.


(** [floor_log2 q] is the exponent of the leading bit of [q]. *)
Lemma floor_log2_lower (q : Q) : 0 < q -> 2 ^ Float.floor_log2 q <= q.
Proof.
  intros Hq. unfold Float.floor_log2.
  destruct (Qle_bool _ q) eqn:E; [by apply Qle_bool_iff|].
  destruct q as [n d]. simpl.
  assert (0 < n)%Z as Hn by (unfold Qlt in Hq; simpl in Hq; lia).
  destruct (Z.log2_spec n Hn) as [Hlow _].
  destruct (Z.log2_spec (Z.pos d) ltac:(lia)) as [_ Hhigh].
  pose proof (Z.log2_nonneg n). pose proof (Z.log2_nonneg (Z.pos d)).
  set (ln := Z.log2 n) in *. set (ld := Z.log2 (Z.pos d)) in *.
  rewrite (Qmake_Qdiv n d). apply Qle_shift_div_l.
  { change 0 with (inject_Z 0). rewrite <- Zlt_Qlt. lia. }
  apply Qle_trans with (2 ^ (ln - ld - 1) * 2 ^ (ld + 1)).
  - apply Qmult_le_l; [apply pow2_positive|].
    rewrite <- pow2_inject by lia. rewrite <- Zle_Qle. lia.
  - rewrite <- pow2_add. replace (ln - ld - 1 + (ld + 1))%Z with ln by lia.
    rewrite <- pow2_inject by lia. by rewrite <- Zle_Qle.
Qed.

Lemma floor_log2_upper (q : Q) : 0 < q -> q < 2 ^ (Float.floor_log2 q + 1).
Proof.
  intros Hq. unfold Float.floor_log2.
  destruct (Qle_bool _ q) eqn:E.
  - destruct q as [n d]. simpl.
    assert (0 < n)%Z as Hn by (unfold Qlt in Hq; simpl in Hq; lia).
    destruct (Z.log2_spec n Hn) as [_ Hhigh].
    destruct (Z.log2_spec (Z.pos d) ltac:(lia)) as [Hlow _].
    pose proof (Z.log2_nonneg n). pose proof (Z.log2_nonneg (Z.pos d)).
    set (ln := Z.log2 n) in *. set (ld := Z.log2 (Z.pos d)) in *.
    rewrite (Qmake_Qdiv n d). apply Qlt_shift_div_r.
    { change 0 with (inject_Z 0). rewrite <- Zlt_Qlt. lia. }
    apply Qlt_le_trans with (2 ^ (ln - ld + 1) * 2 ^ ld).
    + rewrite <- pow2_add. replace (ln - ld + 1 + ld)%Z with (Z.succ ln) by lia.
      rewrite <- pow2_inject by lia. by rewrite <- Zlt_Qlt.
    + apply Qmult_le_l; [apply pow2_positive|].
      rewrite <- pow2_inject by lia. by rewrite <- Zle_Qle.
  - replace (_ - 1 + 1)%Z with (Z.log2 (Qnum q) - Z.log2 (Z.pos (Qden q)))%Z
      by lia.
    apply Qnot_le_lt. intros Hle%Qle_bool_iff. congruence.
Qed.

Lemma floor_log2_monotone (p q : Q) :
  0 < p -> p <= q -> (Float.floor_log2 p <= Float.floor_log2 q)%Z.
Proof.
  intros Hp Hpq.
  pose proof (floor_log2_lower p Hp).
  pose proof (floor_log2_upper q ltac:(lra)).
  apply Z.lt_succ_r, pow2_lt_inv. unfold Z.succ. lra.
Qed.

Lemma ulp_exponent_monotone (p q : Q) :
  0 < p -> p <= q -> (Float.ulp_exponent p <= Float.ulp_exponent q)%Z.
Proof.
  intros Hp Hpq. pose proof (floor_log2_monotone p q Hp Hpq).
  unfold Float.ulp_exponent. lia.
Qed.


(** Rounding to an integer stays next to the floor, fixes the integers and
    keeps the order. *)
Lemma round_half_even_floor (x : Q) :
  Float.round_half_even x = Qfloor x
  \/ Float.round_half_even x = (Qfloor x + 1)%Z.
Proof.
  unfold Float.round_half_even.
  destruct (Qcompare _ _); [destruct (Z.even _)|..]; auto.
Qed.

Lemma round_half_even_inject (n : Z) : Float.round_half_even (inject_Z n) = n.
Proof.
  unfold Float.round_half_even. rewrite Qfloor_Z.
  destruct (Qcompare _ _) eqn:E;
    [apply (proj2 (Qeq_alt _ _)) in E; lra|done|].
  apply (proj2 (Qgt_alt _ _)) in E. lra.
Qed.

Lemma round_half_even_monotone (x y : Q) :
  x <= y -> (Float.round_half_even x <= Float.round_half_even y)%Z.
Proof.
  intros Hxy. pose proof (Qfloor_resp_le x y Hxy) as Hfloor.
  destruct (decide (Qfloor x = Qfloor y)) as [Heq|Hne].
  - unfold Float.round_half_even. rewrite <- Heq.
    destruct (Qcompare (x - _) _) eqn:Ex; destruct (Qcompare (y - _) _) eqn:Ey;
      first [apply (proj2 (Qeq_alt _ _)) in Ex
            |apply (proj2 (Qlt_alt _ _)) in Ex
            |apply (proj2 (Qgt_alt _ _)) in Ex];
      first [apply (proj2 (Qeq_alt _ _)) in Ey
            |apply (proj2 (Qlt_alt _ _)) in Ey
            |apply (proj2 (Qgt_alt _ _)) in Ey];
      try destruct (Z.even (Qfloor x)); try lia; exfalso; lra.
  - destruct (round_half_even_floor x) as [->| ->];
      destruct (round_half_even_floor y) as [->| ->]; lia.
Qed.

Lemma round_half_even_le (x : Q) (n : Z) :
  x <= inject_Z n -> (Float.round_half_even x <= n)%Z.
Proof.
  intros Hx. rewrite <- (round_half_even_inject n).
  by apply round_half_even_monotone.
Qed.

Lemma round_half_even_ge (x : Q) (n : Z) :
  inject_Z n <= x -> (n <= Float.round_half_even x)%Z.
Proof.
  intros Hx. rewrite <- (round_half_even_inject n) at 1.
  by apply round_half_even_monotone.
Qed.


(** The nearest double keeps the powers of two as bounds. *)
Lemma nearest_le_pow (q : Q) (k : Z) :
  0 < q -> q <= 2 ^ k -> (Float.ulp_exponent q <= k)%Z ->
  Float.nearest q <= 2 ^ k.
Proof.
  intros Hq Hk He. unfold Float.nearest.
  set (e := Float.ulp_exponent q) in *.
  pose proof (pow2_positive e) as Hpos.
  assert (q / 2 ^ e <= inject_Z (2 ^ (k - e))) as Hbound.
  { rewrite pow2_inject by lia. rewrite <- pow2_div.
    apply Qmult_le_compat_r; [done|]. by apply Qlt_le_weak, Qinv_lt_0_compat. }
  apply round_half_even_le in Hbound. rewrite Zle_Qle in Hbound.
  rewrite pow2_inject in Hbound by lia.
  apply Qle_trans with (2 ^ (k - e) * 2 ^ e).
  - apply Qmult_le_compat_r; [done|lra].
  - rewrite <- pow2_add. apply pow2_le. lia.
Qed.

Lemma nearest_ge_pow (q : Q) (k : Z) :
  0 < q -> 2 ^ k <= q -> (-1074 <= k)%Z -> 2 ^ k <= Float.nearest q.
Proof.
  intros Hq Hk Hmin. unfold Float.nearest.
  set (e := Float.ulp_exponent q) in *.
  pose proof (pow2_positive e) as Hpos.
  pose proof (floor_log2_upper q Hq) as Hupper.
  pose proof (floor_log2_lower q Hq) as Hlower.
  assert (k <= Float.floor_log2 q)%Z as Hfl.
  { apply Z.lt_succ_r, pow2_lt_inv. unfold Z.succ. lra. }
  set (fl := Float.floor_log2 q) in *.
  assert (e <= fl)%Z as He by (unfold e, Float.ulp_exponent; fold fl; lia).
  assert (inject_Z (2 ^ (fl - e)) <= q / 2 ^ e) as Hbound.
  { rewrite pow2_inject by lia. rewrite <- pow2_div.
    apply Qmult_le_compat_r; [done|]. by apply Qlt_le_weak, Qinv_lt_0_compat. }
  apply round_half_even_ge in Hbound. rewrite Zle_Qle in Hbound.
  rewrite pow2_inject in Hbound by lia.
  apply Qle_trans with (2 ^ (fl - e) * 2 ^ e).
  - rewrite <- pow2_add. apply pow2_le. lia.
  - apply Qmult_le_compat_r; [done|lra].
Qed.

Lemma nearest_monotone (p q : Q) :
  0 < p -> p <= q -> Float.nearest p <= Float.nearest q.
Proof.
  intros Hp Hpq. assert (0 < q) as Hq by lra.
  pose proof (ulp_exponent_monotone p q Hp Hpq) as He.
  destruct (decide (Float.ulp_exponent p = Float.ulp_exponent q)) as [Heq|Hne].
  - unfold Float.nearest. rewrite <- Heq.
    pose proof (pow2_positive (Float.ulp_exponent p)) as Hpos.
    apply Qmult_le_compat_r; [|lra]. rewrite <- Zle_Qle.
    apply round_half_even_monotone.
    apply Qmult_le_compat_r; [done|]. by apply Qlt_le_weak, Qinv_lt_0_compat.
  - pose proof (floor_log2_upper p Hp) as Hupper.
    pose proof (floor_log2_lower q Hq) as Hlower.
    assert (Float.ulp_exponent q = Float.floor_log2 q - 52)%Z as Huq
      by (unfold Float.ulp_exponent in *; lia).
    assert (Float.floor_log2 p - 52 <= Float.ulp_exponent p)%Z as Hup
      by (unfold Float.ulp_exponent; lia).
    assert (-1074 <= Float.ulp_exponent p)%Z as Hmin
      by (unfold Float.ulp_exponent; lia).
    apply Qle_trans with (2 ^ (Float.ulp_exponent p + 53)).
    + apply nearest_le_pow; [done| |lia].
      apply Qle_trans with (2 ^ (Float.floor_log2 p + 1)); [lra|].
      apply pow2_le. lia.
    + apply Qle_trans with (2 ^ Float.floor_log2 q); [apply pow2_le; lia|].
      apply nearest_ge_pow; [done|done|lia].
Qed.


Lemma nearest_nonnegative (q : Q) : 0 < q -> 0 <= Float.nearest q.
Proof.
  intros Hq. unfold Float.nearest.
  pose proof (pow2_positive (Float.ulp_exponent q)) as Hpos.
  apply Qmult_le_0_compat; [|lra].
  change 0 with (inject_Z 0). rewrite <- Zle_Qle.
  apply round_half_even_ge. simpl.
  apply Qmult_le_0_compat; [lra|]. by apply Qlt_le_weak, Qinv_lt_0_compat.
Qed.

Lemma round_of_positive (q : Q) : 0 < q -> Float.round q = Float.round_positive q.
Proof.
  intros Hq. unfold Float.round.
  destruct (Qcompare q 0) eqn:E; [| |done].
  - apply (proj2 (Qeq_alt _ _)) in E. lra.
  - apply (proj2 (Qlt_alt _ _)) in E. lra.
Qed.

Lemma round_of_zero (q : Q) : q == 0 -> Float.round q = Float.Num 0.
Proof.
  intros Hq. unfold Float.round.
  destruct (Qcompare q 0) eqn:E; [done| |].
  - apply (proj2 (Qlt_alt _ _)) in E. lra.
  - apply (proj2 (Qgt_alt _ _)) in E. lra.
Qed.

(** Rounding a number between 0 and a power of two that is a double gives a
    double in the same range: it does not overflow. *)
Lemma round_bounded (q : Q) (k : Z) :
  0 <= q -> q <= 2 ^ k -> (-1074 <= k)%Z -> (k <= 1023)%Z ->
  exists r, Float.round q = Float.Num r /\ 0 <= r /\ r <= 2 ^ k.
Proof.
  intros Hq Hk Hmin Hmax. pose proof (pow2_positive k) as Hpos.
  destruct (Qlt_le_dec 0 q) as [Hlt|Hle].
  - rewrite round_of_positive by done. unfold Float.round_positive.
    assert (Float.nearest q <= 2 ^ k) as Hbound.
    { apply nearest_le_pow; [done|done|].
      pose proof (floor_log2_lower q Hlt) as Hlower.
      assert (Float.floor_log2 q <= k)%Z by (apply pow2_le_inv; lra).
      unfold Float.ulp_exponent. lia. }
    destruct (Qle_bool _ _) eqn:E.
    + apply Qle_bool_iff in E.
      assert (2 ^ 1024 <= 2 ^ k) as Habs by lra.
      apply pow2_le_inv in Habs. lia.
    + eexists. split; [done|]. split; [by apply nearest_nonnegative|done].
  - rewrite round_of_zero by lra. exists 0. split; [done|]. lra.
Qed.

Lemma round_monotone (p q a b : Q) :
  0 <= p -> p <= q ->
  Float.round p = Float.Num a -> Float.round q = Float.Num b -> a <= b.
Proof.
  intros Hp Hpq. destruct (Qlt_le_dec 0 p) as [Hlt|Hle].
  - rewrite !round_of_positive by lra. unfold Float.round_positive.
    destruct (Qle_bool _ (Float.nearest p)); [done|].
    destruct (Qle_bool _ (Float.nearest q)); [done|].
    intros [= <-] [= <-]. by apply nearest_monotone.
  - rewrite (round_of_zero p) by lra. intros [= <-].
    destruct (Qlt_le_dec 0 q) as [Hlt|Hle'].
    + rewrite round_of_positive by done. unfold Float.round_positive.
      destruct (Qle_bool _ _); [done|]. intros [= <-].
      by apply nearest_nonnegative.
    + rewrite round_of_zero by lra. intros [= <-]. lra.
Qed.

Lemma round_ge_pow (q r : Q) (k : Z) :
  2 ^ k <= q -> (-1074 <= k)%Z -> Float.round q = Float.Num r -> 2 ^ k <= r.
Proof.
  intros Hq Hk. pose proof (pow2_positive k) as Hpos.
  rewrite round_of_positive by lra. unfold Float.round_positive.
  destruct (Qle_bool _ _); [done|]. intros [= <-].
  apply nearest_ge_pow; [lra|done|done].
Qed.

End Rounding.

(** ** The memory budget *)

Section Budget.
Local Open Scope Q_scope.

(** The three decimal literals of the source, as doubles. *)
Lemma literal_seven_tenths :
  exists c, Float.literal (7 # 10) = Float.Num c /\ 1 # 2 <= c /\ c <= 1.
Proof. eexists. split; [vm_compute; reflexivity|]. split; by vm_compute. Qed.

Lemma literal_eight_tenths :
  exists c, Float.literal (8 # 10) = Float.Num c /\ 1 # 2 <= c /\ c <= 1.
Proof. eexists. split; [vm_compute; reflexivity|]. split; by vm_compute. Qed.

Lemma mem_per_sample_value :
  exists c, Memory.mem_per_sample = Float.Num c /\ 1 # 16 <= c /\ c <= 1.
Proof. eexists. split; [vm_compute; reflexivity|]. split; by vm_compute. Qed.

Lemma gib_power : inject_Z Memory.GiB == 2 ^ 30.
Proof. by vm_compute. Qed.

(** A reading below [2 ^ 1000] bytes is a representable number of GB. *)
Lemma true_divide_bounded (a : Z) :
  (0 <= a < 2 ^ 1000)%Z ->
  exists r,
    Float.true_divide a Memory.GiB = Ok (Float.Num r)
    /\ 0 <= r /\ r <= 2 ^ 970
    /\ (a = 0%Z -> r = 0)
    /\ ((0 < a)%Z -> 2 ^ (-30) <= r).
Proof.
  intros [Hlow Hhigh]. unfold Float.true_divide.
  change (Memory.GiB =? 0)%Z with false. cbv iota.
  pose proof (pow2_positive 30) as Hpos.
  assert (0 <= inject_Z a / inject_Z Memory.GiB) as Hq.
  { rewrite gib_power. apply Qmult_le_0_compat.
    - change 0 with (inject_Z 0). by rewrite <- Zle_Qle.
    - by apply Qlt_le_weak, Qinv_lt_0_compat. }
  assert (inject_Z a / inject_Z Memory.GiB <= 2 ^ 970) as Hbound.
  { rewrite gib_power. apply Qle_shift_div_r; [done|].
    rewrite <- pow2_add, <- pow2_inject by lia.
    apply inject_Z_le. simpl Z.add. lia. }
  destruct (round_bounded _ 970 Hq Hbound ltac:(lia) ltac:(lia))
    as (r & Hr & Hr0 & Hr1).
  exists r. rewrite Hr. split; [done|]. split; [done|]. split; [done|]. split.
  - intros ->. rewrite round_of_zero in Hr by (rewrite gib_power; field; lra).
    by injection Hr.
  - intros Hpositive. apply (round_ge_pow _ _ (-30)) in Hr; [done| |lia].
    rewrite gib_power. apply Qle_shift_div_l; [done|].
    rewrite <- pow2_add. simpl Z.add. change (2 ^ 0) with (inject_Z 1).
    apply inject_Z_le. lia.
Qed.

Lemma true_divide_monotone (a b : Z) (r1 r2 : Q) :
  (0 <= a <= b)%Z ->
  Float.true_divide a Memory.GiB = Ok (Float.Num r1) ->
  Float.true_divide b Memory.GiB = Ok (Float.Num r2) ->
  r1 <= r2.
Proof.
  intros [Ha Hab]. unfold Float.true_divide.
  change (Memory.GiB =? 0)%Z with false. cbv iota.
  destruct (Float.round (inject_Z a / _)) as [x| |] eqn:Hx; try done.
  destruct (Float.round (inject_Z b / _)) as [y| |] eqn:Hy; try done.
  intros [= <-] [= <-].
  pose proof (pow2_positive 30) as Hpos.
  apply (round_monotone _ _ _ _) with (3 := Hx) (4 := Hy).
  - rewrite gib_power. apply Qmult_le_0_compat.
    + change 0 with (inject_Z 0). by rewrite <- Zle_Qle.
    + by apply Qlt_le_weak, Qinv_lt_0_compat.
  - apply Qmult_le_compat_r; [by rewrite <- Zle_Qle|].
    rewrite gib_power. by apply Qlt_le_weak, Qinv_lt_0_compat.
Qed.


Lemma adjust_range device optimal :
  (8 <= Memory.adjust device optimal <= 512)%Z.
Proof.
  unfold Memory.adjust, Memory.min_batch, Memory.max_batch.
  destruct (String.eqb device "mps"); [lia|].
  destruct (String.eqb device "cuda"); [|lia].
  set (b := Z.max 8 (Z.min optimal 512)).
  assert (8 <= b <= 512)%Z as Hb by (unfold b; lia).
  pose proof (Z.div_mod b 8 ltac:(lia)) as Hdm.
  pose proof (Z.mod_pos_bound b 8 ltac:(lia)) as Hmod.
  assert (1 <= b / 8)%Z by (apply Z.div_le_lower_bound; lia).
  lia.
Qed.

Lemma adjust_monotone device (a b : Z) :
  (a <= b)%Z -> (Memory.adjust device a <= Memory.adjust device b)%Z.
Proof.
  intros Hab. unfold Memory.adjust, Memory.min_batch, Memory.max_batch.
  destruct (String.eqb device "mps"); [lia|].
  destruct (String.eqb device "cuda"); [|lia].
  apply Z.mul_le_mono_nonneg_r; [lia|]. apply Z.div_le_mono; lia.
Qed.

(** Whatever the amount of memory, a batch size that is returned is clamped
    and adjusted. *)
Lemma batch_for_range (device : string) (memory : Float.float) (b : Z) :
  Memory.batch_for device memory = Ok b ->
  (8 <= b <= 512)%Z
  /\ (device = "cuda"%string -> (8 | b)%Z)
  /\ (device = "mps"%string -> (b <= 64)%Z).
Proof.
  unfold Memory.batch_for.
  destruct (Float.div _ _) as [quotient| |]; [|done|done]. simpl.
  destruct (Float.floor quotient) as [optimal| |]; [|done|done]. simpl.
  intros [= <-]. split; [apply adjust_range|]. split.
  - intros ->. unfold Memory.adjust. simpl.
    exists (Z.max Memory.min_batch (Z.min optimal Memory.max_batch) / 8)%Z. lia.
  - intros ->. unfold Memory.adjust. simpl. lia.
Qed.

(** On amounts up to [2 ^ 970] GB the batch size is defined, and it grows
    with the amount. *)
Lemma batch_for_monotone (device : string) (r1 r2 : Q) :
  0 <= r1 -> r1 <= r2 -> r2 <= 2 ^ 970 ->
  exists b1 b2,
    Memory.batch_for device (Float.Num r1) = Ok b1
    /\ Memory.batch_for device (Float.Num r2) = Ok b2
    /\ (b1 <= b2)%Z.
Proof.
  intros H1 H12 H2. unfold Memory.batch_for.
  destruct literal_eight_tenths as (c8 & -> & Hc8 & Hc8').
  destruct mem_per_sample_value as (c1 & -> & Hc1 & Hc1').
  pose proof (pow2_positive 970) as Hpos.
  unfold Float.mul.
  assert (0 <= r1 * c8) as Hs1 by (apply Qmult_le_0_compat; lra).
  assert (r1 * c8 <= r2 * c8) as Hs12 by (apply Qmult_le_compat_r; lra).
  assert (r2 * c8 <= 2 ^ 970) as Hs2.
  { apply Qle_trans with (1 * r2); [|lra].
    rewrite (Qmult_comm r2 c8). apply Qmult_le_compat_r; lra. }
  destruct (round_bounded (r1 * c8) 970) as (s1 & Hr1 & Hs1' & Hs1'');
    [lra|lra|lia|lia|].
  destruct (round_bounded (r2 * c8) 970) as (s2 & Hr2 & Hs2' & Hs2'');
    [lra|lra|lia|lia|].
  pose proof (round_monotone _ _ _ _ Hs1 Hs12 Hr1 Hr2) as Hsafe.
  rewrite Hr1, Hr2. unfold Float.div.
  destruct (Qeq_bool c1 0) eqn:Hzero; [apply Qeq_bool_iff in Hzero; lra|].
  assert (0 < / c1) as Hinv by (apply Qinv_lt_0_compat; lra).
  assert (/ c1 <= 16) as Hinv'.
  { apply Qle_shift_inv_r; lra. }
  assert (0 <= s1 / c1) as Hq1 by (apply Qmult_le_0_compat; lra).
  assert (s1 / c1 <= s2 / c1) as Hq12 by (apply Qmult_le_compat_r; lra).
  assert (s2 / c1 <= 2 ^ 974) as Hq2.
  { apply Qle_trans with (2 ^ 970 * 16).
    - apply Qle_trans with (s2 * 16).
      + unfold Qdiv. rewrite !(Qmult_comm s2).
        apply Qmult_le_compat_r; lra.
      + apply Qmult_le_compat_r; lra.
    - change 16 with (2 ^ 4). rewrite <- pow2_add. apply pow2_le. lia. }
  destruct (round_bounded (s1 / c1) 974) as (q1 & Hd1 & _ & _);
    [lra|lra|lia|lia|].
  destruct (round_bounded (s2 / c1) 974) as (q2 & Hd2 & _ & _);
    [lra|lra|lia|lia|].
  pose proof (round_monotone _ _ _ _ Hq1 Hq12 Hd1 Hd2) as Hquotient.
  rewrite Hd1, Hd2. simpl. do 2 eexists. split; [done|]. split; [done|].
  by apply adjust_monotone, Qfloor_resp_le.
Qed.


(** With readings below [2 ^ 1000] bytes the memory that the batch size is
    computed from is a representable amount, and it grows with the host
    reading. *)
Lemma readings_available (device : string) (cuda : bool) (g s1 s2 : Z) :
  (0 <= s1 <= s2)%Z -> (s2 < 2 ^ 1000)%Z -> (0 <= g < 2 ^ 1000)%Z ->
  exists r1 r2,
    Memory.get_batch_size device (Memory.readings s1 cuda g)
    = Memory.batch_for device (Float.Num r1)
    /\ Memory.get_batch_size device (Memory.readings s2 cuda g)
       = Memory.batch_for device (Float.Num r2)
    /\ 0 <= r1 /\ r1 <= r2 /\ r2 <= 2 ^ 970.
Proof.
  intros Hs1 Hs2 Hg.
  destruct (true_divide_bounded s1 ltac:(lia))
    as (sys1 & Hsys1 & Hlow1 & Hhigh1 & Hzero1 & Hpos1).
  destruct (true_divide_bounded s2 ltac:(lia))
    as (sys2 & Hsys2 & Hlow2 & Hhigh2 & Hzero2 & Hpos2).
  destruct (true_divide_bounded g Hg) as (gpu & Hgpu & Hlowg & Hhighg & _).
  pose proof (true_divide_monotone s1 s2 sys1 sys2 Hs1 Hsys1 Hsys2) as Hsys.
  unfold Memory.get_batch_size, Memory.get_available_memory_gb,
    Memory.readings.
  cbn [Memory.virtual_memory_available Memory.cuda_is_available
       Memory.cuda_total_memory mbind result_bind].
  rewrite Hsys1, Hsys2.
  destruct (String.eqb device "cuda" && cuda).
  { cbn [mbind result_bind mret result_ret]. rewrite Hgpu.
    cbn [mbind result_bind mret result_ret].
    unfold Memory.available_memory. cbn [Memory.truthy default].
    destruct (Float.truthy (Float.Num gpu)).
    - exists gpu, gpu. repeat split; (done || lra).
    - exists sys1, sys2. repeat split; (done || lra). }
  destruct (String.eqb device "mps"); cbn [mbind result_bind mret result_ret];
    [|exists sys1, sys2; repeat split; (done || lra)].
  destruct literal_seven_tenths as (c7 & -> & Hc7 & Hc7').
  pose proof (pow2_positive 970) as Hpos.
  unfold Float.mul.
  assert (0 <= sys1 * c7) as Hm1 by (apply Qmult_le_0_compat; lra).
  assert (sys1 * c7 <= sys2 * c7) as Hm12 by (apply Qmult_le_compat_r; lra).
  assert (sys2 * c7 <= sys2) as Hm2.
  { apply Qle_trans with (1 * sys2); [|lra].
    rewrite (Qmult_comm sys2 c7). apply Qmult_le_compat_r; lra. }
  assert (sys1 * c7 <= sys1) as Hm1'.
  { apply Qle_trans with (1 * sys1); [|lra].
    rewrite (Qmult_comm sys1 c7). apply Qmult_le_compat_r; lra. }
  destruct (round_bounded (sys1 * c7) 970) as (m1 & Hr1 & Hm1low & Hm1high);
    [lra|lra|lia|lia|].
  destruct (round_bounded (sys2 * c7) 970) as (m2 & Hr2 & Hm2low & Hm2high);
    [lra|lra|lia|lia|].
  pose proof (round_monotone _ _ _ _ Hm1 Hm12 Hr1 Hr2) as Hm.
  rewrite Hr1, Hr2.
  unfold Memory.available_memory. cbn [Memory.truthy default Float.truthy].
  destruct (Qeq_bool m1 0) eqn:E1; destruct (Qeq_bool m2 0) eqn:E2;
    cbn [negb].
  - exists sys1, sys2. repeat split; (done || lra).
  - exists sys1, m2. split; [done|]. split; [done|]. split; [done|].
    split; [|done]. destruct (decide (s1 = 0%Z)) as [Hs|Hs].
    + rewrite (Hzero1 Hs). done.
    + apply Qeq_bool_iff in E1. exfalso.
      specialize (Hpos1 ltac:(lia)).
      pose proof (round_ge_pow (sys1 * c7) m1 (-31)) as Hround.
      pose proof (pow2_positive (-31)) as Hpos31.
      assert (2 ^ (-31) <= sys1 * c7) as Hbig.
      { apply Qle_trans with (2 ^ (-30) * (1 # 2)).
        - replace (-30)%Z with (-31 + 1)%Z by lia. rewrite pow2_add.
          change (2 ^ 1) with 2. field_simplify. lra.
        - apply Qle_trans with (sys1 * (1 # 2)).
          + apply Qmult_le_compat_r; lra.
          + rewrite !(Qmult_comm sys1). apply Qmult_le_compat_r; lra. }
      specialize (Hround Hbig ltac:(lia) Hr1). lra.
  - apply Qeq_bool_iff in E2. apply Qeq_bool_neq in E1. exfalso.
    apply E1. lra.
  - exists m1, m2. repeat split; (done || lra).
Qed.

End Budget.

(** C6 as stated promises a batch size for arbitrarily large readings. The
    host reading is first divided by [1024 ** 3], and the division of two
    ints fails when the quotient is too large for a float: at [2 ^ 1100]
    bytes [get_batch_size] raises and returns no batch size. *)
Lemma get_batch_size_overflow :
  Memory.get_batch_size "cpu" (Memory.readings (2 ^ 1100) false 0)
  = Raise OverflowError
  /\ ~ exists b : Z,
         Memory.get_batch_size "cpu" (Memory.readings (2 ^ 1100) false 0)
         = Ok b
         /\ 8 <= b <= 512.
Proof.
  assert (Memory.get_batch_size "cpu" (Memory.readings (2 ^ 1100) false 0)
          = Raise OverflowError) as Hrun by (vm_compute; reflexivity).
  split; [exact Hrun|]. intros (b & Hb & _). congruence.
Qed.

(** C6 (amended). For memory readings from 0 to below [2 ^ 1000] bytes and
    whatever the device, [get_batch_size] returns a batch size between 8 and
    512; on "cuda" it is a multiple of 8 and on "mps" it is at most 64. And
    whatever the answers of the environment, a batch size that is returned
    obeys these bounds. *)
Theorem get_batch_size_bounds :
  forall (device : string) (sys_bytes gpu_bytes : Z) (cuda : bool),
    0 <= sys_bytes < 2 ^ 1000 ->
    0 <= gpu_bytes < 2 ^ 1000 ->
    (exists b : Z,
       Memory.get_batch_size device (Memory.readings sys_bytes cuda gpu_bytes)
       = Ok b
       /\ 8 <= b <= 512
       /\ (device = "cuda"%string -> (8 | b))
       /\ (device = "mps"%string -> b <= 64))
    /\ forall (env : Memory.Probe) (b : Z),
         Memory.get_batch_size device env = Ok b ->
         8 <= b <= 512
         /\ (device = "cuda"%string -> (8 | b))
         /\ (device = "mps"%string -> b <= 64).
Proof.
  intros device sys_bytes gpu_bytes cuda Hsys Hgpu. split.
  - destruct (readings_available device cuda gpu_bytes sys_bytes sys_bytes)
      as (r1 & r2 & Hrun & _ & Hlow & Hle & Hhigh); [lia|lia|done|].
    destruct (batch_for_monotone device r1 r1) as (b & _ & Hb & _ & _);
      [done|apply Qle_refl|by apply Qle_trans with r2|].
    exists b. rewrite Hrun. split; [done|].
    by apply (batch_for_range device (Float.Num r1) b).
  - intros env b. unfold Memory.get_batch_size.
    destruct (Memory.get_available_memory_gb device env)
      as [[sys_memory gpu_memory]| |]; [|done|done].
    apply batch_for_range.
Qed.

Lemma get_batch_size_bounds_witness :
  (exists b : Z,
     Memory.get_batch_size "cuda"
       (Memory.readings 5771362304 true (43 * 1024 ^ 3)) = Ok b
     /\ 8 <= b <= 512
     /\ ("cuda"%string = "cuda"%string -> (8 | b))
     /\ ("cuda"%string = "mps"%string -> b <= 64))
  /\ forall (env : Memory.Probe) (b : Z),
       Memory.get_batch_size "cuda" env = Ok b ->
       8 <= b <= 512
       /\ ("cuda"%string = "cuda"%string -> (8 | b))
       /\ ("cuda"%string = "mps"%string -> b <= 64).
Proof.
  apply (get_batch_size_bounds "cuda" 5771362304 (43 * 1024 ^ 3) true); lia.
Defined.

(** The doubles show in the result: 5.375 GB of host memory give 42 samples
    and 43 GB of GPU memory give 336, where exact arithmetic would give 43
    and 344. *)
Lemma get_batch_size_rounds :
  Memory.get_batch_size "cpu" (Memory.readings 5771362304 false 0) = Ok 42
  /\ Memory.get_batch_size "cuda" (Memory.readings 0 true (43 * 1024 ^ 3))
     = Ok 336.
Proof. split; vm_compute; reflexivity. Qed.

(** C7 as stated asks for a fallback to 8 when the memory query fails. *)
Lemma get_batch_size_no_fallback :
  Memory.virtual_memory_available Memory.unavailable = Raise OSError
  /\ Memory.get_batch_size "cpu" Memory.unavailable = Raise OSError
  /\ Memory.get_batch_size "cpu" Memory.unavailable <> Ok 8.
Proof. repeat split. discriminate. Qed.

(** C7 (amended). When the host memory query fails, [get_batch_size] does not
    fall back to a batch size: it fails with the error of the query, on every
    device. *)
Theorem get_batch_size_propagates_failure :
  forall (device : string) (env : Memory.Probe) (e : exn),
    Memory.virtual_memory_available env = Raise e ->
    Memory.get_batch_size device env = Raise e.
Proof.
  intros device env e Hfail.
  unfold Memory.get_batch_size, Memory.get_available_memory_gb.
  rewrite Hfail. reflexivity.
Qed.

Lemma get_batch_size_propagates_failure_witness :
  Memory.get_batch_size "mps" Memory.unavailable = Raise OSError.
Proof.
  apply (get_batch_size_propagates_failure "mps" Memory.unavailable OSError).
  reflexivity.
Defined.

(** ** Padding *)

Section Padding.
Context {A : Type}.
Implicit Types (l : list A) (s : list nat).

Lemma chunks_length k d l : length (Torch.chunks k d l) = d.
Proof. revert l. induction d; intros; simpl; auto. Qed.

Lemma concat_chunks k d l :
  length l = (d * k)%nat -> concat (Torch.chunks k d l) = l.
Proof.
  revert l. induction d as [|d IH]; intros l Hlen; simpl in *.
  - by destruct l.
  - rewrite IH; [apply take_drop|]. rewrite length_drop. lia.
Qed.

Lemma chunks_Forall_length k d l :
  length l = (d * k)%nat ->
  Forall (fun c => length c = k) (Torch.chunks k d l).
Proof.
  revert l. induction d as [|d IH]; intros l Hlen; simpl in *; constructor.
  - rewrite length_take. lia.
  - apply IH. rewrite length_drop. lia.
Qed.

Lemma fmap_fixed {B} (f : B -> B) (bs : list B) :
  Forall (fun b => f b = b) bs -> f <$> bs = bs.
Proof. induction 1; simpl; [done|]. by f_equal. Qed.

Lemma padded_shape_zero s n :
  length s = n -> Torch.padded_shape s (replicate n (0, 0)%nat) = s.
Proof.
  revert n. induction s as [|d s IH]; intros [|n] Hn; simpl in *; try done.
  unfold Torch.padded_shape in *. simpl. rewrite IH by lia. f_equal. lia.
Qed.

Lemma pad_dims_zero zero s l :
  length l = Torch.numel s ->
  Torch.pad_dims zero s (replicate (length s) (0, 0)%nat) l = l.
Proof.
  revert l. induction s as [|d s IH]; intros l Hlen; simpl; [done|].
  rewrite app_nil_r.
  rewrite fmap_fixed.
  - apply concat_chunks. simpl in Hlen. lia.
  - eapply Forall_impl; [apply chunks_Forall_length; simpl in Hlen; lia|].
    intros c Hc. simpl in Hc. by apply IH.
Qed.

Lemma pairs_padding k p :
  Torch.pairs (concat (replicate k [0; 0]%nat) ++ [0%nat; p])
  = Some (replicate k (0, 0)%nat ++ [(0, p)%nat]).
Proof. induction k as [|k IH]; simpl; [done|]. by rewrite IH. Qed.

Lemma reverse_replicate {B} n (x : B) : reverse (replicate n x) = replicate n x.
Proof.
  induction n as [|n IH]; simpl; [done|].
  rewrite reverse_cons, IH. clear IH.
  induction n; simpl; [done|]. by f_equal.
Qed.

(** What [pad_to_batch_size] returns when it pads: [pad] zero rows after the
    rows of the tensor. *)
Lemma pad_to_batch_size_pads zero n s l (batch_size : Z) :
  length l = (n * Torch.numel s)%nat ->
  Z.of_nat n < batch_size ->
  Torch.pad_to_batch_size zero (Torch.Tensor (n :: s) l) batch_size
  = Ok (Torch.Tensor (Z.to_nat batch_size :: s)
          (l ++ replicate ((Z.to_nat batch_size - n) * Torch.numel s) zero)).
Proof.
  intros Hlen Hlt. unfold Torch.pad_to_batch_size. simpl.
  destruct (Z.geb_spec (Z.of_nat n) batch_size) as [?|_]; [lia|].
  unfold Torch.F_pad, Torch.dim. simpl. rewrite Nat.sub_0_r.
  rewrite pairs_padding. rewrite length_app, length_replicate. simpl.
  rewrite decide_True by lia.
  replace (S (length s) - (length s + 1))%nat with 0%nat by lia. simpl.
  rewrite reverse_app, reverse_replicate. simpl.
  unfold Torch.padded_shape at 1. simpl.
  fold (Torch.padded_shape s (replicate (length s) (0, 0)%nat)).
  rewrite (padded_shape_zero s (length s) eq_refl).
  rewrite fmap_fixed.
  - rewrite concat_chunks by lia.
    do 2 f_equal; [f_equal; lia|]. do 3 f_equal. lia.
  - eapply Forall_impl; [apply chunks_Forall_length; lia|].
    intros c Hc. simpl in Hc. by apply pad_dims_zero.
Qed.

End Padding.



(** ** The error monad *)

Lemma bind_Ok {A B} (m : result A) (f : A -> result B) (b : B) :
  m ≫= f = Ok b -> exists a, m = Ok a /\ f a = Ok b.
Proof. destruct m as [a| |]; simpl; intros Hb; try discriminate. eauto. Qed.

Lemma mapM_Ok {A B} (f : A -> result B) (l : list A) (k : list B) :
  mapM f l = Ok k <-> Forall2 (fun x y => f x = Ok y) l k.
Proof.
  revert k. induction l as [|x l IH]; intros k; simpl.
  - split; [intros [= <-]; constructor | by inversion 1].
  - split.
    + intros Hk. apply bind_Ok in Hk as (y & Hy & Hk).
      apply bind_Ok in Hk as (k' & Hk' & [= <-]).
      constructor; [done|]. by apply IH.
    + inversion 1 as [|? y ? k' Hy Hk']; subst.
      rewrite Hy. simpl. apply IH in Hk'. rewrite Hk'. done.
Qed.

Lemma mapM_Ok_length {A B} (f : A -> result B) (l : list A) (k : list B) :
  mapM f l = Ok k -> length k = length l.
Proof. intros Hk%mapM_Ok. symmetry. by eapply Forall2_length. Qed.

Lemma mapM_total {A B} (f : A -> result B) (l : list A) :
  Forall (fun x => exists y, f x = Ok y) l -> exists k, mapM f l = Ok k.
Proof.
  induction 1 as [|x l [y Hy] _ [k Hk]]; simpl; [by eexists|].
  rewrite Hy. simpl. rewrite Hk. simpl. by eexists.
Qed.

(** Unfold one [bind] whose first computation succeeded. *)
Ltac bind_inv H :=
  let a := fresh "a" in
  let Ha := fresh "H" a in
  apply bind_Ok in H as (a & Ha & H).

(** ** Scores *)

Section ScoreFacts.
Local Open Scope Q_scope.

Lemma sum_app (a b : list Q) :
  Scores.sum (a ++ b) == Scores.sum a + Scores.sum b.
Proof. induction a as [|x a IH]; simpl; [ring|]. rewrite IH. ring. Qed.

Lemma sum_positive (l : list Q) :
  Forall (fun x => 0 < x) l -> l <> [] -> 0 < Scores.sum l.
Proof.
  induction 1 as [|x l Hx Hl IH]; [done|]. intros _. simpl.
  destruct l as [|y l].
  - simpl. by rewrite Qplus_0_r.
  - rewrite <- (Qplus_0_r 0). apply Qplus_lt_le_compat; [done|].
    apply Qlt_le_weak, IH. done.
Qed.

Lemma fold_maximum_elem (x : Q) (l : list Q) :
  foldl (fun m y => if Scores.Qlt_bool m y then y else m) x l ∈ x :: l.
Proof.
  revert x. induction l as [|y l IH]; intros x; simpl.
  - apply elem_of_cons. by left.
  - destruct (Scores.Qlt_bool x y).
    + apply elem_of_cons. right. apply IH.
    + specialize (IH x). rewrite !elem_of_cons in *. tauto.
Qed.

Lemma maximum_elem (l : list Q) (m : Q) : Scores.maximum l = Ok m -> m ∈ l.
Proof.
  destruct l as [|x l]; simpl; [done|]. intros [= <-]. apply fold_maximum_elem.
Qed.

Lemma softmax_positive (e : Q -> Q) (row : list Q) :
  (forall x, 0 < e x) -> Forall (fun p => 0 < p) (Scores.softmax e row).
Proof.
  intros He. unfold Scores.softmax. destruct row as [|x row]; [constructor|].
  assert (0 < Scores.sum (e <$> x :: row)) as Htotal.
  { apply sum_positive; [|done]. apply Forall_fmap, Forall_true. intros y. apply He. }
  apply Forall_fmap, Forall_true. intros y. simpl.
  apply Qmult_lt_0_compat; [apply He|]. by apply Qinv_lt_0_compat.
Qed.

(** The maximum of a softmax is positive. *)
Lemma softmax_maximum_positive (e : Q -> Q) (row : list Q) (m : Q) :
  (forall x, 0 < e x) -> Scores.maximum (Scores.softmax e row) = Ok m -> 0 < m.
Proof.
  intros He Hm%maximum_elem.
  pose proof (softmax_positive e row He) as Hall.
  rewrite Forall_forall in Hall. by apply Hall.
Qed.

Lemma nonzero_positive (x : Q) : 0 < x -> Scores.nonzero x = true.
Proof.
  intros Hx. unfold Scores.nonzero. destruct (Qeq_bool x 0) eqn:E; [|done].
  apply Qeq_bool_iff in E. rewrite E in Hx. by apply Qlt_irrefl in Hx.
Qed.

Lemma count_nonzero_app (a b : list Q) :
  Scores.count_nonzero (a ++ b)
  = (Scores.count_nonzero a + Scores.count_nonzero b)%nat.
Proof. unfold Scores.count_nonzero. by rewrite filter_app, length_app. Qed.

Lemma count_nonzero_positive (l : list Q) :
  Forall (fun x => 0 < x) l -> Scores.count_nonzero l = length l.
Proof.
  unfold Scores.count_nonzero. induction 1 as [|x l Hx _ IH]; [done|].
  rewrite filter_cons_True by by apply nonzero_positive. simpl. by rewrite IH.
Qed.

Lemma count_nonzero_zeros (k : nat) :
  Scores.count_nonzero (replicate k 0) = 0%nat.
Proof. induction k as [|k IH]; [done|]. apply IH. Qed.

Lemma sum_zeros (k : nat) : Scores.sum (replicate k 0) == 0.
Proof. induction k as [|k IH]; simpl; [done|]. rewrite IH. ring. Qed.

End ScoreFacts.

(** ** One decoding step *)

Section StepFacts.
Import Torch Recognition.
Context `{Settings, Tokenizer, Model, Numerics}.
Variables (batch_size : Z) (n : nat) (hidden : tensor Q).


Lemma pad_to_batch_size_shape {A} (zero : A) (t : tensor A) d s (b : Z) :
  shape t = d :: s ->
  exists t', pad_to_batch_size zero t b = Ok t'
             /\ exists d', shape t' = d' :: s /\ (d <= d')%nat.
Proof.
  intros Hshape. unfold pad_to_batch_size, shape0. rewrite Hshape. simpl.
  destruct (Z.of_nat d >=? b); simpl.
  { eexists; split; [done|]. exists d. by rewrite Hshape. }
  unfold F_pad, dim. rewrite Hshape. simpl. rewrite Nat.sub_0_r.
  rewrite pairs_padding, length_app, length_replicate. simpl.
  rewrite decide_True by lia.
  replace (S (length s) - (length s + 1))%nat with 0%nat by lia. simpl.
  rewrite reverse_app, reverse_replicate. simpl.
  eexists; split; [done|]. simpl. unfold padded_shape at 1. simpl.
  fold (padded_shape s (replicate (length s) (0, 0)%nat)).
  rewrite (padded_shape_zero s (length s) eq_refl).
  eexists; split; [done|]. lia.
Qed.

(** Everything one successful iteration does, read off the code. *)
Lemma decode_step_inv st stop st' :
  decode_step batch_size n hidden st = Ok (stop, st') ->
  exists preds scores done' rows',
    length preds = length scores
    /\ Forall (fun s => exists row,
                 Scores.maximum (Scores.softmax exp row) = Ok s) scores
    /\ Scores.broadcast_or (all_done st) (is_done <$> preds) = Ok done'
    /\ (if token_count st =? 0 then rows' = (fun s => [s]) <$> scores
        else exists previous,
            sequence_scores st = Some previous
            /\ length previous = length scores
            /\ rows' = zip_with app previous (Scores.masked_fill scores done'))
    /\ stop = forallb id done'
    /\ history st' = history st ++ [mkStep preds scores done']
    /\ all_done st' = done'
    /\ sequence_scores st' = Some rows'
    /\ (if stop
        then token_count st' = token_count st
             /\ inference_token_count st' = inference_token_count st
             /\ batch_predictions st' = batch_predictions st
        else token_count st' = token_count st + inference_token_count st
             /\ inference_token_count st' = 1
             /\ batch_predictions st'
                = append_predictions (batch_predictions st) preds done'
             /\ decoder_position_ids st' <> []
             /\ exists d, shape (batch_decoder_input st') = [d; 1%nat]
                          /\ (length preds <= d)%nat).
Proof.
  unfold decode_step. intros Hstep.
  destruct (decoder _ _ _ _ _) as [cache' all_logits].
  bind_inv Hstep. rename a into last_logits.
  bind_inv Hstep. rename a into preds.
  bind_inv Hstep. rename a into scores.
  bind_inv Hstep. rename a into done'.
  bind_inv Hstep. rename a into rows'.
  exists preds, scores, done', rows'.
  assert (length preds = length scores) as Hlen.
  { apply mapM_Ok_length in Ha0, Ha1. congruence. }
  split; [done|]. split.
  { apply mapM_Ok in Ha1. clear -Ha1.
    induction Ha1; constructor; eauto. }
  split; [done|]. split.
  { destruct (token_count st =? 0); [by injection Ha3|].
    destruct (sequence_scores st) as [previous|]; [|done].
    unfold Scores.cat_dim1 in Ha3. case_decide as Hrows; [|done].
    injection Ha3 as <-. exists previous. split; [done|]. split; [|done].
    unfold Scores.masked_fill in Hrows. by rewrite length_fmap in Hrows. }
  destruct (forallb id done') eqn:Hall.
  - injection Hstep as <- <-. simpl. done.
  - bind_inv Hstep. bind_inv Hstep. bind_inv Hstep. bind_inv Hstep.
    injection Hstep as <- <-. simpl.
    repeat split; try done.
    + unfold shape_last in Ha4. simpl in Ha4. by injection Ha4 as <-.
    + unfold row0_width, shape0, shape_last in Ha6. simpl in Ha6.
      case_decide; [done|]. simpl in Ha6. injection Ha6 as <-. done.
    + unfold row0_width, shape0, shape_last in Ha6. simpl in Ha6.
      case_decide; [done|]. 
      destruct RECOGNITION_STATIC_CACHE.
      * destruct (pad_to_batch_size_shape 0 (unsqueeze1 preds)
                    (length preds) [1%nat] batch_size eq_refl)
          as (t' & Ht' & d' & Hd' & Hle).
        rewrite Ht' in Ha7. injection Ha7 as <-. eauto.
      * injection Ha7 as <-. simpl. eauto.
Qed.

End StepFacts.

(** ** The loop on well-formed states *)

Section LoopFacts.
Import Torch Recognition.
Context `{Settings, Tokenizer, Model, Numerics}.
Variables (batch_size : Z) (n : nat) (hidden : tensor Q).
Hypothesis shaped : decoder_shaped.


Lemma last_position_total (logits : list (list (list Q))) :
  Forall (fun sample => exists x row, last sample = Some (x :: row)) logits ->
  exists rows, mapM last_position logits = Ok rows
               /\ Forall (fun row => row <> []) rows.
Proof.
  induction 1 as [|sample logits (x & row & Hlast) _ (rows & Hrows & Hne)].
  - eexists; split; [done|constructor].
  - change (mapM last_position (sample :: logits))
      with (y ← last_position sample; k ← mapM last_position logits; mret (y :: k)).
    assert (last_position sample = Ok (x :: row)) as ->
      by (unfold last_position; by rewrite Hlast).
    simpl. rewrite Hrows. simpl.
    eexists; split; [done|]. by constructor.
Qed.

Lemma argmax_total (rows : list (list Q)) :
  Forall (fun row => row <> []) rows ->
  exists preds, mapM Scores.argmax rows = Ok preds.
Proof.
  intros Hne. apply mapM_total. eapply Forall_impl; [exact Hne|].
  intros [|x row] Hrow; [done|]. simpl. eauto.
Qed.

Lemma maximum_total (rows : list (list Q)) :
  Forall (fun row => row <> []) rows ->
  exists scores,
    mapM (fun row => Scores.maximum (Scores.softmax exp row)) rows = Ok scores.
Proof.
  intros Hne. apply mapM_total. eapply Forall_impl; [exact Hne|].
  intros [|x row] Hrow; [done|]. simpl. eauto.
Qed.

Lemma broadcast_or_same (a b : list bool) :
  length a = length b -> Scores.broadcast_or a b = Ok (zip_with orb a b).
Proof. intros Hlen. unfold Scores.broadcast_or. by rewrite decide_True. Qed.

(** On a well-formed state the iteration succeeds, and it saw one
    prediction per sample. *)
Lemma decode_step_total st :
  state_ok n st ->
  exists stop st' preds scores,
    decode_step batch_size n hidden st = Ok (stop, st')
    /\ length preds = n
    /\ history st'
       = history st
         ++ [mkStep preds scores
               (zip_with orb (all_done st) (is_done <$> preds))].
Proof.
  intros [Hn (d & s & Hshape & Hd) Hdone Hpreds Hscores Hcount Hpos].
  unfold decode_step.
  pose proof (shaped (cache st) (batch_decoder_input st) hidden
                (decoder_position_ids st) (token_count st =? 0)) as Hlogits.
  destruct (decoder _ _ _ _ _) as [cache' all_logits].
  simpl in Hlogits. destruct Hlogits as [Hrows Hsamples].
  specialize (Hrows d s Hshape).
  destruct (last_position_total (take n all_logits)) as (last_logits & Hlast & Hne).
  { by apply Forall_take. }
  destruct (argmax_total last_logits Hne) as [preds Hargmax].
  destruct (maximum_total last_logits Hne) as [scores Hmax].
  assert (length last_logits = n) as Hlen_last.
  { apply mapM_Ok_length in Hlast. rewrite Hlast, length_take. lia. }
  assert (length preds = n) as Hlen_preds.
  { apply mapM_Ok_length in Hargmax. congruence. }
  assert (length scores = n) as Hlen_scores.
  { apply mapM_Ok_length in Hmax. congruence. }
  rewrite Hlast. simpl. rewrite Hargmax. simpl. rewrite Hmax. simpl.
  rewrite broadcast_or_same by (rewrite length_fmap; congruence). simpl.
  set (done' := zip_with orb (all_done st) (is_done <$> preds)).
  assert (exists rows',
    (if token_count st =? 0 then Ok ((fun s => [s]) <$> scores)
     else match sequence_scores st with
          | None => Raise TypeError
          | Some previous =>
              Scores.cat_dim1 previous (Scores.masked_fill scores done')
          end) = Ok rows') as [rows' ->].
  { destruct (Z.eqb_spec (token_count st) 0) as [Hzero|Hnz]; [eauto|].
    destruct Hscores as [?|(rows & -> & Hlen_rows)]; [done|].
    unfold Scores.cat_dim1. rewrite decide_True; [eauto|].
    unfold Scores.masked_fill. rewrite length_fmap. congruence. }
  simpl. destruct (forallb id done') eqn:Hall; simpl.
  { do 4 eexists. split; [done|]. split; [done|]. done. }
  unfold shape_last. simpl.
  destruct (drop (length (decoder_position_ids st) - 1) (decoder_position_ids st))
    as [|p ps] eqn:Hdrop.
  { apply (f_equal length) in Hdrop. rewrite length_drop in Hdrop. simpl in Hdrop.
    destruct (decoder_position_ids st); [done|]. simpl in Hdrop. lia. }
  simpl. unfold row0_width, shape0, shape_last. simpl.
  rewrite decide_False by lia. simpl.
  destruct RECOGNITION_STATIC_CACHE.
  - destruct (pad_to_batch_size_shape 0 (unsqueeze1 preds)
                (length preds) [1%nat] batch_size eq_refl)
      as (t' & -> & _).
    simpl. do 4 eexists. split; [done|]. split; [done|]. done.
  - simpl. do 4 eexists. split; [done|]. split; [done|]. done.
Qed.


Lemma length_append_predictions (predictions : list (list Z)) preds statuses :
  length (append_predictions predictions preds statuses) = length predictions.
Proof. unfold append_predictions. apply length_imap. Qed.

(** What an iteration on a well-formed state leaves behind. *)
Lemma decode_step_ok st stop st' :
  state_ok n st -> decode_step batch_size n hidden st = Ok (stop, st') ->
  (stop = false -> state_ok n st')
  /\ (exists rows, sequence_scores st' = Some rows /\ length rows = n)
  /\ length (batch_predictions st') = n
  /\ length (all_done st') = n
  /\ exists preds scores,
      length preds = n /\ length scores = n
      /\ all_done st' = zip_with orb (all_done st) (is_done <$> preds)
      /\ history st' = history st ++ [mkStep preds scores (all_done st')]
      /\ stop = forallb id (all_done st').
Proof.
  intros Hok Hstep.
  destruct (decode_step_total st Hok)
    as (stop0 & st0 & preds & scores0 & Hstep0 & Hlen_preds & Hhist0).
  rewrite Hstep in Hstep0. injection Hstep0 as <- <-.
  destruct (decode_step_inv _ _ _ _ _ _ Hstep)
    as (preds' & scores & done' & rows' & Hlen & _ & Hor & Hrows & Hstop
        & Hhist & Hdone & Hscores & Hrest).
  rewrite Hhist in Hhist0. apply app_inj_tail in Hhist0 as [_ Heq].
  injection Heq as -> -> Hdone'.
  destruct Hok as [Hn (d & s & Hshape & Hd) Hlen_done Hlen_predictions
                     Hscored Hcount Hpos].
  assert (length scores0 = n) as Hlen_scores by congruence.
  assert (length done' = n) as Hlen_done'.
  { rewrite Hdone', length_zip_with, length_fmap. lia. }
  assert (length rows' = n) as Hlen_rows.
  { destruct (token_count st =? 0).
    - subst rows'. by rewrite length_fmap.
    - destruct Hrows as (previous & _ & Hprev & ->).
      rewrite length_zip_with. unfold Scores.masked_fill.
      rewrite length_fmap. lia. }
  assert (length (batch_predictions st') = n) as Hlen_predictions'.
  { destruct stop.
    - destruct Hrest as (_ & _ & ->). done.
    - destruct Hrest as (_ & _ & -> & _). by rewrite length_append_predictions. }
  split.
  { intros ->. destruct Hrest as (Htok & Hinf & Hpred & Hpos' & d' & Hshape' & Hd').
    split; try done.
    - exists d', [1%nat]. split; [done|]. lia.
    - congruence.
    - right. eauto.
    - lia. }
  split; [eauto|]. split; [done|]. split; [congruence|].
  exists preds, scores0. rewrite Hdone. done.
Qed.

Lemma continues_ok st st' :
  state_ok n st -> continues batch_size n hidden st st' -> state_ok n st'.
Proof.
  intros Hok [_ Hstep]. by apply (decode_step_ok st false st' Hok Hstep).
Qed.

Lemma continues_budget st st' :
  1 <= inference_token_count st -> continues batch_size n hidden st st' ->
  (S (budget st') <= budget st)%nat
  /\ length (history st') = S (length (history st))
  /\ inference_token_count st' = 1.
Proof.
  intros Hcount [Hguard Hstep].
  destruct (decode_step_inv _ _ _ _ _ _ Hstep)
    as (preds & scores & done' & rows' & _ & _ & _ & _ & _ & Hhist & _ & _
        & Hrest).
  simpl in Hrest. destruct Hrest as (Htok & Hinf & _).
  unfold guard in Hguard. apply Z.ltb_lt in Hguard.
  split; [unfold budget; lia|]. split; [|done].
  rewrite Hhist, length_app. simpl. lia.
Qed.

Lemma rtc_continues_ok st last :
  rtc (continues batch_size n hidden) st last ->
  state_ok n st -> state_ok n last.
Proof. induction 1; eauto using continues_ok. Qed.

Lemma rtc_continues_budget st last :
  rtc (continues batch_size n hidden) st last ->
  1 <= inference_token_count st ->
  (length (history last) + budget last <= length (history st) + budget st)%nat
  /\ 1 <= inference_token_count last.
Proof.
  induction 1 as [|st mid last Hstep _ IH]; intros Hcount; [done|].
  destruct (continues_budget st mid Hcount Hstep) as (Hb & Hh & Hinf).
  destruct IH as [IH1 IH2]; [lia|]. split; [lia|done].
Qed.

(** How a run of the loop that returns was made: iterations that went on,
    then either the loop condition failed or an iteration ended in [break]. *)
Lemma decode_loop_Ok fuel st final :
  decode_loop batch_size n hidden fuel st = Ok final ->
  exists last,
    rtc (continues batch_size n hidden) st last
    /\ ((guard last = false /\ final = last)
        \/ breaks batch_size n hidden last final).
Proof.
  revert st. induction fuel as [|fuel IH]; intros st; simpl;
    fold (guard st); destruct (guard st) eqn:Hguard; try done.
  - intros [= <-]. exists st. split; [done|]. by left.
  - intros Hrun. bind_inv Hrun. destruct a as [[] st'].
    + injection Hrun as <-. exists st. split; [done|]. by right.
    + destruct (IH st' Hrun) as (last & Hreach & Hend).
      exists last. split; [|done]. eapply rtc_l; [|exact Hreach]. done.
  - intros [= <-]. exists st. split; [done|]. by left.
Qed.

(** The loop returns as soon as the fuel covers the token budget. *)
Lemma decode_loop_total fuel st :
  state_ok n st -> (budget st <= fuel)%nat ->
  exists final, decode_loop batch_size n hidden fuel st = Ok final.
Proof.
  revert st. induction fuel as [|fuel IH]; intros st Hok Hfuel; simpl;
    fold (guard st); destruct (guard st) eqn:Hguard; eauto.
  - unfold guard in Hguard. apply Z.ltb_lt in Hguard.
    unfold budget in Hfuel. lia.
  - destruct (decode_step_total st Hok) as (stop & st' & ? & ? & Hstep & _).
    rewrite Hstep. simpl. destruct stop; [eauto|].
    assert (continues batch_size n hidden st st') as Hcont by done.
    apply IH; [by eapply continues_ok|].
    destruct (continues_budget st st' (ok_count _ _ Hok) Hcont). lia.
Qed.

End LoopFacts.

(** ** Termination of the decoding loop *)

Lemma bind_no_timeout {A B} (m : result A) (f : A -> result B) :
  m <> OutOfFuel -> (forall a, f a <> OutOfFuel) -> m ≫= f <> OutOfFuel.
Proof. destruct m; simpl; eauto. Qed.

Lemma mapM_no_timeout {A B} (f : A -> result B) (l : list A) :
  (forall a, f a <> OutOfFuel) -> mapM f l <> OutOfFuel.
Proof.
  intros Hf. induction l as [|x l IH]; [done|].
  change (mapM f (x :: l)) with (y ← f x; k ← mapM f l; mret (y :: k)).
  apply bind_no_timeout; [done|]. intros y.
  apply bind_no_timeout; [done|]. done.
Qed.

Lemma pad_to_batch_size_no_timeout {A} (zero : A) (t : Torch.tensor A) (b : Z) :
  Torch.pad_to_batch_size zero t b <> OutOfFuel.
Proof.
  unfold Torch.pad_to_batch_size, Torch.shape0, Torch.F_pad.
  destruct (Torch.shape t); simpl; [done|].
  destruct (_ >=? b); simpl; [done|].
  destruct (Torch.pairs _); [|done]. by case_decide.
Qed.

Section Termination.
Import Torch Recognition.
Context `{Settings, Tokenizer, Model, Numerics}.
Variables (batch_size : Z) (n : nat) (hidden : tensor Q).

(** An iteration returns or raises. *)
Lemma decode_step_no_timeout st :
  decode_step batch_size n hidden st <> OutOfFuel.
Proof.
  unfold decode_step. destruct (decoder _ _ _ _ _) as [cache' all_logits].
  apply bind_no_timeout.
  { apply mapM_no_timeout. intros sample. unfold last_position.
    by destruct (last sample). }
  intros last_logits. apply bind_no_timeout.
  { apply mapM_no_timeout. by intros []. }
  intros preds. apply bind_no_timeout.
  { apply mapM_no_timeout. intros row. unfold Scores.maximum.
    by destruct (Scores.softmax exp row). }
  intros scores. apply bind_no_timeout.
  { unfold Scores.broadcast_or. case_decide; [done|].
    destruct (all_done st) as [|? [|? ?]], (is_done <$> preds) as [|? [|? ?]];
      done. }
  intros done'. apply bind_no_timeout.
  { destruct (token_count st =? 0); [done|].
    destruct (sequence_scores st); [|done].
    unfold Scores.cat_dim1. by case_decide. }
  intros rows'. destruct (forallb id done'); [done|].
  apply bind_no_timeout; [done|]. intros w.
  apply bind_no_timeout.
  { unfold max_item. by destruct (_ <$> _). }
  intros m. apply bind_no_timeout.
  { unfold row0_width. simpl. by case_decide. }
  intros w'. apply bind_no_timeout; [|done].
  destruct RECOGNITION_STATIC_CACHE; [|done].
  apply pad_to_batch_size_no_timeout.
Qed.

(** With a step that consumes tokens, fuel up to the token budget is
    enough, whatever the decoder answers. *)
Lemma decode_loop_no_timeout fuel st :
  1 <= inference_token_count st -> (budget st <= fuel)%nat ->
  decode_loop batch_size n hidden fuel st <> OutOfFuel.
Proof.
  revert st. induction fuel as [|fuel IH]; intros st Hcount Hfuel; simpl;
    fold (guard st); destruct (guard st) eqn:Hguard; try done.
  - unfold guard in Hguard. apply Z.ltb_lt in Hguard.
    unfold budget in Hfuel. lia.
  - pose proof (decode_step_no_timeout st) as Hstep.
    destruct (decode_step batch_size n hidden st) as [[stop st']|e|] eqn:E;
      [|done|done].
    simpl. destruct stop; [done|].
    assert (continues batch_size n hidden st st') as Hcont by done.
    destruct (continues_budget _ _ _ st st' Hcount Hcont) as (Hb & _ & Hinf).
    apply IH; lia.
Qed.

(** While the loop goes on, no recorded step has every sample done. *)
Lemma rtc_continues_running st last :
  rtc (continues batch_size n hidden) st last ->
  exists steps, history last = history st ++ steps /\ Forall running steps.
Proof.
  induction 1 as [st|st mid last [_ Hstep] _ (steps & Hsteps & Hrun)].
  - exists []. by rewrite app_nil_r.
  - destruct (decode_step_inv _ _ _ _ _ _ Hstep)
      as (preds & scores & done' & rows' & _ & _ & _ & _ & Hstop & Hhist & _).
    exists (mkStep preds scores done' :: steps).
    rewrite Hsteps, Hhist, <- app_assoc. split; [done|].
    constructor; [|done]. unfold running. simpl. by symmetry.
Qed.

End Termination.

Lemma scripted_shaped (script : nat -> nat -> list Q) :
  (forall c j, script c j <> []) ->
  @Recognition.decoder_shaped (Example.scripted script).
Proof.
  intros Hscript c input_ids hidden position_ids prefill. simpl.
  rewrite length_fmap, length_seq. split.
  - by intros d s ->.
  - apply Forall_fmap, Forall_true. intros j. simpl.
    specialize (Hscript c j). destruct (script c j) as [|x row]; [done|]. eauto.
Qed.

Lemma entry_state_ok (model : Recognition.Model) (rows : nat) (batch_size : Z) :
  (1 <= rows)%nat ->
  @Recognition.state_ok model rows (Example.entry_state model rows batch_size).
Proof.
  intros Hrows. split; simpl; try done.
  - exists rows, [1%nat]. by rewrite length_replicate.
  - apply length_replicate.
  - apply length_replicate.
  - by left.
Qed.

(** C8. From the entry of the loop, whatever the decoder answers, fuel
    [RECOGNITION_MAX_TOKENS] is enough for the loop to end: it returns or
    raises, and it returns when the decoder answers well-shaped logits, also
    when no sample ever predicts the end or the pad marker. When it returns
    it has called the decoder at most [RECOGNITION_MAX_TOKENS - 1] times, and
    a call after which every sample is done is the last call. *)
Theorem decode_loop_terminates :
  forall `{Recognition.Settings, Recognition.Tokenizer, Recognition.Model,
           Recognition.Numerics}
         (batch_size : Z) (n : nat) (hidden : Torch.tensor Q)
         (st : Recognition.DecoderState) (fuel : nat),
    1 <= Recognition.inference_token_count st ->
    Recognition.token_count st = 0 ->
    Recognition.history st = [] ->
    (Z.to_nat Recognition.RECOGNITION_MAX_TOKENS <= fuel)%nat ->
    Recognition.decode_loop batch_size n hidden fuel st <> OutOfFuel
    /\ (Recognition.decoder_shaped -> Recognition.state_ok n st ->
        exists final,
          Recognition.decode_loop batch_size n hidden fuel st = Ok final)
    /\ forall final,
         Recognition.decode_loop batch_size n hidden fuel st = Ok final ->
         (length (Recognition.history final)
          <= Z.to_nat (Recognition.RECOGNITION_MAX_TOKENS - 1))%nat
         /\ forall (t : nat) (s : Recognition.Step),
              Recognition.history final !! t = Some s ->
              forallb id (Recognition.step_done s) = true ->
              S t = length (Recognition.history final).
Proof.
  intros ? ? ? ? batch_size n hidden st fuel Hcount Htok Hhist Hfuel.
  assert (Recognition.budget st
          = Z.to_nat (Recognition.RECOGNITION_MAX_TOKENS - 1)) as Hbudget.
  { unfold Recognition.budget. rewrite Htok. f_equal. lia. }
  split; [apply decode_loop_no_timeout; [done|lia]|].
  split.
  { intros shaped Hok. apply decode_loop_total; [done|done|lia]. }
  intros final Hrun.
  destruct (decode_loop_Ok batch_size n hidden fuel st final Hrun)
    as (last & Hreach & Hend).
  destruct (rtc_continues_budget _ _ _ st last Hreach Hcount) as [Hsteps _].
  destruct (rtc_continues_running _ _ _ st last Hreach)
    as (steps & Hlast & Hrunning).
  rewrite Hhist in Hsteps, Hlast. simpl in Hsteps, Hlast.
  rewrite Forall_forall in Hrunning.
  destruct Hend as [[_ ->]|[Hguard Hbreak]].
  - split; [lia|]. intros t s Ht Hall. rewrite Hlast in Ht.
    apply list_elem_of_lookup_2, Hrunning in Ht.
    unfold Recognition.running in Ht. congruence.
  - destruct (decode_step_inv _ _ _ _ _ _ Hbreak)
      as (preds & scores & done' & rows' & _ & _ & _ & _ & _ & Hfinal & _).
    unfold Recognition.guard in Hguard. apply Z.ltb_lt in Hguard.
    assert (1 <= Recognition.budget last)%nat
      by (unfold Recognition.budget; lia).
    rewrite Hfinal, length_app. simpl. split; [lia|].
    intros t s Ht Hall. rewrite Hlast in Ht.
    destruct (decide (t < length steps)%nat) as [Hlt|Hge].
    + rewrite lookup_app_l in Ht by done.
      apply list_elem_of_lookup_2, Hrunning in Ht.
      unfold Recognition.running in Ht. congruence.
    + apply lookup_lt_Some in Ht. rewrite length_app in Ht. simpl in Ht.
      rewrite Hlast. lia.
Qed.

Lemma decode_loop_terminates_witness :
  @Recognition.decode_loop (Example.settings 4 false) Example.tokenizer
    (Example.scripted Example.script_never_done) Example.numerics
    2 2%nat (Example.context 2) 4%nat
    (Example.entry_state (Example.scripted Example.script_never_done) 2 2)
  <> OutOfFuel
  /\ (@Recognition.decoder_shaped (Example.scripted Example.script_never_done) ->
      Recognition.state_ok 2
        (Example.entry_state (Example.scripted Example.script_never_done) 2 2) ->
      exists final,
        @Recognition.decode_loop (Example.settings 4 false) Example.tokenizer
          (Example.scripted Example.script_never_done) Example.numerics
          2 2%nat (Example.context 2) 4%nat
          (Example.entry_state (Example.scripted Example.script_never_done) 2 2)
        = Ok final)
  /\ forall final,
       @Recognition.decode_loop (Example.settings 4 false) Example.tokenizer
         (Example.scripted Example.script_never_done) Example.numerics
         2 2%nat (Example.context 2) 4%nat
         (Example.entry_state (Example.scripted Example.script_never_done) 2 2)
       = Ok final ->
       (length (Recognition.history final) <= 3)%nat
       /\ forall (t : nat) (s : Recognition.Step),
            Recognition.history final !! t = Some s ->
            forallb id (Recognition.step_done s) = true ->
            S t = length (Recognition.history final).
Proof.
  apply (@decode_loop_terminates (Example.settings 4 false) Example.tokenizer
           (Example.scripted Example.script_never_done) Example.numerics
           2 2%nat (Example.context 2) _ 4%nat).
  - simpl. lia.
  - reflexivity.
  - reflexivity.
  - simpl. lia.
Defined.

(** ** The prefill score stays in every row *)

Section PrefillFacts.
Import Torch Recognition.
Context `{Settings, Tokenizer, Model, Numerics}.
Variables (batch_size : Z) (n : nat) (hidden : tensor Q).
Hypothesis positive : exp_positive.

Lemma scores_positive (scores : list Q) :
  Forall (fun s => exists row,
            Scores.maximum (Scores.softmax exp row) = Ok s) scores ->
  Forall (fun s => (0 < s)%Q) scores.
Proof.
  intros Hall. eapply Forall_impl; [exact Hall|]. intros s [row Hrow].
  by apply (softmax_maximum_positive exp row s positive).
Qed.

Lemma Forall2_heads_zip (rows extra : list (list Q)) (firsts : list Q) :
  length rows = length extra ->
  Forall2 (fun row s => exists rest, row = s :: rest /\ (0 < s)%Q)
          rows firsts ->
  Forall2 (fun row s => exists rest, row = s :: rest /\ (0 < s)%Q)
          (zip_with app rows extra) firsts.
Proof.
  intros Hlen Hheads. revert extra Hlen.
  induction Hheads as [|row s rows firsts (rest & -> & Hs) _ IH];
    intros [|x extra] Hlen; simpl in *; try done.
  constructor; [eauto|]. apply IH. lia.
Qed.

Lemma entered_step st stop st' :
  entered st -> decode_step batch_size n hidden st = Ok (stop, st') ->
  prefill_kept st' /\ (stop = false -> entered st').
Proof.
  intros [Hcount Hcases] Hstep.
  destruct (decode_step_inv _ _ _ _ _ _ Hstep)
    as (preds & scores & done' & rows' & Hlen & Hmax & _ & Hrows & _
        & Hhist & _ & Hscores & Hrest).
  apply scores_positive in Hmax.
  assert (prefill_kept st') as Hkept.
  { destruct Hcases
      as [(Htok & Hempty & _)|[Htok (first & rows & Hfirst & Hprev & Hheads)]].
    - rewrite Htok in Hrows. simpl in Hrows. subst rows'.
      exists (mkStep preds scores done'), ((fun s => [s]) <$> scores).
      rewrite Hhist, Hempty. split; [done|]. split; [done|]. simpl.
      clear -Hmax. induction Hmax; simpl; constructor; eauto.
    - destruct (Z.eqb_spec (token_count st) 0) as [?|_]; [lia|].
      destruct Hrows as (previous & Hprevious & Hlen_prev & ->).
      rewrite Hprev in Hprevious. injection Hprevious as <-.
      exists first, (zip_with app rows (Scores.masked_fill scores done')).
      split; [|split; [done|]].
      + rewrite Hhist. apply lookup_app_l_Some. done.
      + apply Forall2_heads_zip; [|done].
        unfold Scores.masked_fill. rewrite length_fmap. done. }
  split; [done|]. intros ->. destruct Hrest as (Htok' & Hinf' & _).
  split; [lia|]. right. split; [|done].
  destruct Hcases as [(Htok & _)|[Htok _]]; lia.
Qed.

Lemma rtc_continues_entered st last :
  rtc (continues batch_size n hidden) st last -> entered st -> entered last.
Proof.
  induction 1 as [|st mid last [_ Hstep] _ IH]; [done|]. intros Hst.
  apply IH. by apply (entered_step st false mid Hst Hstep).
Qed.

Lemma kept_denominator (rows : list (list Q)) (firsts : list Q) :
  Forall2 (fun row s => exists rest, row = s :: rest /\ (0 < s)%Q)
          rows firsts ->
  Forall (fun row => (1 <= Scores.count_nonzero row)%nat
                     /\ exists c, Scores.confidence row = Scores.Finite c) rows.
Proof.
  induction 1 as [|row s rows firsts (rest & -> & Hs) _ IH]; constructor; [|done].
  assert (1 <= Scores.count_nonzero (s :: rest))%nat as Hcount.
  { unfold Scores.count_nonzero.
    rewrite filter_cons_True by by apply nonzero_positive. simpl. lia. }
  split; [done|]. unfold Scores.confidence.
  destruct (Scores.count_nonzero (s :: rest)); [lia|]. eauto.
Qed.

End PrefillFacts.

(** C10. The loop entered with at least one token to consume keeps, at the
    head of every score row, the raw score of the first call of the decoder;
    a softmax maximum is positive, so every row counts at least one nonzero
    score and its confidence is a quotient by a positive count, never the
    not-a-number of a division by zero. *)
Theorem confidence_denominator_positive :
  forall `{Recognition.Settings, Recognition.Tokenizer, Recognition.Model,
           Recognition.Numerics}
         (batch_size : Z) (n : nat) (hidden : Torch.tensor Q)
         (input : Torch.tensor Z) (width : nat) (position_ids : list Z)
         (fuel : nat) (final : Recognition.DecoderState) (rows : list (list Q)),
    Recognition.exp_positive ->
    (1 <= width)%nat ->
    Recognition.decode_loop batch_size n hidden fuel
      (Recognition.initial_state input width position_ids n batch_size)
    = Ok final ->
    Recognition.sequence_scores final = Some rows ->
    Recognition.prefill_kept final
    /\ Forall (fun row => (1 <= Scores.count_nonzero row)%nat
                          /\ exists c, Scores.confidence row = Scores.Finite c)
              rows.
Proof.
  intros ? ? ? ? batch_size n hidden input width position_ids fuel final rows
    positive Hwidth Hrun Hrows.
  set (st := Recognition.initial_state input width position_ids n batch_size)
    in Hrun.
  assert (Recognition.entered st) as Hentered.
  { split; [simpl; lia|]. by left. }
  destruct (decode_loop_Ok batch_size n hidden fuel st final Hrun)
    as (last & Hreach & Hend).
  pose proof (rtc_continues_entered batch_size n hidden positive st last
                Hreach Hentered) as Hlast.
  assert (Recognition.prefill_kept final) as Hkept.
  { destruct Hend as [[_ ->]|[_ Hbreak]].
    - destruct Hlast as [_ [(_ & _ & Hnone)|[_ Hkept]]]; [|done]. congruence.
    - by apply (entered_step batch_size n hidden positive last true final Hlast Hbreak). }
  split; [done|].
  destruct Hkept as (first & rows' & _ & Hrows' & Hheads).
  rewrite Hrows in Hrows'. injection Hrows' as <-.
  by eapply kept_denominator.
Qed.

Lemma exp2_positive : @Recognition.exp_positive Example.numerics.
Proof. intros x. simpl. unfold Example.exp2. by apply Qpower_0_lt. Qed.

Lemma confidence_denominator_positive_witness :
  exists final rows,
    @Recognition.decode_loop (Example.settings 6 false) Example.tokenizer
      (Example.scripted Example.script_early_and_late) Example.numerics
      2 2%nat (Example.context 2) 6%nat
      (Example.entry_state (Example.scripted Example.script_early_and_late) 2 2)
    = Ok final
    /\ Recognition.sequence_scores final = Some rows
    /\ Recognition.prefill_kept final
    /\ Forall (fun row => (1 <= Scores.count_nonzero row)%nat
                          /\ exists c, Scores.confidence row = Scores.Finite c)
              rows.
Proof.
  eexists. eexists. split; [lazy; reflexivity|]. split; [reflexivity|].
  apply (@confidence_denominator_positive (Example.settings 6 false)
           Example.tokenizer (Example.scripted Example.script_early_and_late)
           Example.numerics 2 2%nat (Example.context 2)
           (Torch.stack_rows (replicate 2 [3]) 1) 1%nat
           (Recognition.positions 1 0) 6%nat).
  - exact exp2_positive.
  - lia.
  - lazy. reflexivity.
  - reflexivity.
Defined.

(** ** Masking of the scores of a step *)

(** C3 as stated asks that a sample that becomes done on a step keeps that
    step's raw score. One sample writes a letter at the prefill step and the
    end marker at the second call: it was not done before the second call,
    the raw score of that call is 2/3, and the entry recorded for it is 0. *)
Lemma terminal_score_masked :
  Example.letter_step (Example.entry_state Example.letter_model 1 1)
  = Ok (false, Example.after_letter)
  /\ Recognition.all_done Example.after_letter = [false]
  /\ Example.letter_step Example.after_letter = Ok (true, Example.after_eos)
  /\ (exists raw : Q,
        last (Recognition.history Example.after_eos)
        = Some (Recognition.mkStep [1] [raw] [true])
        /\ (raw == 2 # 3)%Q)
  /\ exists first : Q,
       Recognition.sequence_scores Example.after_eos = Some [[first; 0%Q]].
Proof.
  split; [lazy; reflexivity|]. split; [reflexivity|].
  split; [lazy; reflexivity|]. split; eexists; [split|]; reflexivity.
Qed.

(** C3 (amended). The prefill step records the raw score of every sample.
    Every later step masks its scores with the done-mask as updated on that
    step, which holds the samples done before the step and those that become
    done on it; in a batch of one sample the score recorded is zero when the
    sample was done before the step or becomes done on it, and the raw score
    when it is still running. *)
Theorem scores_masked_with_updated_done :
  forall `{Recognition.Settings, Recognition.Tokenizer, Recognition.Model,
           Recognition.Numerics}
         (batch_size : Z) (n : nat) (hidden : Torch.tensor Q)
         (st st' : Recognition.DecoderState) (stop : bool),
    Recognition.decode_step batch_size n hidden st = Ok (stop, st') ->
    exists preds scores,
      last (Recognition.history st')
      = Some (Recognition.mkStep preds scores (Recognition.all_done st'))
      /\ Scores.broadcast_or (Recognition.all_done st)
           (Recognition.is_done <$> preds)
         = Ok (Recognition.all_done st')
      /\ (Recognition.token_count st = 0 ->
          Recognition.sequence_scores st' = Some ((fun s => [s]) <$> scores))
      /\ (Recognition.token_count st <> 0 ->
          exists previous,
            Recognition.sequence_scores st = Some previous
            /\ Recognition.sequence_scores st'
               = Some (zip_with app previous
                         (Scores.masked_fill scores (Recognition.all_done st'))))
      /\ (forall row done_before pred raw,
            Recognition.token_count st <> 0 ->
            Recognition.sequence_scores st = Some [row] ->
            Recognition.all_done st = [done_before] ->
            preds = [pred] -> scores = [raw] ->
            Recognition.sequence_scores st'
            = Some [row ++ [if done_before || Recognition.is_done pred
                            then 0%Q else raw]]).
Proof.
  intros ? ? ? ? batch_size n hidden st st' stop Hstep.
  destruct (decode_step_inv _ _ _ _ _ _ Hstep)
    as (preds & scores & done' & rows' & _ & _ & Hor & Hrows & _
        & Hhist & Hdone & Hscores & _).
  subst done'. exists preds, scores.
  split; [by rewrite Hhist, last_snoc|]. split; [done|].
  assert (Recognition.token_count st <> 0 ->
          exists previous,
            Recognition.sequence_scores st = Some previous
            /\ Recognition.sequence_scores st'
               = Some (zip_with app previous
                         (Scores.masked_fill scores (Recognition.all_done st'))))
    as Hlater.
  { intros Hnz. destruct (Z.eqb_spec (Recognition.token_count st) 0); [done|].
    destruct Hrows as (previous & Hprev & _ & ->). eauto. }
  split; [|split; [done|]].
  - intros Hzero. rewrite Hzero in Hrows. simpl in Hrows. congruence.
  - intros row done_before pred raw Hnz Hrow Hbefore -> ->.
    destruct (Hlater Hnz) as (previous & Hprev & ->).
    rewrite Hrow in Hprev. injection Hprev as <-.
    rewrite Hbefore in Hor. simpl in Hor.
    unfold Scores.broadcast_or in Hor. simpl in Hor. injection Hor as <-.
    done.
Qed.

Lemma scores_masked_with_updated_done_witness :
  Example.letter_step Example.after_letter = Ok (true, Example.after_eos)
  /\ exists preds scores,
      last (Recognition.history Example.after_eos)
      = Some (Recognition.mkStep preds scores
                (Recognition.all_done Example.after_eos))
      /\ Scores.broadcast_or (Recognition.all_done Example.after_letter)
           (@Recognition.is_done Example.tokenizer <$> preds)
         = Ok (Recognition.all_done Example.after_eos)
      /\ Recognition.sequence_scores Example.after_eos
         = Some (zip_with app [[(2 # 4)%Q]]
                   (Scores.masked_fill scores
                      (Recognition.all_done Example.after_eos))).
Proof.
  assert (Example.letter_step Example.after_letter
          = Ok (true, Example.after_eos)) as Hstep by (lazy; reflexivity).
  split; [exact Hstep|].
  destruct (@scores_masked_with_updated_done (Example.settings 6 false)
              Example.tokenizer Example.letter_model Example.numerics
              1 1%nat (Example.context 1)
              Example.after_letter Example.after_eos true Hstep)
    as (preds & scores & Hlast & Hor & _ & Hlater & _).
  exists preds, scores. split; [exact Hlast|]. split; [exact Hor|].
  destruct Hlater as (previous & Hprev & Hnext); [discriminate|].
  injection Hprev as <-. exact Hnext.
Defined.

(** ** The confidence of a single sample *)

Section SingleSample.
Import Torch Recognition.
Context `{Settings, Tokenizer, Model, Numerics}.
Variables (batch_size : Z) (hidden : tensor Q).
Hypothesis shaped : decoder_shaped.
Hypothesis positive : exp_positive.

Lemma raw_scores_snoc steps raws preds raw done' :
  raw_scores steps raws -> (0 < raw)%Q ->
  raw_scores (steps ++ [mkStep preds [raw] done']) (raws ++ [raw]).
Proof.
  intros [Hsteps Hpos] Hraw. split.
  - apply Forall2_app; [done|]. by repeat constructor.
  - apply Forall_app. split; [done|]. by repeat constructor.
Qed.

(** One iteration on a single running sample. *)
Lemma single_step st stop st' :
  state_ok 1 st -> single_running st ->
  decode_step batch_size 1 hidden st = Ok (stop, st') ->
  exists raws raw,
    raw_scores (history st) raws
    /\ raw_scores (history st') (raws ++ [raw])
    /\ length raws = length (history st)
    /\ all_done st' = [stop]
    /\ sequence_scores st'
       = Some [if token_count st =? 0 then [raw]
               else raws ++ [if stop then 0%Q else raw]]
    /\ (stop = false -> single_running st').
Proof.
  intros Hok [Hdone Hcases] Hstep.
  destruct (decode_step_ok _ _ _ shaped st stop st' Hok Hstep)
    as (_ & _ & _ & _ & preds & scores & Hlen_preds & Hlen_scores & Hdone'
        & Hhist & Hstop).
  destruct (decode_step_inv _ _ _ _ _ _ Hstep)
    as (preds' & scores' & done' & rows' & _ & Hmax & _ & Hrows & _
        & Hhist' & Hdone'' & Hscores & Hrest).
  rewrite Hhist' in Hhist. apply app_inj_tail in Hhist as [_ Heq].
  injection Heq as -> -> _. subst done'.
  apply (scores_positive positive) in Hmax.
  destruct preds as [|pred [|]]; try done.
  destruct scores as [|raw [|]]; try done.
  apply Forall_inv in Hmax.
  rewrite Hdone in Hdone'. simpl in Hdone'.
  assert (all_done st' = [stop]) as Hstop'.
  { rewrite Hdone' in Hstop |- *. simpl in Hstop.
    rewrite andb_true_r in Hstop. by rewrite Hstop. }
  destruct Hcases as [(Htok & Hempty & Hnone)|(Htok & raws & Hne & Hraws & Hprev)].
  - exists [], raw. rewrite Htok in Hrows |- *. simpl in Hrows |- *.
    rewrite Hhist', Hempty. subst rows'. simpl.
    assert (raw_scores [mkStep [pred] [raw] (all_done st')] [raw]) as Hone.
    { split; by repeat constructor. }
    split; [split; constructor|]. split; [done|]. split; [done|].
    split; [done|]. split; [done|].
    intros ->. destruct Hrest as (Htok' & Hinf & _).
    pose proof (ok_count _ _ Hok). split; [done|]. right.
    split; [lia|]. exists [raw]. rewrite Hhist', Hempty. simpl.
    split; [done|]. split; [exact Hone|done].
  - destruct (Z.eqb_spec (token_count st) 0) as [?|_]; [lia|].
    destruct Hrows as (previous & Hprevious & _ & ->).
    rewrite Hprev in Hprevious. injection Hprevious as <-.
    exists raws, raw. rewrite Hhist', Hstop'. simpl.
    split; [done|]. split; [by apply raw_scores_snoc|].
    split; [destruct Hraws as [Hraws _]; symmetry; by eapply Forall2_length|].
    split; [done|].
    split; [rewrite Hscores; simpl; rewrite ?Hstop'; by destruct stop|].
    intros ->. destruct Hrest as (Htok' & Hinf & _).
    pose proof (ok_count _ _ Hok). split; [done|]. right.
    split; [lia|]. exists (raws ++ [raw]). rewrite Hhist'.
    split; [by destruct raws|]. split; [by apply raw_scores_snoc|].
    rewrite Hscores. simpl. by rewrite ?Hstop'.
Qed.

Lemma rtc_continues_single st last :
  rtc (continues batch_size 1 hidden) st last ->
  state_ok 1 st -> single_running st -> single_running last.
Proof.
  induction 1 as [|st mid last Hcont _ IH]; [done|]. intros Hok Hst.
  apply IH; [by eapply continues_ok|].
  destruct Hcont as [_ Hstep].
  destruct (single_step st false mid Hok Hst Hstep) as (_ & _ & _ & _ & _ & _ & _ & Hmid).
  by apply Hmid.
Qed.

End SingleSample.

Lemma confidence_finite (row : list Q) :
  Scores.count_nonzero row <> 0%nat ->
  Scores.confidence row
  = Scores.Finite
      (Scores.sum row / inject_Z (Z.of_nat (Scores.count_nonzero row))).
Proof.
  unfold Scores.confidence. by destruct (Scores.count_nonzero row).
Qed.

Lemma counted_snoc (raws : list Q) (raw : Q) :
  raws <> [] -> Scores.counted (raws ++ [raw]) = raws.
Proof.
  intros Hne. unfold Scores.counted.
  destruct raws as [|a [|b raws]]; [done|done|].
  rewrite length_app. simpl length.
  replace (S (S (length raws)) + 1 - 1)%nat with (length (a :: b :: raws))
    by (simpl; lia).
  by rewrite take_app_length.
Qed.

(** C4 as stated makes the confidence of a sample done at step 2 the mean of
    its first two scores. The single sample that writes a letter (score 1/2)
    and then the end marker (score 2/3) gets the confidence 1/2. *)
Lemma confidence_excludes_terminal_score :
  @Recognition.decode_loop (Example.settings 6 false) Example.tokenizer
    Example.letter_model Example.numerics 1 1%nat (Example.context 1) 6%nat
    (Example.entry_state Example.letter_model 1 1)
  = Ok Example.after_eos
  /\ Recognition.all_done Example.after_eos = [true]
  /\ Recognition.step_scores <$> Recognition.history Example.after_eos
     = [[(2 # 4)%Q]; [(8 # 12)%Q]]
  /\ exists row c,
       Recognition.sequence_scores Example.after_eos = Some [row]
       /\ Scores.confidence row = Scores.Finite c
       /\ (c == 1 # 2)%Q
       /\ ~ (c == Scores.mean [(2 # 4)%Q; (8 # 12)%Q])%Q.
Proof.
  split; [lazy; reflexivity|]. split; [reflexivity|]. split; [reflexivity|].
  do 2 eexists. split; [reflexivity|]. split; [reflexivity|].
  split; [reflexivity|]. discriminate.
Qed.

(** C4 (amended). In a batch of one sample that becomes done at step [k], the
    confidence is the sum of its score row over the count of its nonzero
    entries, and this is the mean of its raw scores before the terminal step
    (steps [1 .. k-1]) when [k >= 2], the score of the terminal step being
    masked, and its single raw score when [k = 1]. *)
Theorem single_sample_confidence :
  forall `{Recognition.Settings, Recognition.Tokenizer, Recognition.Model,
           Recognition.Numerics}
         (batch_size : Z) (hidden : Torch.tensor Q)
         (input : Torch.tensor Z) (width : nat) (position_ids : list Z)
         (fuel : nat) (final : Recognition.DecoderState),
    Recognition.decoder_shaped ->
    Recognition.exp_positive ->
    Recognition.state_ok 1
      (Recognition.initial_state input width position_ids 1 batch_size) ->
    Recognition.decode_loop batch_size 1 hidden fuel
      (Recognition.initial_state input width position_ids 1 batch_size)
    = Ok final ->
    Recognition.all_done final = [true] ->
    exists raws row c,
      Recognition.raw_scores (Recognition.history final) raws
      /\ Recognition.sequence_scores final = Some [row]
      /\ Scores.confidence row = Scores.Finite c
      /\ c = (Scores.sum row / inject_Z (Z.of_nat (Scores.count_nonzero row)))%Q
      /\ (c == Scores.mean (Scores.counted raws))%Q.
Proof.
  intros ? ? ? ? batch_size hidden input width position_ids fuel final
    shaped positive Hok Hrun Hdone.
  set (st := Recognition.initial_state input width position_ids 1 batch_size)
    in *.
  assert (Recognition.single_running st) as Hsingle.
  { split; [done|]. by left. }
  destruct (decode_loop_Ok batch_size 1 hidden fuel st final Hrun)
    as (last & Hreach & Hend).
  pose proof (rtc_continues_single batch_size hidden shaped positive st last
                Hreach Hok Hsingle) as Hlast.
  pose proof (rtc_continues_ok _ _ _ shaped st last Hreach Hok) as Hok_last.
  destruct Hend as [[_ ->]|[_ Hbreak]].
  { destruct Hlast as [Hrunning _]. congruence. }
  destruct (single_step batch_size hidden shaped positive last true final
              Hok_last Hlast Hbreak)
    as (raws & raw & [Hraws Hpos] & Hfinal & Hlen & _ & Hrow & _).
  destruct Hlast as [_ [(Htok & Hempty & _)|(Htok & raws' & Hne & [Hraws' _] & _)]].
  - rewrite Htok in Hrow. simpl in Hrow. rewrite Hempty in Hlen.
    destruct raws; [|done]. simpl in Hfinal.
    pose proof Hfinal as [_ Hraw]. apply Forall_inv in Hraw.
    assert (Scores.count_nonzero [raw] = 1%nat) as Hcount.
    { by rewrite (count_nonzero_positive [raw]) by by constructor. }
    exists [raw], [raw]. eexists. split; [exact Hfinal|].
    split; [done|]. split; [apply confidence_finite; lia|]. split; [done|].
    rewrite Hcount. unfold Scores.mean. simpl. reflexivity.
  - destruct (Z.eqb_spec (Recognition.token_count last) 0) as [?|_]; [lia|].
    assert (raws <> []) as Hne'.
    { apply Forall2_length in Hraws'. destruct raws; [|done].
      simpl in Hlen. rewrite <- Hlen in Hraws'. by destruct raws'. }
    assert (Scores.count_nonzero (raws ++ [0%Q]) = length raws) as Hcount.
    { rewrite count_nonzero_app, (count_nonzero_positive raws Hpos).
      change [0%Q] with (replicate 1 0%Q). rewrite count_nonzero_zeros. lia. }
    exists (raws ++ [raw]), (raws ++ [0%Q]). eexists. split; [done|].
    split; [done|]. split; [apply confidence_finite|].
    { rewrite Hcount. by destruct raws. }
    split; [done|]. rewrite Hcount, counted_snoc by done.
    unfold Scores.mean. rewrite sum_app. simpl. 
    apply Qdiv_comp; [ring|reflexivity].
Qed.

Lemma single_sample_confidence_witness :
  exists raws row c,
    Recognition.raw_scores (Recognition.history Example.after_eos) raws
    /\ Recognition.sequence_scores Example.after_eos = Some [row]
    /\ Scores.confidence row = Scores.Finite c
    /\ c = (Scores.sum row / inject_Z (Z.of_nat (Scores.count_nonzero row)))%Q
    /\ (c == Scores.mean (Scores.counted raws))%Q.
Proof.
  apply (@single_sample_confidence (Example.settings 6 false)
           Example.tokenizer Example.letter_model Example.numerics
           1 (Example.context 1) (Torch.stack_rows (replicate 1 [3]) 1) 1%nat
           (Recognition.positions 1 0) 6%nat Example.after_eos).
  - apply scripted_shaped. by intros [|c] j.
  - exact exp2_positive.
  - apply (entry_state_ok Example.letter_model 1 1). lia.
  - lazy. reflexivity.
  - reflexivity.
Defined.

(** ** Two defects, run on concrete inputs *)

(** C5. A batch of two samples: sample 0 predicts the end marker at the
    prefill step, with score 2/3, while sample 1 writes two letters before
    it ends. The predicted sequence of sample 0 is empty, but its score row
    also receives its later raw scores, once for each sample still running,
    and its confidence is 11/15 instead of 2/3. *)
Theorem prefill_done_confidence_diluted :
  exists final first row c,
    @Recognition.decode_loop (Example.settings 6 false) Example.tokenizer
      (Example.scripted Example.script_early_and_late) Example.numerics
      2 2%nat (Example.context 2) 6%nat
      (Example.entry_state (Example.scripted Example.script_early_and_late) 2 2)
    = Ok final
    /\ Recognition.history final !! 0%nat = Some first
    /\ Recognition.step_preds first !! 0%nat
       = Some (@Recognition.eos_id Example.tokenizer)
    /\ Recognition.step_scores first !! 0%nat = Some (8 # 12)%Q
    /\ Recognition.batch_predictions final !! 0%nat = Some []
    /\ Recognition.sequence_scores final ≫= (.!! 0%nat) = Some row
    /\ row = [(8 # 12); 0; (16 # 20); 0; 0]%Q
    /\ Scores.confidence row = Scores.Finite c
    /\ (c == 11 # 15)%Q
    /\ ~ (c == 8 # 12)%Q
    /\ Example.recognize Example.script_early_and_late
         [(10, "narrow"); (30, "wide")]%string [None; None] 2
       = Ok ([""; "aa"]%string, [Scores.Finite c; Scores.Finite (16 # 32)]).
Proof.
  do 4 eexists. split; [lazy; reflexivity|].
  split; [reflexivity|]. split; [reflexivity|]. split; [reflexivity|].
  split; [reflexivity|]. split; [reflexivity|]. split; [reflexivity|].
  split; [reflexivity|]. split; [reflexivity|]. split; [discriminate|].
  vm_compute. reflexivity.
Qed.

(** C1. Two images, the wider one first, each with its own language tags.
    The width sort puts the image of index 1 in slot 0 of the batch, but the
    language tags of the batch are cut from the caller's list by position:
    slot 0 gets the tags given for index 0. The math post-processing asked
    for the narrow image is applied to the wide one. *)
Theorem languages_follow_sorted_position :
  let images := [(50, "wide"); (10, "narrow")]%string in
  let languages := [Some ["en"]; Some ["_math"]]%string in
  fst <$> @Recognition.sorted_pairs Example.pillow images = [1; 0]%nat
  /\ @Recognition.batch_inputs Example.pillow
       (snd <$> @Recognition.sorted_pairs Example.pillow images) languages 2 0
     = ([(10, "narrow"); (50, "wide")]%string,
        [Some ["en"]; Some ["_math"]]%string)
  /\ fst <$> Example.recognize Example.script_two_letters images languages 2
     = Ok ["$$aa$$"; "aa"]%string.
Proof. repeat split; vm_compute; reflexivity. Qed.

(** ** Sorting and the restoration of caller order *)

Section Sorting.
Context {A : Type} (key : A -> Z).

Lemma insert_by_Permutation (x : A) (l : list A) :
  Py.insert_by key x l ≡ₚ x :: l.
Proof.
  induction l as [|y l IH]; simpl; [done|].
  destruct (key y <? key x); [|done]. rewrite IH. apply Permutation_swap.
Qed.

Lemma sorted_Permutation (l : list A) : Py.sorted key l ≡ₚ l.
Proof.
  induction l as [|x l IH]; simpl; [done|].
  fold (Py.sorted key l). by rewrite insert_by_Permutation, IH.
Qed.

Lemma insert_by_sorted (x : A) (l : list A) :
  StronglySorted (Py.key_le key) l ->
  StronglySorted (Py.key_le key) (Py.insert_by key x l).
Proof.
  induction 1 as [|y l Hl IH Hy]; simpl; [by repeat constructor|].
  destruct (Z.ltb_spec (key y) (key x)) as [Hlt|Hge].
  - constructor; [done|]. rewrite insert_by_Permutation.
    constructor; [unfold Py.key_le; lia|done].
  - constructor; [by constructor|]. constructor; [done|].
    eapply Forall_impl; [exact Hy|]. unfold Py.key_le. intros z Hz. lia.
Qed.

Lemma sorted_sorted (l : list A) :
  StronglySorted (Py.key_le key) (Py.sorted key l).
Proof.
  induction l as [|x l IH]; simpl; [constructor|]. by apply insert_by_sorted.
Qed.

End Sorting.

Lemma enumerate_fst {A} (l : list A) :
  fst <$> Py.enumerate l = seq 0 (length l).
Proof.
  unfold Py.enumerate. rewrite fmap_imap.
  rewrite (imap_ext _ (fun i _ => i)) by done.
  by rewrite imap_seq_0, list_fmap_id.
Qed.

Lemma enumerate_lookup {A} (l : list A) (i : nat) (x : A) :
  (i, x) ∈ Py.enumerate l <-> l !! i = Some x.
Proof.
  unfold Py.enumerate. rewrite list_elem_of_lookup. split.
  - intros [j Hj]. rewrite list_lookup_imap in Hj.
    destruct (l !! j) eqn:E; simpl in Hj; [|done]. by injection Hj as -> ->.
  - intros Hi. exists i. by rewrite list_lookup_imap, Hi.
Qed.

Lemma strongly_sorted_seq (n : nat) : StronglySorted le (seq 0 n).
Proof.
  generalize 0%nat. induction n as [|n IH]; intros j; simpl; constructor; [done|].
  apply Forall_forall. intros k [? ?]%elem_of_seq. lia.
Qed.

(** Sorting the pairs of a permutation of [0 .. n-1] by index puts the
    output of position [p] at the index found at position [p]. *)
Lemma restore_order_spec {A} (indices : list nat) (outputs : list A) :
  indices ≡ₚ seq 0 (length indices) ->
  length outputs = length indices ->
  length (Recognition.restore_order indices outputs) = length indices
  /\ forall p i, indices !! p = Some i ->
       Recognition.restore_order indices outputs !! i = outputs !! p.
Proof.
  intros Hperm Hlen. unfold Recognition.restore_order.
  set (pairs := zip indices outputs).
  set (sorted := Py.sorted (fun x : nat * A => Z.of_nat x.1) pairs).
  assert (sorted ≡ₚ pairs) as Hsorted by apply sorted_Permutation.
  assert (fst <$> sorted = seq 0 (length indices)) as Hfst.
  { apply (StronglySorted_unique le).
    - eapply StronglySorted_fmap; [|apply sorted_sorted].
      intros x y. unfold Py.key_le. lia.
    - apply strongly_sorted_seq.
    - rewrite Hsorted. unfold pairs. rewrite fst_zip by lia. done. }
  split.
  { rewrite length_fmap, <- (length_fmap fst), Hfst. apply length_seq. }
  intros p i Hp.
  assert (i < length indices)%nat as Hi.
  { apply list_elem_of_lookup_2 in Hp. rewrite Hperm in Hp.
    apply elem_of_seq in Hp. lia. }
  assert (exists x, sorted !! i = Some (i, x)) as [x Hx].
  { assert ((fst <$> sorted) !! i = Some i) as Hlook.
    { rewrite Hfst. apply lookup_seq. lia. }
    rewrite list_lookup_fmap in Hlook.
    destruct (sorted !! i) as [[j x]|]; [|done].
    injection Hlook as ->. eauto. }
  rewrite list_lookup_fmap, Hx. simpl.
  apply list_elem_of_lookup_2 in Hx. rewrite Hsorted in Hx.
  apply list_elem_of_lookup_1 in Hx as [q Hq]. unfold pairs in Hq.
  apply lookup_zip_with_Some in Hq as (i' & x' & Heq & Hq1 & Hq2).
  injection Heq as <- <-.
  assert (NoDup indices) as Hnodup by (rewrite Hperm; apply NoDup_seq).
  assert (q = p) as -> by (by eapply NoDup_lookup).
  done.
Qed.

(** ** One batch returns one text and one confidence per image *)

Section BatchFacts.
Import Torch Recognition.
Context `{Settings, Tokenizer, Pillow, !Processor, Model, Postprocessing,
          Numerics}.

Lemma py_max_ge (x : Z) (l : list Z) : x <= foldl Z.max x l.
Proof.
  revert x. induction l as [|y l IH]; intros x; simpl; [lia|].
  specialize (IH (Z.max x y)). lia.
Qed.

(** With the loop condition true at entry, the loop ends with a score row
    and a token list for every sample. *)
Lemma decode_loop_scored (batch_size : Z) (n : nat) (hidden : tensor Q)
    (fuel : nat) (st : DecoderState) :
  decoder_shaped -> state_ok n st -> token_count st = 0 ->
  2 <= RECOGNITION_MAX_TOKENS ->
  (Z.to_nat RECOGNITION_MAX_TOKENS <= fuel)%nat ->
  exists final rows,
    decode_loop batch_size n hidden fuel st = Ok final
    /\ sequence_scores final = Some rows
    /\ length rows = n
    /\ length (batch_predictions final) = n.
Proof.
  intros shaped Hok Htok Hmax Hfuel.
  destruct (decode_loop_total batch_size n hidden shaped fuel st Hok)
    as [final Hrun].
  { unfold budget. lia. }
  destruct (decode_loop_Ok batch_size n hidden fuel st final Hrun)
    as (last & Hreach & Hend).
  pose proof (rtc_continues_ok _ _ _ shaped st last Hreach Hok) as Hok_last.
  destruct Hend as [[Hguard ->]|[_ Hbreak]].
  - destruct (ok_scores _ _ Hok_last) as [Hzero|(rows & Hrows & Hlen)].
    { unfold guard in Hguard. rewrite Hzero in Hguard.
      apply Z.ltb_ge in Hguard. lia. }
    exists last, rows. split; [done|]. split; [done|]. split; [done|].
    apply (ok_predictions _ _ Hok_last).
  - destruct (decode_step_ok _ _ _ shaped last true final Hok_last Hbreak)
      as (_ & (rows & Hrows & Hlen) & Hpred & _).
    exists final, rows. done.
Qed.

Lemma np_stack_same {A} (arrays : list (tensor A)) (s : list nat) :
  arrays <> [] -> Forall (fun a => shape a = s) arrays ->
  exists t, np_stack arrays = Ok t /\ shape t = length arrays :: s.
Proof.
  intros Hne Hs. unfold np_stack. destruct arrays as [|a arrays]; [done|].
  pose proof (Forall_inv Hs) as Ha.
  rewrite decide_True.
  - eexists; split; [done|]. simpl. by rewrite Ha.
  - eapply Forall_impl; [exact Hs|]. intros b Hb. simpl in Hb. congruence.
Qed.

Lemma encode_chunks_total (starts : list Z) (e : Z) (pixels : tensor Q)
    (acc : option (tensor Q)) (d : nat) (s hs : list nat) :
  shape pixels = d :: s ->
  (forall t k, shape t = k :: s -> shape (encoder t) = k :: hs) ->
  (forall a, acc = Some a -> exists k, shape a = k :: hs) ->
  exists r,
    encode_chunks starts e pixels acc = Ok r
    /\ (forall a, r = Some a -> exists k, shape a = k :: hs)
    /\ (starts <> [] -> r <> None).
Proof.
  intros Hshape Hencoder. revert acc.
  induction starts as [|z starts IH]; intros acc Hacc; simpl.
  { exists acc. done. }
  unfold shape0, rows_between. rewrite Hshape. simpl.
  set (chunk := Tensor _ _).
  assert (exists k, shape (encoder chunk) = k :: hs) as [k Hk].
  { eexists. apply Hencoder. done. }
  assert (exists joined,
    match acc with
    | Some previous => cat_dim0 previous (encoder chunk)
    | None => Ok (encoder chunk)
    end = Ok joined /\ exists k', shape joined = k' :: hs)
    as (joined & -> & Hjoined).
  { destruct acc as [a|]; [|eauto].
    destruct (Hacc a eq_refl) as [ka Hka].
    unfold cat_dim0. rewrite Hka, Hk. rewrite decide_True by done.
    eexists; split; [done|]. simpl. eauto. }
  simpl. destruct (IH (Some joined)) as (r & Hr & Hshape_r & Hsome).
  { intros a [= <-]. done. }
  exists r. split; [done|]. split; [done|]. intros _.
  destruct starts; [|by apply Hsome].
  simpl in Hr. injection Hr as <-. done.
Qed.

Lemma range_total (stop step : Z) :
  1 <= step -> 1 <= stop ->
  exists starts, Py.range stop step = Ok starts /\ starts <> [].
Proof.
  intros Hstep Hstop. unfold Py.range.
  destruct (Z.eqb_spec step 0) as [?|_]; [lia|].
  destruct (Z.ltb_spec 0 step) as [_|?]; [|lia].
  eexists; split; [done|].
  assert (1 <= (stop + step - 1) / step) by (apply Z.div_le_lower_bound; lia).
  destruct (Z.to_nat ((stop + step - 1) / step)) eqn:E; [lia|]. done.
Qed.

End BatchFacts.

Section BatchTotal.
Import Torch Recognition.
Context `{Settings, Tokenizer, Pillow, !Processor, Model, Postprocessing,
          Numerics}.
Hypothesis collaborators : collaborators_ok.

Lemma pad_decoder_input_length (rows : list (list Z)) (m : Z) :
  length (pad_decoder_input rows m) = length rows.
Proof. unfold pad_decoder_input. apply length_fmap. Qed.

Lemma optional_pad_shape {A} (zero : A) (flag : bool) (t : tensor A) d s
    (batch_size : Z) :
  shape t = d :: s ->
  exists t',
    (if flag then pad_to_batch_size zero t batch_size else Ok t) = Ok t'
    /\ exists d', shape t' = d' :: s /\ (d <= d')%nat.
Proof.
  intros Hshape. destruct flag; [by eapply pad_to_batch_size_shape|].
  exists t. split; [done|]. exists d. done.
Qed.

(** Under the expectations on the collaborators, a batch that is not empty
    returns as many texts and confidences as it has images. *)
Lemma recognize_batch_total (batch_size : Z) (batch_images : list Image)
    (batch_langs : list Langs) :
  1 <= batch_size -> batch_images <> [] ->
  length batch_langs = length batch_images ->
  exists texts confidences,
    recognize_batch batch_size batch_images batch_langs
    = Ok (texts, confidences)
    /\ length texts = length batch_images
    /\ length confidences = length batch_images.
Proof.
  intros Hbatch Hne Hlangs.
  destruct collaborators
    as ([Hmax Hdiv] & Hprocessor & Hencoder & Htext & Hdecoder).
  unfold recognize_batch.
  pose proof (Hprocessor (replicate (length batch_images) ""%string)
                batch_images batch_langs Hlangs) as Hout.
  destruct (process _ batch_images batch_langs) as [pixels langs].
  simpl in Hout. destruct Hout as (Hlen_pixels & Hlen_langs & s & Hs).
  set (n := length batch_images) in *.
  assert (1 <= n)%nat as Hn by (unfold n; destruct batch_images; simpl; [done|lia]).
  (* the longest decoder input *)
  set (inputs := (fun lang => decoder_start_token_id :: lang) <$> langs).
  assert (exists m, Py.max ((fun tokens : list Z => Z.of_nat (length tokens))
                              <$> inputs) = Ok m /\ 1 <= m) as (m & -> & Hm).
  { unfold inputs. destruct langs as [|lang langs]; [simpl in Hlen_langs; lia|].
    simpl. eexists; split; [done|].
    etrans; [|apply py_max_ge]. lia. }
  simpl.
  destruct (np_stack_same pixels s) as (pixel_values & -> & Hpixel_shape); [|done|].
  { destruct pixels; [simpl in Hlen_pixels; lia|done]. }
  simpl.
  unfold row0_width, shape0, shape_last. simpl.
  assert (length inputs = n) as Hlen_inputs
    by (unfold inputs; by rewrite length_fmap).
  rewrite pad_decoder_input_length, Hlen_inputs.
  rewrite decide_False by lia. simpl.
  unfold floor_div.
  destruct (Z.eqb_spec RECOGNITION_ENCODER_BATCH_DIVISOR 0) as [?|_]; [lia|].
  simpl. rewrite Hpixel_shape. simpl.
  assert (0 <= batch_size / RECOGNITION_ENCODER_BATCH_DIVISOR)
    by (apply Z.div_pos; lia).
  destruct (range_total (Z.of_nat (length pixels))
              (batch_size / RECOGNITION_ENCODER_BATCH_DIVISOR + 1))
    as (starts & -> & Hstarts); [lia|lia|].
  simpl.
  destruct (Hencoder s) as [hs Hhs].
  destruct (encode_chunks_total starts
              (batch_size / RECOGNITION_ENCODER_BATCH_DIVISOR + 1)
              pixel_values None (length pixels) s hs Hpixel_shape)
    as (r & -> & Hshape_r & Hsome); [by intros; apply Hhs|done|].
  simpl. destruct r as [states|]; [|by destruct Hsome].
  destruct (Hshape_r states eq_refl) as [k Hk]. simpl.
  rewrite Hk. simpl.
  destruct (Htext (arange_expand query_token_count k) states k hs Hk)
    as [s' Hcontext].
  destruct (optional_pad_shape 0%Q RECOGNITION_STATIC_CACHE _ k s' batch_size
              Hcontext) as (context & -> & _).
  simpl.
  destruct (optional_pad_shape 0 RECOGNITION_STATIC_CACHE
              (stack_rows (pad_decoder_input inputs m) (Z.to_nat m))
              (length (pad_decoder_input inputs m)) [Z.to_nat m] batch_size eq_refl)
    as (input & -> & d' & Hinput & Hd').
  simpl.
  rewrite pad_decoder_input_length, Hlen_inputs in Hd'.
  destruct (decode_loop_scored batch_size (length pixels) context
              (Z.to_nat RECOGNITION_MAX_TOKENS)
              (initial_state input (Z.to_nat m) (positions (Z.to_nat m) 0)
                 (length pixels) batch_size))
    as (final & rows & -> & Hscores & Hrows & Hpredictions); try done.
  { split; simpl; try done.
    - lia.
    - exists d', [Z.to_nat m]. split; [done|]. lia.
    - apply length_replicate.
    - apply length_replicate.
    - by left.
    - lia.
    - unfold positions. destruct (Z.to_nat m) eqn:E; [lia|]. done. }
  simpl. rewrite Hscores. simpl. do 2 eexists. split; [done|]. split.
  - rewrite length_zip_with, !length_fmap. unfold batch_decode.
    rewrite length_fmap. lia.
  - rewrite length_fmap. lia.
Qed.

End BatchTotal.

(** ** The batches cover the sorted list *)

Lemma slice_chunk {A} (l : list A) (k : nat) (b : Z) :
  1 <= b ->
  Py.slice l (Z.of_nat k * b) (Z.of_nat k * b + b)
  = take (Z.to_nat b) (drop (k * Z.to_nat b) l).
Proof.
  intros Hb. unfold Py.slice, Py.clamp_index.
  assert (Z.to_nat (Z.of_nat k * b) = (k * Z.to_nat b)%nat) as Hi by lia.
  assert (0 <= Z.of_nat k * b) as Hpos by lia.
  revert Hi Hpos. generalize (Z.of_nat k * b). intros i Hi Hpos.
  destruct (Z.ltb_spec (i + b) 0) as [?|_]; [lia|].
  destruct (Z.ltb_spec i 0) as [?|_]; [lia|].
  rewrite <- Hi.
  destruct (Z.le_gt_cases (Z.of_nat (length l)) i) as [Hout|Hin].
  - rewrite !drop_ge by lia. by rewrite !take_nil.
  - rewrite (Z.min_l i) by lia.
    destruct (Z.le_gt_cases (i + b) (Z.of_nat (length l))) as [Hfit|Hcut].
    + rewrite Z.min_l by lia. f_equal. lia.
    + rewrite Z.min_r by lia.
      rewrite !take_ge; [done| |]; rewrite length_drop; lia.
Qed.

Lemma concat_chunks_cover {A} (l : list A) (b count : nat) :
  (length l <= count * b)%nat ->
  concat ((fun k => take b (drop (k * b) l)) <$> seq 0 count) = l.
Proof.
  revert l. induction count as [|count IH]; intros l Hlen.
  - simpl in *. by destruct l; [|simpl in Hlen; lia].
  - change (seq 0 (S count)) with (0%nat :: seq 1 count).
    rewrite <- fmap_S_seq, fmap_cons, <- list_fmap_compose. simpl.
    transitivity (take b l ++ drop b l); [|apply take_drop]. f_equal.
    etrans; [|apply (IH (drop b l)); rewrite length_drop; lia].
    f_equal. apply list_fmap_ext. intros _ k _. simpl.
    by rewrite drop_drop.
Qed.

Lemma range_starts (stop step : Z) :
  1 <= step -> 0 <= stop ->
  exists count,
    Py.range stop step = Ok ((fun k => Z.of_nat k * step) <$> seq 0 count)
    /\ stop <= Z.of_nat count * step
    /\ forall k, (k < count)%nat -> Z.of_nat k * step < stop.
Proof.
  intros Hstep Hstop. unfold Py.range.
  destruct (Z.eqb_spec step 0) as [?|_]; [lia|].
  destruct (Z.ltb_spec 0 step) as [_|?]; [|lia].
  set (q := (stop + step - 1) / step).
  assert (0 <= q) by (apply Z.div_pos; lia).
  pose proof (Z.div_mod (stop + step - 1) step ltac:(lia)) as Hdm.
  pose proof (Z.mod_pos_bound (stop + step - 1) step ltac:(lia)) as Hmod.
  fold q in Hdm.
  exists (Z.to_nat q). split; [done|]. split; [nia|].
  intros k Hk. nia.
Qed.

(** ** The whole of [batch_recognition] *)

Section WholeFacts.
Import Torch Recognition.
Context `{Settings, Tokenizer, Pillow, !Processor, Model, Postprocessing,
          Numerics}.
Hypothesis collaborators : collaborators_ok.

Lemma sorted_pairs_indices (images : list Image) :
  fst <$> sorted_pairs images ≡ₚ seq 0 (length images).
Proof.
  unfold sorted_pairs. rewrite sorted_Permutation. by rewrite enumerate_fst.
Qed.

Lemma sorted_pairs_lookup (images : list Image) p i image :
  sorted_pairs images !! p = Some (i, image) -> images !! i = Some image.
Proof.
  intros Hp%list_elem_of_lookup_2. unfold sorted_pairs in Hp.
  rewrite sorted_Permutation in Hp. by apply enumerate_lookup.
Qed.

Lemma sorted_pairs_length (images : list Image) :
  length (sorted_pairs images) = length images.
Proof.
  rewrite <- (length_fmap fst), sorted_pairs_indices. apply length_seq.
Qed.

Lemma concat_length_Forall2 {A B} (ls : list (list A)) (ks : list (list B)) :
  Forall2 (fun l k => length l = length k) ls ks ->
  length (concat ls) = length (concat ks).
Proof.
  induction 1 as [|l k ls ks Hlk _ IH]; simpl; [done|].
  rewrite !length_app. lia.
Qed.

(** The [for] loop returns what its batches returned, one after the other. *)
Lemma run_batches_total (batch_size : Z) (images : list Image)
    (languages : list Langs) (starts : list Z) output_text confidences :
  1 <= batch_size ->
  Forall (fun i =>
            let inputs := batch_inputs images languages batch_size i in
            inputs.1 <> [] /\ length inputs.2 = length inputs.1) starts ->
  exists results,
    Forall2 (batch_result images languages batch_size) starts results
    /\ Forall2 (fun i r =>
                  let inputs := batch_inputs images languages batch_size i in
                  length r.1 = length inputs.1 /\ length r.2 = length inputs.1)
               starts results
    /\ run_batches starts images languages batch_size output_text confidences
       = Ok (output_text ++ concat (fst <$> results),
             confidences ++ concat (snd <$> results)).
Proof.
  intros Hb Hstarts. revert output_text confidences.
  induction Hstarts as [|i starts [Hne Hlen] _ IH]; intros output_text confidences.
  - exists []. simpl. by rewrite !app_nil_r.
  - destruct (recognize_batch_total collaborators batch_size
                (convert <$> (batch_inputs images languages batch_size i).1)
                (batch_inputs images languages batch_size i).2)
      as (texts & confs & Hbatch & Htexts & Hconfs).
    + done.
    + destruct (batch_inputs images languages batch_size i).1; done.
    + by rewrite length_fmap.
    + rewrite length_fmap in Htexts, Hconfs.
      destruct (IH (output_text ++ texts) (confidences ++ confs))
        as (results & Hresults & Hlengths & Hrun).
      exists ((texts, confs) :: results).
      split; [by constructor|]. split; [by constructor|].
      simpl. unfold batch_inputs in Hbatch |- *. simpl in Hbatch |- *.
      rewrite Hbatch. simpl. rewrite Hrun. by rewrite <- !app_assoc.
Qed.

End WholeFacts.

Section Whole.
Import Torch Recognition.
Context `{Settings, Tokenizer, Pillow, !Processor, Model, Postprocessing,
          Numerics}.
Hypothesis collaborators : collaborators_ok.

(** Every batch start of the [for] loop cuts a batch that is not empty, with
    as many language entries as images. *)
Lemma starts_cut_batches (images : list Image) (languages : list Langs)
    (b : Z) (count : nat) :
  1 <= b -> length languages = length images ->
  (forall k, (k < count)%nat -> Z.of_nat k * b < Z.of_nat (length images)) ->
  Forall (fun i =>
            let inputs := batch_inputs images languages b i in
            inputs.1 <> [] /\ length inputs.2 = length inputs.1)
         ((fun k => Z.of_nat k * b) <$> seq 0 count).
Proof.
  intros Hb Hlen Hin. apply Forall_fmap, Forall_forall.
  intros k [_ Hk]%elem_of_seq. specialize (Hin k ltac:(lia)).
  assert (k * Z.to_nat b < length images)%nat as Hlt.
  { apply Nat2Z.inj_lt. rewrite Nat2Z.inj_mul, Z2Nat.id; lia. }
  assert (1 <= Z.to_nat b)%nat as Hb' by lia.
  simpl. rewrite !slice_chunk by done.
  revert Hlt Hb'. generalize (Z.to_nat b). intros size Hlt Hb'.
  revert Hlt. generalize (k * size)%nat. intros offset Hlt. split.
  - intros Hnil%(f_equal length). rewrite length_take, length_drop in Hnil.
    simpl in Hnil.
    destruct (Nat.min_dec size (length images - offset)) as [E|E];
      rewrite E in Hnil; lia.
  - rewrite !length_take, !length_drop. by rewrite Hlen.
Qed.

Lemma results_cover (images : list Image) (languages : list Langs)
    (b : Z) (count : nat) (results : list (list string * list Scores.score)) :
  1 <= b -> Z.of_nat (length images) <= Z.of_nat count * b ->
  Forall2 (fun i r =>
             let inputs := batch_inputs images languages b i in
             length r.1 = length inputs.1 /\ length r.2 = length inputs.1)
          ((fun k => Z.of_nat k * b) <$> seq 0 count) results ->
  length (concat (fst <$> results)) = length images
  /\ length (concat (snd <$> results)) = length images.
Proof.
  intros Hb Hcover Hresults.
  assert (length (concat ((fun k => take (Z.to_nat b)
                                      (drop (k * Z.to_nat b) images))
                            <$> seq 0 count)) = length images) as Hall.
  { rewrite concat_chunks_cover; [done|].
    apply Nat2Z.inj_le. rewrite Nat2Z.inj_mul, Z2Nat.id; lia. }
  rewrite <- Hall at 1 2. clear Hall Hcover.
  revert results Hresults. generalize (seq 0 count). intros ks.
  induction ks as [|k ks IH]; intros results Hresults.
  - apply Forall2_nil_inv_l in Hresults as ->. done.
  - rewrite fmap_cons in Hresults.
    apply Forall2_cons_inv_l in Hresults as (r & results' & [Hr1 Hr2] & Hrest & ->).
    simpl in Hr1, Hr2. rewrite slice_chunk in Hr1, Hr2 by done.
    destruct (IH results' Hrest) as [IH1 IH2].
    csimpl. rewrite !length_app. split; congruence.
Qed.

Lemma resolve_batch_size (memory : Memory.Probe) (batch_size : option Z) :
  match batch_size with
  | Some b => 1 <= b
  | None => exists b, Memory.get_batch_size TORCH_DEVICE_MODEL memory = Ok b
  end ->
  exists b,
    match batch_size with
    | None => Memory.get_batch_size TORCH_DEVICE_MODEL memory
    | Some b => Ok b
    end = Ok b
    /\ 1 <= b.
Proof.
  destruct batch_size as [b|]; [eauto|].
  intros (b & Hb). exists b. split; [done|]. revert Hb.
  unfold Memory.get_batch_size.
  destruct (Memory.get_available_memory_gb _ _)
    as [[sys_memory gpu_memory]| |]; [|done|done].
  intros Hb%batch_for_range. lia.
Qed.

End Whole.

(** C2. With collaborators that keep their shapes, equally many images and
    language entries and a batch size of at least 1 (or, when none is given,
    one that [get_batch_size] returns), [batch_recognition] returns one text
    and one confidence
    per image, and the outputs at index [i] are those the batch loop produced
    in the slot that held image [i], whatever the width sort and the cut
    into batches did to the order. *)
Theorem batch_recognition_restores_order :
  forall `{Recognition.Settings, Recognition.Tokenizer, Recognition.Pillow,
           !Recognition.Processor, Recognition.Model,
           Recognition.Postprocessing, Recognition.Numerics}
         (memory : Memory.Probe) (images : list Recognition.Image)
         (languages : list Recognition.Langs) (batch_size : option Z),
    Recognition.collaborators_ok ->
    length images = length languages ->
    match batch_size with
    | Some b => 1 <= b
    | None =>
        exists b,
          Memory.get_batch_size Recognition.TORCH_DEVICE_MODEL memory = Ok b
    end ->
    exists texts confidences b starts results,
      Recognition.batch_recognition memory images languages batch_size
      = Ok (texts, confidences)
      /\ length texts = length images
      /\ length confidences = length images
      /\ 1 <= b
      /\ Py.range (Z.of_nat (length images)) b = Ok starts
      /\ Forall2 (Recognition.batch_result
                    (snd <$> Recognition.sorted_pairs images) languages b)
                 starts results
      /\ forall p i image,
           Recognition.sorted_pairs images !! p = Some (i, image) ->
           images !! i = Some image
           /\ texts !! i = concat (fst <$> results) !! p
           /\ confidences !! i = concat (snd <$> results) !! p.
Proof.
  intros ? ? ? ? ? ? ? memory images languages batch_size collaborators
    Hlen Hsize.
  destruct (resolve_batch_size memory batch_size Hsize) as (b & Hresolve & Hb).
  set (pairs := Recognition.sorted_pairs images).
  set (sorted := snd <$> pairs).
  set (indices := fst <$> pairs).
  assert (length sorted = length images) as Hsorted
    by (unfold sorted, pairs; by rewrite length_fmap, sorted_pairs_length).
  assert (length indices = length images) as Hindices
    by (unfold indices, pairs; by rewrite length_fmap, sorted_pairs_length).
  destruct (range_starts (Z.of_nat (length images)) b Hb ltac:(lia))
    as (count & Hrange & Hcover & Hin).
  destruct (run_batches_total collaborators b sorted languages
              ((fun k => Z.of_nat k * b) <$> seq 0 count) [] [] Hb)
    as (results & Hresults & Hlengths & Hrun).
  { apply starts_cut_batches; [done|congruence|].
    intros k Hk. rewrite Hsorted. by apply Hin. }
  destruct (results_cover sorted languages b count results Hb) as [Htexts Hconfs].
  { by rewrite Hsorted. }
  { done. }
  rewrite Hsorted in Htexts, Hconfs.
  assert (indices ≡ₚ seq 0 (length indices)) as Hperm.
  { rewrite Hindices. apply sorted_pairs_indices. }
  destruct (restore_order_spec indices (concat (fst <$> results)) Hperm)
    as [Hlen_texts Horder_texts]; [congruence|].
  destruct (restore_order_spec indices (concat (snd <$> results)) Hperm)
    as [Hlen_confs Horder_confs]; [congruence|].
  destruct (decide (images = [])) as [Hempty|Hne].
  - (* no image: nothing is run *)
    exists [], [], b, [], [].
    assert (count = 0%nat) as ->.
    { destruct count; [done|]. specialize (Hin 0%nat ltac:(lia)).
      rewrite Hempty in Hin. simpl in Hin. lia. }
    split.
    { unfold Recognition.batch_recognition. rewrite <- Hlen, Nat.eqb_refl.
      by rewrite Hempty. }
    split; [by rewrite Hempty|]. split; [by rewrite Hempty|]. split; [done|].
    split; [exact Hrange|]. split; [constructor|].
    intros p i image Hp. unfold pairs in *. rewrite Hempty in Hp. by destruct p.
  - exists (Recognition.restore_order indices (concat (fst <$> results))),
           (Recognition.restore_order indices (concat (snd <$> results))),
           b, ((fun k => Z.of_nat k * b) <$> seq 0 count), results.
    split.
    { unfold Recognition.batch_recognition.
      rewrite Hlen, Nat.eqb_refl. simpl.
      destruct (Nat.eqb_spec (length languages) 0) as [Hzero|_].
      { rewrite <- Hlen in Hzero. by apply nil_length_inv in Hzero. }
      rewrite Hresolve. simpl.
      fold pairs. fold sorted. fold indices.
      rewrite Hsorted, Hrange. simpl. rewrite Hrun. done. }
    split; [congruence|]. split; [congruence|]. split; [done|].
    split; [done|]. split; [done|].
    intros p i image Hp.
    assert (indices !! p = Some i) as Hindex.
    { unfold indices. rewrite list_lookup_fmap. fold pairs in Hp. by rewrite Hp. }
    split; [by eapply sorted_pairs_lookup|]. split; eauto.
Qed.

Lemma example_collaborators (max_tokens : Z) (static_cache : bool)
    (script : nat -> nat -> list Q) :
  2 <= max_tokens -> (forall c j, script c j <> []) ->
  @Recognition.collaborators_ok (Example.settings max_tokens static_cache)
    Example.pillow Example.processor (Example.scripted script).
Proof.
  intros Hmax Hscript. split; [|split; [|split; [|split]]].
  - split; simpl; lia.
  - intros texts images langs Hlen. simpl. rewrite !length_fmap.
    split; [done|]. split; [done|]. exists [1%nat].
    apply Forall_fmap, Forall_true. done.
  - intros s. exists s. done.
  - intros ids h d s Hshape. exists s. done.
  - by apply scripted_shaped.
Qed.

Lemma batch_recognition_restores_order_witness :
  exists texts confidences b starts results,
    Example.recognize Example.script_two_letters
      [(50, "wide"); (10, "narrow"); (30, "middle")]%string
      [None; Some ["en"]; None]%string 2
    = Ok (texts, confidences)
    /\ length texts = 3%nat
    /\ length confidences = 3%nat
    /\ 1 <= b
    /\ Py.range 3 b = Ok starts
    /\ Forall2 (@Recognition.batch_result (Example.settings 6 false)
                  Example.tokenizer Example.pillow Example.processor
                  (Example.scripted Example.script_two_letters)
                  Example.postprocessing Example.numerics
                  (snd <$> @Recognition.sorted_pairs Example.pillow
                             [(50, "wide"); (10, "narrow"); (30, "middle")]%string)
                  [None; Some ["en"]; None]%string b)
               starts results
    /\ forall p i image,
         @Recognition.sorted_pairs Example.pillow
           [(50, "wide"); (10, "narrow"); (30, "middle")]%string !! p
         = Some (i, image) ->
         [(50, "wide"); (10, "narrow"); (30, "middle")]%string !! i = Some image
         /\ texts !! i = concat (fst <$> results) !! p
         /\ confidences !! i = concat (snd <$> results) !! p.
Proof.
  apply (@batch_recognition_restores_order (Example.settings 6 false)
           Example.tokenizer Example.pillow Example.processor
           (Example.scripted Example.script_two_letters)
           Example.postprocessing Example.numerics Memory.unavailable
           [(50, "wide"); (10, "narrow"); (30, "middle")]%string
           [None; Some ["en"]; None]%string (Some 2)).
  - apply example_collaborators; [lia|]. by intros [|[|c]] j.
  - reflexivity.
  - simpl. lia.
Defined.

(** * Further properties

    ** The memory budget, continued *)

(** X1. More host memory never gives a smaller batch: with the device, the
    CUDA availability and the GPU reading fixed, and readings below
    [2 ^ 1000] bytes, the batch size grows with the number of available host
    bytes, every operation on floats being rounded to the nearest double. *)
Theorem get_batch_size_monotone :
  forall (device : string) (cuda : bool) (gpu_bytes s1 s2 : Z),
    0 <= s1 <= s2 ->
    s2 < 2 ^ 1000 ->
    0 <= gpu_bytes < 2 ^ 1000 ->
    exists b1 b2,
      Memory.get_batch_size device (Memory.readings s1 cuda gpu_bytes) = Ok b1
      /\ Memory.get_batch_size device (Memory.readings s2 cuda gpu_bytes) = Ok b2
      /\ b1 <= b2.
Proof.
  intros device cuda gpu_bytes s1 s2 Hs Hs2 Hgpu.
  destruct (readings_available device cuda gpu_bytes s1 s2 Hs Hs2 Hgpu)
    as (r1 & r2 & -> & -> & Hlow & Hle & Hhigh).
  by apply batch_for_monotone.
Qed.

Lemma get_batch_size_monotone_witness :
  exists b1 b2,
    Memory.get_batch_size "cpu" (Memory.readings (2 * 1024 ^ 3) false 0) = Ok b1
    /\ Memory.get_batch_size "cpu" (Memory.readings (8 * 1024 ^ 3) false 0)
       = Ok b2
    /\ b1 <= b2.
Proof.
  apply (get_batch_size_monotone "cpu" false 0 (2 * 1024 ^ 3) (8 * 1024 ^ 3));
    lia.
Defined.

(** X2. On "cuda" with CUDA available, a GPU that reports a nonzero amount
    of memory decides the batch size alone: the host memory reading has no
    influence, as long as it is below [2 ^ 1000] bytes and so a representable
    number of GB. A GPU that reports 0 bytes is treated as unknown, and the
    batch size is the one computed from host memory. *)
Theorem gpu_memory_decides :
  forall (gpu_bytes s1 s2 : Z),
    0 < gpu_bytes < 2 ^ 1000 ->
    0 <= s1 < 2 ^ 1000 ->
    0 <= s2 < 2 ^ 1000 ->
    Memory.get_batch_size "cuda" (Memory.readings s1 true gpu_bytes)
    = Memory.get_batch_size "cuda" (Memory.readings s2 true gpu_bytes)
    /\ Memory.get_batch_size "cuda" (Memory.readings s1 true 0)
       = Memory.get_batch_size "cuda" (Memory.readings s1 false gpu_bytes).
Proof.
  intros gpu_bytes s1 s2 Hgpu Hs1 Hs2.
  destruct (true_divide_bounded s1 Hs1) as (sys1 & Hsys1 & _).
  destruct (true_divide_bounded s2 Hs2) as (sys2 & Hsys2 & _).
  destruct (true_divide_bounded gpu_bytes ltac:(lia))
    as (gpu & Hdivide & _ & _ & _ & Hpositive).
  specialize (Hpositive ltac:(lia)).
  assert (Float.true_divide 0 Memory.GiB = Ok (Float.Num 0)) as Hzero
    by (vm_compute; reflexivity).
  unfold Memory.get_batch_size, Memory.get_available_memory_gb,
    Memory.readings.
  cbn [Memory.virtual_memory_available Memory.cuda_is_available
       Memory.cuda_total_memory mbind result_bind].
  rewrite Hsys1, Hsys2, Hdivide, Hzero.
  change (String.eqb "cuda" "cuda" && true) with true.
  change (String.eqb "cuda" "cuda" && false) with false.
  change (String.eqb "cuda" "mps") with false.
  cbn [mbind result_bind mret result_ret]. split; [|reflexivity].
  unfold Memory.available_memory. cbn [Memory.truthy Float.truthy default].
  destruct (Qeq_bool gpu 0) eqn:E; [|done].
  apply Qeq_bool_iff in E. pose proof (pow2_positive (-30)).
  exfalso. lra.
Qed.

Lemma gpu_memory_decides_witness :
  Memory.get_batch_size "cuda" (Memory.readings 0 true (16 * 1024 ^ 3))
  = Memory.get_batch_size "cuda"
      (Memory.readings (64 * 1024 ^ 3) true (16 * 1024 ^ 3))
  /\ Memory.get_batch_size "cuda" (Memory.readings 0 true 0)
     = Memory.get_batch_size "cuda" (Memory.readings 0 false (16 * 1024 ^ 3)).
Proof.
  apply (gpu_memory_decides (16 * 1024 ^ 3) 0 (64 * 1024 ^ 3)); lia.
Defined.

(** ** Padding, continued *)

(** X3. On a tensor with [n] rows, [pad_to_batch_size] returns a tensor with
    [max n batch_size] rows and the same trailing shape; its elements are
    those of the tensor followed by zeros only, and it is well formed again. *)
Theorem pad_to_batch_size_result :
  forall (A : Type) (zero : A) (t : Torch.tensor A) (n : nat) (s : list nat)
         (batch_size : Z),
    Torch.well_formed t ->
    Torch.shape t = n :: s ->
    exists padded,
      Torch.pad_to_batch_size zero t batch_size = Ok padded
      /\ Torch.shape padded = Z.to_nat (Z.max (Z.of_nat n) batch_size) :: s
      /\ Torch.data padded
         = Torch.data t
           ++ replicate ((Z.to_nat (Z.max (Z.of_nat n) batch_size) - n)
                         * Torch.numel s) zero
      /\ Torch.well_formed padded.
Proof.
  intros A zero [sh l] n s batch_size Hwf Hshape. simpl in Hshape. subst sh.
  unfold Torch.well_formed in Hwf. simpl in Hwf.
  destruct (Z.lt_ge_cases (Z.of_nat n) batch_size) as [Hlt|Hge].
  - rewrite pad_to_batch_size_pads by done.
    eexists; split; [done|]. simpl. rewrite Z.max_r by lia.
    split; [done|]. split; [done|].
    unfold Torch.well_formed. simpl.
    rewrite length_app, length_replicate, Hwf. nia.
  - unfold Torch.pad_to_batch_size. simpl.
    destruct (Z.geb_spec (Z.of_nat n) batch_size) as [_|?]; [|lia].
    eexists; split; [done|]. simpl. rewrite Z.max_l by lia.
    rewrite Nat2Z.id, Nat.sub_diag. simpl. by rewrite app_nil_r.
Qed.

Lemma pad_to_batch_size_result_witness :
  exists padded,
    Torch.pad_to_batch_size 0 (Torch.Tensor [1; 2]%nat [7; 8]) 3 = Ok padded
    /\ Torch.shape padded = [3; 2]%nat
    /\ Torch.data padded = [7; 8] ++ replicate 4 0
    /\ Torch.well_formed padded.
Proof.
  apply (pad_to_batch_size_result Z 0 (Torch.Tensor [1; 2]%nat [7; 8])
           1%nat [2%nat] 3); reflexivity.
Defined.

(** X4. Padding is idempotent: padding the result of [pad_to_batch_size]
    again to the same capacity changes nothing. *)
Theorem pad_to_batch_size_idempotent :
  forall (A : Type) (zero : A) (t padded : Torch.tensor A) (n : nat)
         (s : list nat) (batch_size : Z),
    Torch.well_formed t ->
    Torch.shape t = n :: s ->
    Torch.pad_to_batch_size zero t batch_size = Ok padded ->
    Torch.pad_to_batch_size zero padded batch_size = Ok padded.
Proof.
  intros A zero t padded n s batch_size Hwf Hshape Hpad.
  destruct (pad_to_batch_size_result A zero t n s batch_size Hwf Hshape)
    as (padded' & Hpad' & Hshape' & _ & _).
  rewrite Hpad in Hpad'. injection Hpad' as <-.
  unfold Torch.pad_to_batch_size, Torch.shape0. rewrite Hshape'. simpl.
  destruct (Z.geb_spec (Z.of_nat (Z.to_nat (Z.max (Z.of_nat n) batch_size)))
              batch_size) as [_|?]; [done|lia].
Qed.

Lemma pad_to_batch_size_idempotent_witness :
  Torch.pad_to_batch_size 0
    (Torch.Tensor [3; 2]%nat ([7; 8] ++ replicate 4 0)) 3
  = Ok (Torch.Tensor [3; 2]%nat ([7; 8] ++ replicate 4 0)).
Proof.
  apply (pad_to_batch_size_idempotent Z 0 (Torch.Tensor [1; 2]%nat [7; 8])
           _ 1%nat [2%nat] 3); reflexivity.
Defined.

(** ** The batch plan *)

Lemma strongly_sorted_lookup {A} (R : relation A) (l : list A) p q x y :
  StronglySorted R l -> (p < q)%nat ->
  l !! p = Some x -> l !! q = Some y -> R x y.
Proof.
  intros Hsorted. revert p q.
  induction Hsorted as [|z l _ IH Hz]; intros p q Hpq Hp Hq; [done|].
  destruct q as [|q]; [lia|]. simpl in Hq.
  destruct p as [|p]; simpl in Hp.
  - injection Hp as ->. rewrite Forall_forall in Hz.
    by eapply Hz, list_elem_of_lookup_2.
  - apply (IH p q); [lia|done|done].
Qed.

Lemma enumerate_from_sorted {A} (l : list A) (j : nat) :
  StronglySorted (fun a b : nat * A => (a.1 < b.1)%nat)
                 (imap (fun i x => ((j + i)%nat, x)) l)
  /\ Forall (fun y : nat * A => (j <= y.1)%nat)
            (imap (fun i x => ((j + i)%nat, x)) l).
Proof.
  revert j. induction l as [|x l IH]; intros j; [by split; constructor|].
  rewrite imap_cons.
  rewrite (imap_ext _ (fun i y => ((S j + i)%nat, y)))
    by (intros; simpl; f_equal; lia).
  destruct (IH (S j)) as [IH1 IH2]. split.
  - constructor; [done|]. eapply Forall_impl; [exact IH2|].
    simpl. intros y Hy. lia.
  - constructor; [simpl; lia|]. eapply Forall_impl; [exact IH2|].
    simpl. intros y Hy. lia.
Qed.

Section Plan.
Import Recognition.
Context `{Pillow}.

Lemma insert_slot (x : nat * Image) (s : list (nat * Image)) :
  StronglySorted slot_before s ->
  Forall (fun y => (x.1 < y.1)%nat) s ->
  StronglySorted slot_before (Py.insert_by (fun y => width y.2) x s).
Proof.
  induction 1 as [|y s Hs IH Hy]; intros Hx; simpl; [by repeat constructor|].
  apply Forall_cons in Hx as [Hxy Hx].
  destruct (Z.ltb_spec (width y.2) (width x.2)) as [Hlt|Hge].
  - constructor; [by apply IH|]. rewrite insert_by_Permutation.
    constructor; [by left|done].
  - assert (slot_before x y) as Hfirst.
    { unfold slot_before.
      destruct (Z.eq_dec (width x.2) (width y.2)); [right|left]; lia. }
    constructor; [by constructor|]. constructor; [done|].
    rewrite Forall_forall in Hy, Hx. apply Forall_forall. intros z Hz.
    specialize (Hy z Hz). specialize (Hx z Hz).
    unfold slot_before in *. lia.
Qed.

Lemma sorted_slots (l : list (nat * Image)) :
  StronglySorted (fun a b : nat * Image => (a.1 < b.1)%nat) l ->
  StronglySorted slot_before (Py.sorted (fun y => width y.2) l).
Proof.
  induction 1 as [|x l _ IH Hx]; simpl; [constructor|].
  apply insert_slot; [done|]. fold (Py.sorted (fun y => width y.2) l).
  by rewrite sorted_Permutation.
Qed.

End Plan.

(** X5. The width sort keeps every image exactly once and is stable: the
    indices of the sorted pairs are a permutation of [0 .. n-1], every pair
    holds the image of its index, and of two slots the earlier one holds the
    narrower image or, at equal width, the image the caller listed first. *)
Theorem sorted_pairs_stable :
  forall `{Recognition.Pillow} (images : list Recognition.Image),
    fst <$> Recognition.sorted_pairs images ≡ₚ seq 0 (length images)
    /\ (forall p i image,
          Recognition.sorted_pairs images !! p = Some (i, image) ->
          images !! i = Some image)
    /\ forall p q x y,
         (p < q)%nat ->
         Recognition.sorted_pairs images !! p = Some x ->
         Recognition.sorted_pairs images !! q = Some y ->
         Recognition.slot_before x y.
Proof.
  intros ? images. split; [apply sorted_pairs_indices|].
  split; [apply sorted_pairs_lookup|].
  intros p q x y Hpq Hp Hq.
  eapply (strongly_sorted_lookup Recognition.slot_before); [|done..].
  apply sorted_slots. unfold Py.enumerate.
  apply (enumerate_from_sorted images 0).
Qed.

(** X6. For a batch size of at least 1 the batches partition the two lists:
    cut one after the other they give back the sorted images and the
    language list, no batch is empty, none has more than [batch_size]
    entries, and each has as many language entries as images. *)
Theorem batches_partition :
  forall `{Recognition.Pillow} (images : list Recognition.Image)
         (languages : list Recognition.Langs) (batch_size : Z),
    1 <= batch_size ->
    length languages = length images ->
    exists starts,
      Py.range (Z.of_nat (length images)) batch_size = Ok starts
      /\ concat ((fun i => (Recognition.batch_inputs images languages
                              batch_size i).1) <$> starts) = images
      /\ concat ((fun i => (Recognition.batch_inputs images languages
                              batch_size i).2) <$> starts) = languages
      /\ Forall (fun i =>
                   let inputs :=
                     Recognition.batch_inputs images languages batch_size i in
                   inputs.1 <> []
                   /\ (Z.of_nat (length inputs.1) <= batch_size)
                   /\ length inputs.2 = length inputs.1) starts.
Proof.
  intros ? images languages b Hb Hlen.
  destruct (range_starts (Z.of_nat (length images)) b Hb ltac:(lia))
    as (count & Hrange & Hcover & Hin).
  exists ((fun k => Z.of_nat k * b) <$> seq 0 count). split; [done|].
  assert (length images <= count * Z.to_nat b)%nat as Hcover'.
  { apply Nat2Z.inj_le. rewrite Nat2Z.inj_mul, Z2Nat.id; lia. }
  split; [|split].
  - rewrite <- list_fmap_compose.
    rewrite (list_fmap_ext _ (fun k => take (Z.to_nat b)
                                         (drop (k * Z.to_nat b) images))).
    + by apply concat_chunks_cover.
    + intros _ k _. simpl. by apply slice_chunk.
  - rewrite <- list_fmap_compose.
    rewrite (list_fmap_ext _ (fun k => take (Z.to_nat b)
                                         (drop (k * Z.to_nat b) languages))).
    + apply concat_chunks_cover. by rewrite Hlen.
    + intros _ k _. simpl. by apply slice_chunk.
  - apply Forall_fmap, Forall_forall. intros k [_ Hk]%elem_of_seq.
    specialize (Hin k ltac:(lia)).
    assert (k * Z.to_nat b < length images)%nat as Hlt.
    { apply Nat2Z.inj_lt. rewrite Nat2Z.inj_mul, Z2Nat.id; lia. }
    simpl. rewrite !slice_chunk by done.
    rewrite !length_take, !length_drop, Hlen.
    split; [|split; [lia|done]].
    intros Hnil%(f_equal length). rewrite length_take, length_drop in Hnil.
    simpl in Hnil. lia.
Qed.

Lemma batches_partition_witness :
  exists starts,
    Py.range 3 2 = Ok starts
    /\ concat ((fun i => (@Recognition.batch_inputs Example.pillow
                            [(10, "a"); (20, "b"); (30, "c")]%string
                            [None; None; Some ["en"]]%string 2 i).1) <$> starts)
       = [(10, "a"); (20, "b"); (30, "c")]%string
    /\ concat ((fun i => (@Recognition.batch_inputs Example.pillow
                            [(10, "a"); (20, "b"); (30, "c")]%string
                            [None; None; Some ["en"]]%string 2 i).2) <$> starts)
       = [None; None; Some ["en"]]%string
    /\ Forall (fun i =>
                 let inputs :=
                   @Recognition.batch_inputs Example.pillow
                     [(10, "a"); (20, "b"); (30, "c")]%string
                     [None; None; Some ["en"]]%string 2 i in
                 inputs.1 <> []
                 /\ (Z.of_nat (length inputs.1) <= 2)
                 /\ length inputs.2 = length inputs.1) starts.
Proof.
  apply (@batches_partition Example.pillow
           [(10, "a"); (20, "b"); (30, "c")]%string
           [None; None; Some ["en"]]%string 2); [lia|reflexivity].
Defined.

(** X7. Sorting and restoring is a round trip: outputs that depend on the
    image of their slot only come back in caller order. If slot [p] yields
    [f] of its image, then index [i] of the restored list is [f] of image
    [i]; with the identity, restoring the sorted images gives the images. *)
Theorem restore_order_round_trip :
  forall `{Recognition.Pillow} (B : Type) (f : Recognition.Image -> B)
         (images : list Recognition.Image),
    Recognition.restore_order
      (fst <$> Recognition.sorted_pairs images)
      (f <$> (snd <$> Recognition.sorted_pairs images))
    = f <$> images.
Proof.
  intros ? B f images.
  set (pairs := Recognition.sorted_pairs images).
  assert (length (fst <$> pairs) = length images) as Hlen
    by (unfold pairs; by rewrite length_fmap, sorted_pairs_length).
  destruct (restore_order_spec (fst <$> pairs) (f <$> (snd <$> pairs)))
    as [Hlength Horder].
  { rewrite Hlen. apply sorted_pairs_indices. }
  { by rewrite !length_fmap. }
  apply list_eq. intros i.
  destruct (decide (i < length images)%nat) as [Hi|Hi].
  - assert (i ∈ fst <$> pairs) as Hin.
    { unfold pairs. rewrite sorted_pairs_indices. apply elem_of_seq. lia. }
    apply list_elem_of_lookup_1 in Hin as [p Hp].
    rewrite (Horder p i Hp). rewrite list_lookup_fmap in Hp.
    destruct (pairs !! p) as [[j image]|] eqn:Hpair; [|done].
    injection Hp as ->. rewrite !list_lookup_fmap, Hpair. simpl.
    apply sorted_pairs_lookup in Hpair. by rewrite Hpair.
  - rewrite !lookup_ge_None_2; [done| |].
    + rewrite length_fmap. lia.
    + rewrite Hlength, Hlen. lia.
Qed.

(** ** Batch sizes that are not positive *)

Lemma restore_order_nil {A} (indices : list nat) :
  Recognition.restore_order indices (@nil A) = [].
Proof.
  unfold Recognition.restore_order. by rewrite zip_with_nil_r.
Qed.

(** X8. A batch size that is not positive is not rejected as such. On
    images that are not empty, [batch_size = 0] fails with the [ValueError]
    of [range], and a negative [batch_size] runs no batch at all and returns
    two empty lists, so the outputs are shorter than the inputs. *)
Theorem batch_size_not_positive :
  forall `{Recognition.Settings, Recognition.Tokenizer, Recognition.Pillow,
           !Recognition.Processor, Recognition.Model,
           Recognition.Postprocessing, Recognition.Numerics}
         (memory : Memory.Probe) (images : list Recognition.Image)
         (languages : list Recognition.Langs) (batch_size : Z),
    images <> [] ->
    length images = length languages ->
    (batch_size = 0 ->
     Recognition.batch_recognition memory images languages (Some batch_size)
     = Raise ValueError)
    /\ (batch_size < 0 ->
        Recognition.batch_recognition memory images languages (Some batch_size)
        = Ok ([], [])).
Proof.
  intros ? ? ? ? ? ? ? memory images languages b Hne Hlen.
  assert (1 <= length images)%nat as Hn by (destruct images; simpl; [done|lia]).
  assert (Recognition.batch_recognition memory images languages (Some b)
          = (starts ← Py.range (Z.of_nat (length images)) b;
             '(output_text, confidences) ←
               Recognition.run_batches starts
                 (snd <$> Recognition.sorted_pairs images) languages b [] [];
             mret (Recognition.restore_order
                     (fst <$> Recognition.sorted_pairs images) output_text,
                   Recognition.restore_order
                     (fst <$> Recognition.sorted_pairs images) confidences)))
    as ->.
  { unfold Recognition.batch_recognition. rewrite <- Hlen, Nat.eqb_refl. simpl.
    destruct (Nat.eqb_spec (length images) 0) as [?|_]; [lia|]. simpl.
    by rewrite length_fmap, sorted_pairs_length. }
  split.
  - intros ->. reflexivity.
  - intros Hneg. unfold Py.range.
    destruct (Z.eqb_spec b 0) as [?|_]; [lia|].
    destruct (Z.ltb_spec 0 b) as [?|_]; [lia|].
    assert ((- Z.of_nat (length images) - b - 1) / - b <= 0) as Hcount.
    { apply Z.lt_succ_r. apply Z.div_lt_upper_bound; lia. }
    destruct (Z.to_nat _) eqn:E; [|lia]. simpl.
    by rewrite !restore_order_nil.
Qed.

Lemma batch_size_not_positive_witness :
  (0 = 0 ->
   @Recognition.batch_recognition (Example.settings 6 false) Example.tokenizer
     Example.pillow Example.processor
     (Example.scripted Example.script_two_letters) Example.postprocessing
     Example.numerics Memory.unavailable
     [(10, "a")]%string [None] (Some 0)
   = Raise ValueError)
  /\ (0 < 0 ->
      @Recognition.batch_recognition (Example.settings 6 false)
        Example.tokenizer Example.pillow Example.processor
        (Example.scripted Example.script_two_letters) Example.postprocessing
        Example.numerics Memory.unavailable
        [(10, "a")]%string [None] (Some 0)
      = Ok ([], [])).
Proof.
  apply (@batch_size_not_positive (Example.settings 6 false) Example.tokenizer
           Example.pillow Example.processor
           (Example.scripted Example.script_two_letters)
           Example.postprocessing Example.numerics Memory.unavailable
           [(10, "a")]%string [None] 0); [discriminate|reflexivity].
Defined.

(** ** What the loop keeps from one call of the decoder to the next *)

Section LoopInvariants.
Import Torch Recognition.
Context `{Settings, Tokenizer, Model, Numerics}.
Variables (batch_size : Z) (n : nat) (hidden : tensor Q).

(** A property kept by every iteration is kept by the loop; [K] is what the
    iterations that go on to the next one keep. *)
Lemma decode_loop_invariant (K P : DecoderState -> Prop) :
  (forall st st', K st -> decode_step batch_size n hidden st = Ok (false, st') ->
                  K st') ->
  (forall st stop st', K st -> P st ->
                       decode_step batch_size n hidden st = Ok (stop, st') ->
                       P st') ->
  forall fuel st final,
    K st -> P st -> decode_loop batch_size n hidden fuel st = Ok final ->
    P final.
Proof.
  intros HK HP fuel. induction fuel as [|fuel IH]; intros st final Kst Pst; simpl;
    destruct (token_count st <? RECOGNITION_MAX_TOKENS - 1); try done.
  - by intros [= <-].
  - intros Hrun. bind_inv Hrun. destruct a as [[] st'].
    + injection Hrun as <-. by eapply HP.
    + eapply IH; [by eapply HK|by eapply HP|done].
  - by intros [= <-].
Qed.

Lemma history_length_bound fuel st final :
  1 <= inference_token_count st -> token_count st = 0 -> history st = [] ->
  decode_loop batch_size n hidden fuel st = Ok final ->
  (length (history final) <= Z.to_nat (RECOGNITION_MAX_TOKENS - 1))%nat.
Proof.
  intros Hcount Htok Hhist Hrun.
  assert (budget st = Z.to_nat (RECOGNITION_MAX_TOKENS - 1)) as Hbudget.
  { unfold budget. rewrite Htok. f_equal. lia. }
  destruct (decode_loop_Ok batch_size n hidden fuel st final Hrun)
    as (last & Hreach & Hend).
  destruct (rtc_continues_budget _ _ _ st last Hreach Hcount) as [Hsteps _].
  rewrite Hhist in Hsteps. simpl in Hsteps.
  destruct Hend as [[_ ->]|[Hguard Hbreak]]; [lia|].
  destruct (decode_step_inv _ _ _ _ _ _ Hbreak)
    as (preds & scores & done' & rows' & _ & _ & _ & _ & _ & Hfinal & _).
  unfold guard in Hguard. apply Z.ltb_lt in Hguard.
  assert (1 <= budget last)%nat by (unfold budget; lia).
  rewrite Hfinal, length_app. simpl. lia.
Qed.


Lemma done_le_refl (a : list bool) : done_le a a.
Proof. by intros j. Qed.

Lemma done_le_trans (a b c : list bool) :
  done_le a b -> done_le b c -> done_le a c.
Proof. intros Hab Hbc j Hj. by apply Hbc, Hab. Qed.

Lemma done_le_or (a b : list bool) :
  length a = length b -> done_le a (zip_with orb a b).
Proof.
  intros Hlen j Hj. rewrite lookup_zip_with, Hj. simpl.
  destruct (b !! j) as [y|] eqn:E; [done|].
  apply lookup_ge_None in E. apply lookup_lt_Some in Hj. lia.
Qed.

Lemma transcript_snoc (j : nat) (steps : list Step) (s : Step) :
  transcript j (steps ++ [s])
  = transcript j steps ++ option_list (emitted j s).
Proof.
  unfold transcript. rewrite omap_app. simpl. by destruct (emitted j s).
Qed.

Hypothesis shaped : decoder_shaped.

Lemma traced_step st stop st' :
  state_ok n st -> traced n st ->
  decode_step batch_size n hidden st = Ok (stop, st') -> traced n st'.
Proof.
  intros Hok [Hsorted Hdone Hsteps] Hstep.
  destruct (decode_step_ok batch_size n hidden shaped st stop st' Hok Hstep)
    as (_ & _ & Hlen_predictions & Hlen_done & preds & scores & Hlen_preds
        & _ & Hor & Hhist & Hstop).
  assert (done_le (all_done st) (all_done st')) as Hgrow.
  { rewrite Hor. apply done_le_or. rewrite length_fmap.
    destruct Hok. congruence. }
  split.
  - rewrite Hhist. apply StronglySorted_app.
    split; [|split; [done|repeat constructor]].
    intros s s' Hs Hs'. apply list_elem_of_singleton in Hs' as ->. simpl.
    rewrite Forall_forall in Hdone. eapply done_le_trans; [by apply Hdone|done].
  - rewrite Hhist. apply Forall_app. split.
    + eapply Forall_impl; [exact Hdone|]. intros s Hs. simpl in Hs.
      by eapply done_le_trans.
    + repeat constructor. simpl. apply done_le_refl.
  - rewrite Hhist. apply Forall_app. split; [done|]. apply Forall_singleton. simpl.
    split; [done|]. split; [done|]. intros j p Hj Hp. rewrite Hor, lookup_zip_with in Hj.
    rewrite list_lookup_fmap, Hp in Hj. simpl in Hj.
    destruct (all_done st !! j) as [[]|]; simpl in Hj; [done| |done].
    by injection Hj.
Qed.

Lemma transcribed_step st stop st' :
  state_ok n st -> transcribed n st ->
  decode_step batch_size n hidden st = Ok (stop, st') -> transcribed n st'.
Proof.
  intros Hok Hpredictions Hstep.
  destruct (decode_step_ok batch_size n hidden shaped st stop st' Hok Hstep)
    as (_ & _ & Hlen_predictions & Hlen_done & preds & scores & Hlen_preds
        & _ & Hor & Hhist & Hstop).
  intros j Hj. rewrite Hhist, transcript_snoc.
  specialize (Hpredictions j Hj).
  destruct (lookup_lt_is_Some_2 (all_done st') j) as [d Hd]; [lia|].
  destruct (lookup_lt_is_Some_2 preds j) as [p Hp]; [lia|].
  destruct (decode_step_inv _ _ _ _ _ _ Hstep)
    as (preds' & scores' & done' & rows' & _ & _ & _ & _ & _ & Hhist'
        & Hdone' & _ & Hrest).
  rewrite Hhist in Hhist'. apply app_inj_tail in Hhist' as [_ Heq].
  injection Heq as <- <- <-.
  unfold emitted. simpl. rewrite Hd.
  destruct stop.
  - destruct Hrest as (_ & _ & ->).
    assert (d = true) as ->.
    { symmetry in Hstop. rewrite forallb_forall in Hstop.
      apply (Hstop d). apply list_elem_of_In. by eapply list_elem_of_lookup_2. }
    simpl. by rewrite app_nil_r.
  - destruct Hrest as (_ & _ & -> & _).
    assert (zip preds (all_done st') !! j = Some (p, d)) as Hzip.
    { rewrite lookup_zip_with, Hp. simpl. by rewrite Hd. }
    unfold append_predictions.
    rewrite list_lookup_imap, Hpredictions, Hzip, Hp. simpl.
    destruct d; simpl; [by rewrite app_nil_r|done].
Qed.

Lemma decode_loop_traced fuel st final :
  state_ok n st -> history st = [] ->
  decode_loop batch_size n hidden fuel st = Ok final -> traced n final.
Proof.
  intros Hok Hhist Hrun.
  apply (decode_loop_invariant (state_ok n) (traced n)) with fuel st;
    [| |done| |done].
  - intros s s' Hs Hstep.
    by apply (decode_step_ok batch_size n hidden shaped s false s' Hs Hstep).
  - intros s stop s' Hs Ht Hstep. by eapply traced_step.
  - split; rewrite Hhist; constructor.
Qed.

Lemma decode_loop_transcribed fuel st final :
  state_ok n st -> history st = [] -> batch_predictions st = replicate n [] ->
  decode_loop batch_size n hidden fuel st = Ok final -> transcribed n final.
Proof.
  intros Hok Hhist Hpredictions Hrun.
  apply (decode_loop_invariant (state_ok n) (transcribed n)) with fuel st;
    [| |done| |done].
  - intros s s' Hs Hstep.
    by apply (decode_step_ok batch_size n hidden shaped s false s' Hs Hstep).
  - intros s stop s' Hs Ht Hstep. by eapply transcribed_step.
  - intros j Hj. rewrite Hpredictions, Hhist. by apply lookup_replicate_2.
Qed.

End LoopInvariants.

Lemma length_transcript (j : nat) (steps : list Recognition.Step) :
  (length (Recognition.transcript j steps) <= length steps)%nat.
Proof.
  unfold Recognition.transcript.
  induction steps as [|s steps IH]; csimpl; [done|].
  destruct (Recognition.emitted j s); csimpl; lia.
Qed.

Lemma elem_of_transcript (j : nat) (steps : list Recognition.Step) (tok : Z) :
  tok ∈ Recognition.transcript j steps ->
  exists s, s ∈ steps /\ Recognition.step_done s !! j = Some false
            /\ Recognition.step_preds s !! j = Some tok.
Proof.
  unfold Recognition.transcript. rewrite list_elem_of_omap.
  intros (s & Hs & Hemitted). exists s. split; [done|].
  unfold Recognition.emitted in Hemitted.
  by destruct (Recognition.step_done s !! j) as [[]|].
Qed.

(** X9. A sample that is done after one call of the decoder is done after
    every later call and when the loop ends: [all_done] only grows. *)
Theorem done_stays_done :
  forall `{Recognition.Settings, Recognition.Tokenizer, Recognition.Model,
           Recognition.Numerics}
         (batch_size : Z) (n : nat) (hidden : Torch.tensor Q)
         (st : Recognition.DecoderState) (fuel : nat)
         (final : Recognition.DecoderState),
    Recognition.decoder_shaped ->
    Recognition.state_ok n st ->
    Recognition.history st = [] ->
    Recognition.decode_loop batch_size n hidden fuel st = Ok final ->
    forall (t t' : nat) (s s' : Recognition.Step) (j : nat),
      (t <= t')%nat ->
      Recognition.history final !! t = Some s ->
      Recognition.history final !! t' = Some s' ->
      Recognition.step_done s !! j = Some true ->
      Recognition.step_done s' !! j = Some true
      /\ Recognition.all_done final !! j = Some true.
Proof.
  intros ? ? ? ? batch_size n hidden st fuel final shaped Hok Hhist Hrun
    t t' s s' j Hle Ht Ht' Hdone.
  destruct (decode_loop_traced batch_size n hidden shaped fuel st final
              Hok Hhist Hrun) as [Hsorted Hfinal _].
  assert (Recognition.step_done s' !! j = Some true) as Hlater.
  { destruct (decide (t = t')) as [->|Hne]; [congruence|].
    apply (strongly_sorted_lookup _ _ t t' s s' Hsorted); [lia|done|done|done]. }
  split; [done|]. rewrite Forall_forall in Hfinal.
  apply (Hfinal s'); [|done]. by eapply list_elem_of_lookup_2.
Qed.

Lemma done_stays_done_witness :
  exists final,
    Example.run Example.script_early_and_late 2 = Ok final
    /\ forall (t t' : nat) (s s' : Recognition.Step) (j : nat),
         (t <= t')%nat ->
         Recognition.history final !! t = Some s ->
         Recognition.history final !! t' = Some s' ->
         Recognition.step_done s !! j = Some true ->
         Recognition.step_done s' !! j = Some true
         /\ Recognition.all_done final !! j = Some true.
Proof.
  eexists. split; [lazy; reflexivity|].
  apply (@done_stays_done (Example.settings 6 false) Example.tokenizer
           (Example.scripted Example.script_early_and_late) Example.numerics
           2 2%nat (Example.context 2)
           (Example.entry_state
              (Example.scripted Example.script_early_and_late) 2 2) 6%nat).
  - by apply scripted_shaped; intros c [|[|j]] H; destruct c as [|[|c]].
  - apply entry_state_ok. lia.
  - reflexivity.
  - lazy. reflexivity.
Defined.

(** X10. When the loop ends, the tokens of sample [j] are, in order, the
    arg-max tokens of the calls of the decoder after which the sample was not
    done: nothing else is appended, and a token is appended at every such
    call. *)
Theorem predictions_are_transcripts :
  forall `{Recognition.Settings, Recognition.Tokenizer, Recognition.Model,
           Recognition.Numerics}
         (batch_size : Z) (n : nat) (hidden : Torch.tensor Q)
         (st : Recognition.DecoderState) (fuel : nat)
         (final : Recognition.DecoderState),
    Recognition.decoder_shaped ->
    Recognition.state_ok n st ->
    Recognition.history st = [] ->
    Recognition.batch_predictions st = replicate n [] ->
    Recognition.decode_loop batch_size n hidden fuel st = Ok final ->
    forall j, (j < n)%nat ->
      Recognition.batch_predictions final !! j
      = Some (Recognition.transcript j (Recognition.history final)).
Proof.
  intros ? ? ? ? batch_size n hidden st fuel final shaped Hok Hhist Hpredictions
    Hrun.
  by apply (decode_loop_transcribed batch_size n hidden shaped fuel st final).
Qed.

Lemma predictions_are_transcripts_witness :
  exists final,
    Example.run Example.script_early_and_late 2 = Ok final
    /\ Recognition.batch_predictions final = [[]; [2; 2]]
    /\ forall j, (j < 2)%nat ->
         Recognition.batch_predictions final !! j
         = Some (Recognition.transcript j (Recognition.history final)).
Proof.
  eexists. split; [lazy; reflexivity|]. split; [reflexivity|].
  apply (@predictions_are_transcripts (Example.settings 6 false)
           Example.tokenizer
           (Example.scripted Example.script_early_and_late) Example.numerics
           2 2%nat (Example.context 2)
           (Example.entry_state
              (Example.scripted Example.script_early_and_late) 2 2) 6%nat).
  - by apply scripted_shaped; intros c [|[|j]] H; destruct c as [|[|c]].
  - apply entry_state_ok. lia.
  - reflexivity.
  - reflexivity.
  - lazy. reflexivity.
Defined.

Lemma decode_loop_predictions_length
    `{Recognition.Settings, Recognition.Tokenizer, Recognition.Model,
      Recognition.Numerics}
    (batch_size : Z) (n : nat) (hidden : Torch.tensor Q)
    (st : Recognition.DecoderState) (fuel : nat)
    (final : Recognition.DecoderState) :
  Recognition.decoder_shaped ->
  Recognition.state_ok n st ->
  Recognition.decode_loop batch_size n hidden fuel st = Ok final ->
  length (Recognition.batch_predictions final) = n.
Proof.
  intros shaped Hok Hrun.
  apply (decode_loop_invariant batch_size n hidden (Recognition.state_ok n)
           (fun s => length (Recognition.batch_predictions s) = n))
    with fuel st; [| |done|by destruct Hok|done].
  - intros s s' Hs Hstep.
    by apply (decode_step_ok batch_size n hidden shaped s false s' Hs Hstep).
  - intros s stop s' Hs _ Hstep.
    by apply (decode_step_ok batch_size n hidden shaped s stop s' Hs Hstep).
Qed.

(** X11. When the loop ends there is one token list per sample, no list
    holds the end marker or the pad marker, and no list is longer than
    [RECOGNITION_MAX_TOKENS - 1]. *)
Theorem predictions_exclude_markers :
  forall `{Recognition.Settings, Recognition.Tokenizer, Recognition.Model,
           Recognition.Numerics}
         (batch_size : Z) (n : nat) (hidden : Torch.tensor Q)
         (st : Recognition.DecoderState) (fuel : nat)
         (final : Recognition.DecoderState),
    Recognition.decoder_shaped ->
    Recognition.state_ok n st ->
    Recognition.token_count st = 0 ->
    Recognition.history st = [] ->
    Recognition.batch_predictions st = replicate n [] ->
    Recognition.decode_loop batch_size n hidden fuel st = Ok final ->
    length (Recognition.batch_predictions final) = n
    /\ Forall (fun tokens =>
                 Forall (fun tok => tok <> Recognition.eos_id
                                    /\ tok <> Recognition.pad_id) tokens
                 /\ (length tokens
                     <= Z.to_nat (Recognition.RECOGNITION_MAX_TOKENS - 1))%nat)
              (Recognition.batch_predictions final).
Proof.
  intros ? ? ? ? batch_size n hidden st fuel final shaped Hok Htok Hhist
    Hpredictions Hrun.
  pose proof (decode_loop_predictions_length batch_size n hidden st fuel final
                shaped Hok Hrun) as Hlen.
  split; [done|].
  pose proof (decode_loop_transcribed batch_size n hidden shaped fuel st final
                Hok Hhist Hpredictions Hrun) as Htokens.
  destruct (decode_loop_traced batch_size n hidden shaped fuel st final
              Hok Hhist Hrun) as [_ _ Hsteps].
  assert (1 <= Recognition.inference_token_count st) as Hcount
    by by destruct Hok.
  pose proof (history_length_bound batch_size n hidden fuel st final
                Hcount Htok Hhist Hrun) as Hbound.
  apply Forall_lookup. intros j tokens Hj.
  rewrite Htokens in Hj by (apply lookup_lt_Some in Hj; lia).
  injection Hj as <-. split.
  - apply Forall_forall. intros tok Htok'.
    apply elem_of_transcript in Htok' as (s & Hs & Hdone & Hpred).
    rewrite Forall_forall in Hsteps.
    destruct (Hsteps s Hs) as (_ & _ & Hsound).
    specialize (Hsound j tok Hdone Hpred).
    unfold Recognition.is_done in Hsound.
    apply orb_false_elim in Hsound as [Heos Hpad].
    apply Z.eqb_neq in Heos, Hpad. done.
  - pose proof (length_transcript j (Recognition.history final)). lia.
Qed.

Lemma predictions_exclude_markers_witness :
  exists final,
    Example.run Example.script_never_done 1 = Ok final
    /\ Recognition.batch_predictions final = [[2; 2; 2; 2; 2]]
    /\ length (Recognition.batch_predictions final) = 1%nat
    /\ Forall (fun tokens =>
                 Forall (fun tok => tok <> 1 /\ tok <> 0) tokens
                 /\ (length tokens <= 5)%nat)
              (Recognition.batch_predictions final).
Proof.
  eexists. split; [lazy; reflexivity|]. split; [reflexivity|].
  apply (@predictions_exclude_markers (Example.settings 6 false)
           Example.tokenizer
           (Example.scripted Example.script_never_done) Example.numerics
           1 1%nat (Example.context 1)
           (Example.entry_state
              (Example.scripted Example.script_never_done) 1 1) 6%nat).
  - by apply scripted_shaped.
  - apply entry_state_ok. lia.
  - reflexivity.
  - reflexivity.
  - reflexivity.
  - lazy. reflexivity.
Defined.

(** ** Confidences are probabilities *)

Section Probabilities.
Local Open Scope Q_scope.








End Probabilities.

Section Bounded.
Import Torch Recognition.
Context `{Settings, Tokenizer, Model, Numerics}.
Variables (batch_size : Z) (n : nat) (hidden : tensor Q).
Hypothesis positive : exp_positive.



End Bounded.




(** ** Cache positions *)

Lemma drop_to_last {A} (l : list A) :
  drop (length l - 1) l = option_list (last l).
Proof.
  induction l as [|x l IH] using rev_ind; [done|].
  rewrite length_app, last_snoc. simpl.
  replace (length l + 1 - 1)%nat with (length l + 0)%nat by lia.
  by rewrite drop_app_length'.
Qed.

Lemma last_positions (w : nat) (offset p : Z) :
  last (Recognition.positions w offset) = Some p ->
  p = Z.of_nat w - 1 + offset.
Proof.
  unfold Recognition.positions. rewrite fmap_last.
  destruct w as [|w]; [done|]. rewrite seq_S, last_snoc. simpl.
  intros [= <-]. lia.
Qed.

Section Positions.
Import Torch Recognition.
Context `{Settings, Tokenizer, Model, Numerics}.
Variables (batch_size : Z) (n : nat) (hidden : tensor Q).

Lemma decode_step_positions st st' :
  decode_step batch_size n hidden st = Ok (false, st') ->
  exists p, last (decoder_position_ids st) = Some p
            /\ decoder_position_ids st' = [p + 1].
Proof.
  unfold decode_step. intros Hstep.
  destruct (decoder _ _ _ _ _) as [cache' all_logits].
  bind_inv Hstep. rename a into last_logits.
  bind_inv Hstep. rename a into preds.
  bind_inv Hstep. rename a into scores.
  bind_inv Hstep. rename a into done'.
  bind_inv Hstep. rename a into rows'.
  destruct (forallb id done'); [done|].
  bind_inv Hstep. bind_inv Hstep. bind_inv Hstep. bind_inv Hstep.
  injection Hstep as <-. simpl.
  rewrite drop_to_last in Ha5.
  destruct (last (decoder_position_ids st)) as [p|]; [|done].
  exists p. split; [done|]. simpl in Ha5. injection Ha5 as <-.
  unfold row0_width, shape0, shape_last in Ha6. simpl in Ha6.
  case_decide; [done|]. simpl in Ha6. injection Ha6 as <-.
  unfold positions. simpl. f_equal; lia.
Qed.

(** Between two calls of the decoder: either no call was made yet, or the
    decoder is about to get one token per sample at the cache position that
    is the number of tokens consumed. *)
Lemma continues_positions (width : nat) st st' :
  (history st = [] /\ token_count st = 0
   /\ inference_token_count st = Z.of_nat width
   /\ decoder_position_ids st = positions width 0)
  \/ (decoder_position_ids st = [token_count st]
      /\ token_count st = Z.of_nat width + Z.of_nat (length (history st)) - 1
      /\ inference_token_count st = 1
      /\ exists d, shape (batch_decoder_input st) = [d; 1%nat]) ->
  continues batch_size n hidden st st' ->
  decoder_position_ids st' = [token_count st']
  /\ token_count st' = Z.of_nat width + Z.of_nat (length (history st')) - 1
  /\ inference_token_count st' = 1
  /\ exists d, shape (batch_decoder_input st') = [d; 1%nat].
Proof.
  intros Hst [_ Hstep].
  destruct (decode_step_positions st st' Hstep) as (p & Hlast & Hnext).
  destruct (decode_step_inv _ _ _ _ _ _ Hstep)
    as (preds & scores & done' & rows' & _ & _ & _ & _ & _ & Hhist & _ & _
        & Htok & Hinf & _ & _ & d & Hshape & _).
  rewrite Hnext, Htok, Hhist, length_app. simpl.
  destruct Hst as [(Hnil & Hzero & Hwidth & Hpos)|(Hpos & Hcount & Hone & _)].
  - rewrite Hpos in Hlast. apply last_positions in Hlast.
    rewrite Hzero, Hwidth, Hnil. simpl.
    split; [f_equal; lia|]. split; [lia|]. split; [done|]. by exists d.
  - rewrite Hpos in Hlast. injection Hlast as <-.
    rewrite Hone. split; [done|]. split; [lia|]. split; [done|]. by exists d.
Qed.

Lemma rtc_continues_positions (width : nat) st last :
  rtc (continues batch_size n hidden) st last ->
  (history st = [] /\ token_count st = 0
   /\ inference_token_count st = Z.of_nat width
   /\ decoder_position_ids st = positions width 0)
  \/ (decoder_position_ids st = [token_count st]
      /\ token_count st = Z.of_nat width + Z.of_nat (length (history st)) - 1
      /\ inference_token_count st = 1
      /\ exists d, shape (batch_decoder_input st) = [d; 1%nat]) ->
  (history last = [] /\ token_count last = 0
   /\ inference_token_count last = Z.of_nat width
   /\ decoder_position_ids last = positions width 0)
  \/ (decoder_position_ids last = [token_count last]
      /\ token_count last
         = Z.of_nat width + Z.of_nat (length (history last)) - 1
      /\ inference_token_count last = 1
      /\ exists d, shape (batch_decoder_input last) = [d; 1%nat]).
Proof.
  induction 1 as [|st mid last Hstep _ IH]; [done|]. intros Hst.
  apply IH. right. by apply (continues_positions width st mid).
Qed.

End Positions.

(** X13. After the first call, every call of the decoder gets one token per
    sample at a single cache position, the number of tokens consumed so far:
    the width of the first input plus the number of earlier calls minus
    one. *)
Theorem cache_position_counts_tokens :
  forall `{Recognition.Settings, Recognition.Tokenizer, Recognition.Model,
           Recognition.Numerics}
         (batch_size : Z) (n : nat) (hidden : Torch.tensor Q)
         (input : Torch.tensor Z) (width : nat)
         (st : Recognition.DecoderState),
    rtc (Recognition.continues batch_size n hidden)
        (Recognition.initial_state input width (Recognition.positions width 0)
           n batch_size) st ->
    Recognition.history st <> [] ->
    Recognition.decoder_position_ids st = [Recognition.token_count st]
    /\ Recognition.token_count st
       = Z.of_nat width + Z.of_nat (length (Recognition.history st)) - 1
    /\ Recognition.inference_token_count st = 1
    /\ exists d, Torch.shape (Recognition.batch_decoder_input st) = [d; 1%nat].
Proof.
  intros ? ? ? ? batch_size n hidden input width st Hreach Hne.
  destruct (rtc_continues_positions batch_size n hidden width _ st Hreach)
    as [(Hnil & _)|Hst]; [by left|done|done].
Qed.

Lemma cache_position_counts_tokens_witness :
  rtc (@Recognition.continues (Example.settings 6 false) Example.tokenizer
         Example.letter_model Example.numerics 1 1%nat (Example.context 1))
      (Example.entry_state Example.letter_model 1 1) Example.after_letter
  /\ Recognition.decoder_position_ids Example.after_letter = [1]
  /\ Recognition.decoder_position_ids Example.after_letter
     = [Recognition.token_count Example.after_letter]
  /\ Recognition.token_count Example.after_letter
     = Z.of_nat 1
       + Z.of_nat (length (Recognition.history Example.after_letter)) - 1
  /\ Recognition.inference_token_count Example.after_letter = 1
  /\ exists d, Torch.shape (Recognition.batch_decoder_input
                              Example.after_letter) = [d; 1%nat].
Proof.
  assert (rtc (@Recognition.continues (Example.settings 6 false)
                 Example.tokenizer Example.letter_model Example.numerics
                 1 1%nat (Example.context 1))
              (Example.entry_state Example.letter_model 1 1)
              Example.after_letter) as Hreach.
  { apply rtc_once. split; reflexivity. }
  split; [exact Hreach|]. split; [reflexivity|].
  apply (@cache_position_counts_tokens (Example.settings 6 false)
           Example.tokenizer Example.letter_model Example.numerics
           1 1%nat (Example.context 1)
           (Torch.stack_rows (replicate 1 [3]) 1) 1%nat Example.after_letter).
  - exact Hreach.
  - discriminate.
Defined.

(** ** The inputs of the decoder and of the encoder *)

Lemma foldl_max_ge (a x : Z) (l : list Z) : x ∈ l -> x <= foldl Z.max a l.
Proof.
  revert a. induction l as [|y l IH]; intros a; [by intros ?%elem_of_nil|].
  intros [->|Hx]%elem_of_cons; simpl; [|by apply IH].
  pose proof (py_max_ge (Z.max a y) l). lia.
Qed.

Lemma py_max_bounds (l : list Z) (m : Z) :
  Py.max l = Ok m -> Forall (fun x => x <= m) l.
Proof.
  destruct l as [|a l]; simpl; [done|]. intros [= <-]. constructor.
  - apply py_max_ge.
  - apply Forall_forall. intros x Hx. by apply foldl_max_ge.
Qed.

Lemma length_concat_rows {A} (rows : list (list A)) (w : nat) :
  Forall (fun row => length row = w) rows ->
  length (concat rows) = (length rows * w)%nat.
Proof.
  induction 1 as [|row rows Hrow _ IH]; simpl; [done|].
  rewrite length_app, IH. lia.
Qed.

(** X14. The decoder inputs are padded on the left, with the pad marker,
    to the length of the longest of them: every row gets that length and
    ends with its own tokens, so the rows stack to a well-formed matrix. *)
Theorem pad_decoder_input_left_pads :
  forall `{Recognition.Tokenizer} (rows : list (list Z)) (m : Z),
    Py.max ((fun tokens => Z.of_nat (length tokens)) <$> rows) = Ok m ->
    Forall (fun row => Z.of_nat (length row) = m)
           (Recognition.pad_decoder_input rows m)
    /\ Forall2 (fun row padded =>
                  padded
                  = replicate (Z.to_nat m - length row) Recognition.pad_id
                    ++ row)
               rows (Recognition.pad_decoder_input rows m)
    /\ Torch.well_formed
         (Torch.stack_rows (Recognition.pad_decoder_input rows m) (Z.to_nat m)).
Proof.
  intros ? rows m Hmax. apply py_max_bounds in Hmax.
  rewrite Forall_fmap in Hmax.
  assert (Forall
            (fun row =>
               Z.of_nat (length
                 (let lang_len := Z.of_nat (length row) in
                  if lang_len <? m
                  then replicate (Z.to_nat (m - lang_len)) Recognition.pad_id
                       ++ row
                  else row)) = m
               /\ (let lang_len := Z.of_nat (length row) in
                   if lang_len <? m
                   then replicate (Z.to_nat (m - lang_len)) Recognition.pad_id
                        ++ row
                   else row)
                  = replicate (Z.to_nat m - length row) Recognition.pad_id
                    ++ row) rows) as Hrows.
  { eapply Forall_impl; [exact Hmax|]. intros row Hrow. simpl in Hrow.
    cbv zeta. destruct (Z.ltb_spec (Z.of_nat (length row)) m) as [Hlt|Hge].
    - rewrite length_app, length_replicate. split; [lia|].
      do 2 f_equal. lia.
    - split; [lia|].
      by replace (Z.to_nat m - length row)%nat with 0%nat by lia. }
  assert (Forall (fun row => Z.of_nat (length row) = m)
                 (Recognition.pad_decoder_input rows m)) as Hlengths.
  { unfold Recognition.pad_decoder_input. apply Forall_fmap.
    eapply Forall_impl; [exact Hrows|]. by intros row [? _]. }
  split; [done|]. split.
  - unfold Recognition.pad_decoder_input. apply Forall2_fmap_r, Forall_Forall2_diag.
    eapply Forall_impl; [exact Hrows|]. by intros row [_ ?].
  - unfold Torch.well_formed, Torch.stack_rows. simpl.
    rewrite (length_concat_rows _ (Z.to_nat m)); [lia|].
    eapply Forall_impl; [exact Hlengths|]. intros row Hrow. simpl in Hrow. lia.
Qed.

Lemma pad_decoder_input_left_pads_witness :
  @Recognition.pad_decoder_input Example.tokenizer [[3]; [3; 7; 8]] 3
  = [[0; 0; 3]; [3; 7; 8]]
  /\ Forall (fun row => Z.of_nat (length row) = 3)
            (@Recognition.pad_decoder_input Example.tokenizer
               [[3]; [3; 7; 8]] 3)
  /\ Forall2 (fun row padded =>
                padded
                = replicate (Z.to_nat 3 - length row)
                    (@Recognition.pad_id Example.tokenizer) ++ row)
             [[3]; [3; 7; 8]]
             (@Recognition.pad_decoder_input Example.tokenizer
                [[3]; [3; 7; 8]] 3)
  /\ Torch.well_formed
       (Torch.stack_rows
          (@Recognition.pad_decoder_input Example.tokenizer
             [[3]; [3; 7; 8]] 3) (Z.to_nat 3)).
Proof.
  split; [reflexivity|].
  apply (@pad_decoder_input_left_pads Example.tokenizer [[3]; [3; 7; 8]] 3).
  reflexivity.
Defined.

Section EncoderStage.
Import Torch Recognition.
Context `{Model}.
Variables (e : Z) (pixels : tensor Q) (d : nat) (s hs : list nat).
Hypothesis step_positive : 1 <= e.
Hypothesis pixels_shape : shape pixels = d :: s.
Hypothesis encoder_keeps_rows :
  forall t k, shape t = k :: s -> shape (encoder t) = k :: hs.

(** After the blocks that start before row [j * e], the hidden states hold
    the rows before that row, all of them when it is past the end. *)
Lemma encode_chunks_rows (count c j : nat) (acc : option (tensor Q)) :
  (j + c)%nat = count ->
  (forall k, (k < count)%nat -> Z.of_nat k * e < Z.of_nat d) ->
  match acc with
  | None => j = 0%nat
  | Some a => shape a = Z.to_nat (Z.min (Z.of_nat j * e) (Z.of_nat d)) :: hs
  end ->
  exists r,
    encode_chunks ((fun k => Z.of_nat k * e) <$> seq j c) e pixels acc = Ok r
    /\ match r with
       | None => count = 0%nat
       | Some a =>
           shape a
           = Z.to_nat (Z.min (Z.of_nat count * e) (Z.of_nat d)) :: hs
       end.
Proof.
  intros Hcount Hstarts. revert j acc Hcount.
  induction c as [|c IH]; intros j acc Hcount Hacc.
  { simpl. exists acc. split; [done|]. rewrite Nat.add_0_r in Hcount.
    subst j. done. }
  rewrite <- cons_seq, fmap_cons. simpl.
  unfold shape0, rows_between. rewrite pixels_shape. simpl.
  set (chunk := Tensor _ _).
  assert (Z.of_nat j * e < Z.of_nat d) as Hj by (apply Hstarts; lia).
  assert (shape (encoder chunk)
          = (Z.to_nat (Z.min (Z.of_nat j * e + e) (Z.of_nat d))
             - Z.to_nat (Z.of_nat j * e))%nat :: hs) as Hchunk.
  { apply encoder_keeps_rows. unfold chunk. simpl. f_equal. lia. }
  assert (exists joined,
    match acc with
    | Some previous => cat_dim0 previous (encoder chunk)
    | None => Ok (encoder chunk)
    end = Ok joined
    /\ shape joined
       = Z.to_nat (Z.min (Z.of_nat (S j) * e) (Z.of_nat d)) :: hs)
    as (joined & -> & Hjoined).
  { destruct acc as [a|].
    - unfold cat_dim0. rewrite Hacc, Hchunk. rewrite decide_True by done.
      eexists. split; [done|]. simpl. f_equal. nia.
    - subst j. eexists. split; [done|]. rewrite Hchunk. f_equal. nia. }
  simpl. apply (IH (S j) (Some joined)); [lia|done].
Qed.

End EncoderStage.

(** X15. The encoder stage keeps the rows: run on consecutive blocks of at
    most [encoder_batch_size] rows of the pixel values, with an encoder that
    answers one hidden state per row, it returns hidden states with one row
    per row of the pixel values. *)
Theorem encoder_stage_keeps_rows :
  forall `{Recognition.Model} (encoder_batch_size : Z)
         (batch_pixel_values : Torch.tensor Q) (d : nat) (s hs : list nat),
    1 <= encoder_batch_size ->
    (1 <= d)%nat ->
    Torch.shape batch_pixel_values = d :: s ->
    (forall t k, Torch.shape t = k :: s ->
                 Torch.shape (Recognition.encoder t) = k :: hs) ->
    exists starts encoder_hidden_states,
      Py.range (Z.of_nat d) encoder_batch_size = Ok starts
      /\ Recognition.encode_chunks starts encoder_batch_size
           batch_pixel_values None
         = Ok (Some encoder_hidden_states)
      /\ Torch.shape encoder_hidden_states = d :: hs.
Proof.
  intros ? e pixels d s hs He Hd Hshape Hencoder.
  destruct (range_starts (Z.of_nat d) e He ltac:(lia))
    as (count & Hrange & Hcover & Hstarts).
  destruct (encode_chunks_rows e pixels d s hs He Hshape Hencoder
              count count 0 None eq_refl Hstarts eq_refl) as (r & Hr & Hrows).
  destruct r as [h|]; [|subst count; simpl in Hcover; lia].
  exists ((fun k => Z.of_nat k * e) <$> seq 0 count), h.
  split; [done|]. split; [done|]. rewrite Hrows. f_equal. lia.
Qed.

Lemma encoder_stage_keeps_rows_witness :
  exists encoder_hidden_states,
    @Recognition.encode_chunks (Example.scripted Example.script_two_letters)
      [0; 2; 4] 2 (Torch.Tensor [5; 1]%nat [1; 2; 3; 4; 5]%Q) None
    = Ok (Some encoder_hidden_states)
    /\ Torch.shape encoder_hidden_states = [5; 1]%nat.
Proof.
  destruct (@encoder_stage_keeps_rows
              (Example.scripted Example.script_two_letters) 2
              (Torch.Tensor [5; 1]%nat [1; 2; 3; 4; 5]%Q) 5%nat [1%nat]
              [1%nat] ltac:(lia) ltac:(lia) eq_refl (fun t k Ht => Ht))
    as (starts & h & Hrange & Hrun & Hrows).
  injection Hrange as <-. by exists h.
Defined.

(** ** The score of a step is the probability of its token *)

Section ArgMax.
Local Open Scope Q_scope.

Lemma Qlt_bool_true (a b : Q) : Scores.Qlt_bool a b = true -> a < b.
Proof.
  unfold Scores.Qlt_bool. intros Hlt%negb_true_iff.
  apply Qnot_le_lt. intros Hle%Qle_bool_iff. congruence.
Qed.

Lemma Qlt_bool_false (a b : Q) : Scores.Qlt_bool a b = false -> b <= a.
Proof.
  unfold Scores.Qlt_bool. intros Hle%negb_false_iff. by apply Qle_bool_iff.
Qed.

Lemma fold_maximum_ge (x : Q) (l : list Q) :
  Forall (fun y => y <= foldl (fun m y => if Scores.Qlt_bool m y then y else m)
                         x l) (x :: l).
Proof.
  revert x. induction l as [|y l IH]; intros x; simpl.
  { constructor; [apply Qle_refl|constructor]. }
  destruct (Scores.Qlt_bool x y) eqn:E.
  - specialize (IH y). apply Forall_cons in IH as [Hy Hl].
    constructor; [|by constructor].
    apply Qlt_bool_true in E. eapply Qle_trans; [by apply Qlt_le_weak|done].
  - specialize (IH x). apply Forall_cons in IH as [Hx Hl].
    constructor; [done|]. constructor; [|done].
    apply Qlt_bool_false in E. by eapply Qle_trans.
Qed.

Lemma maximum_ge (l : list Q) (m : Q) :
  Scores.maximum l = Ok m -> Forall (fun y => y <= m) l.
Proof.
  destruct l as [|x l]; simpl; [done|]. intros [= <-]. apply fold_maximum_ge.
Qed.

(** The arg-max is the position of an entry that no entry exceeds. *)
Lemma argmax_from_spec (pre l : list Q) (best : nat) (m : Q) :
  pre !! best = Some m -> Forall (fun y => y <= m) pre ->
  exists v,
    (pre ++ l) !! Scores.argmax_from best m (length pre) l = Some v
    /\ Forall (fun y => y <= v) (pre ++ l).
Proof.
  revert pre best m. induction l as [|y l IH]; intros pre best m Hbest Hpre.
  { simpl. rewrite app_nil_r. eauto. }
  simpl. replace (pre ++ y :: l) with ((pre ++ [y]) ++ l)
    by by rewrite <- app_assoc.
  replace (S (length pre)) with (length (pre ++ [y]))
    by (rewrite length_app; simpl; lia).
  destruct (Scores.Qlt_bool m y) eqn:E.
  - apply IH.
    + rewrite lookup_app_r by lia. by rewrite Nat.sub_diag.
    + apply Qlt_bool_true in E. apply Forall_app. split.
      * eapply Forall_impl; [exact Hpre|]. intros z Hz. simpl in Hz.
        eapply Qle_trans; [done|by apply Qlt_le_weak].
      * apply Forall_singleton, Qle_refl.
  - apply IH.
    + apply lookup_app_l_Some. done.
    + apply Qlt_bool_false in E. apply Forall_app. split; [done|].
      by apply Forall_singleton.
Qed.

Lemma argmax_spec (row : list Q) (pred : Z) :
  Scores.argmax row = Ok pred ->
  exists v, row !! Z.to_nat pred = Some v /\ Forall (fun y => y <= v) row.
Proof.
  destruct row as [|x l]; simpl; [done|]. intros [= <-].
  rewrite Nat2Z.id.
  apply (argmax_from_spec [x] l 0 x); [done|].
  apply Forall_singleton, Qle_refl.
Qed.

End ArgMax.

(** X16. With an exponential that is positive and does not decrease, the
    score recorded for a step, the maximum of the softmax of the logits, is
    the softmax probability of the predicted token, the arg-max of the
    logits. *)
Theorem score_of_predicted_token :
  forall (e : Q -> Q) (row : list Q) (pred : Z) (m : Q),
    (forall x, 0 < e x)%Q ->
    (forall x y, x <= y -> e x <= e y)%Q ->
    Scores.argmax row = Ok pred ->
    Scores.maximum (Scores.softmax e row) = Ok m ->
    exists p, Scores.softmax e row !! Z.to_nat pred = Some p /\ (p == m)%Q.
Proof.
  intros e row pred m Hpositive Hmonotone Hpred Hmax.
  destruct (argmax_spec row pred Hpred) as (v & Hv & Hbest).
  unfold Scores.softmax in *.
  set (total := Scores.sum (e <$> row)) in *.
  exists (e v / total)%Q. split; [by rewrite list_lookup_fmap, Hv|].
  assert (0 < total)%Q as Htotal.
  { apply sum_positive.
    - apply Forall_fmap, Forall_true. intros y. apply Hpositive.
    - destruct row; [done|]. done. }
  apply Qle_antisym.
  - pose proof (maximum_ge _ _ Hmax) as Hall. rewrite Forall_forall in Hall.
    apply Hall. apply (list_elem_of_fmap_2 (fun x => e x / total)%Q).
    by eapply list_elem_of_lookup_2.
  - apply maximum_elem in Hmax.
    apply list_elem_of_fmap in Hmax as (x & -> & Hx).
    rewrite Forall_forall in Hbest.
    apply Qmult_le_compat_r; [by apply Hmonotone, Hbest|].
    by apply Qlt_le_weak, Qinv_lt_0_compat.
Qed.

Lemma exp2_monotone (x y : Q) : (x <= y -> Example.exp2 x <= Example.exp2 y)%Q.
Proof.
  intros Hxy. unfold Example.exp2.
  apply Qpower_le_compat_l; [by apply Qfloor_resp_le|done].
Qed.

Lemma score_of_predicted_token_witness :
  exists p,
    Scores.softmax Example.exp2 Example.eos_two_thirds
      !! Z.to_nat 1 = Some p
    /\ (p == 8 # 12)%Q.
Proof.
  apply (score_of_predicted_token Example.exp2 Example.eos_two_thirds 1 (8 # 12)).
  - intros x. apply exp2_positive.
  - exact exp2_monotone.
  - reflexivity.
  - vm_compute. reflexivity.
Defined.

(** ** The next input of the decoder *)

Section NextInput.
Import Torch Recognition.
Context `{Settings, Tokenizer, Model, Numerics}.
Variables (batch_size : Z) (n : nat) (hidden : tensor Q).

Lemma decode_step_input st st' :
  decode_step batch_size n hidden st = Ok (false, st') ->
  exists preds scores done',
    history st' = history st ++ [mkStep preds scores done']
    /\ (if RECOGNITION_STATIC_CACHE
        then pad_to_batch_size 0 (unsqueeze1 preds) batch_size
        else Ok (unsqueeze1 preds)) = Ok (batch_decoder_input st').
Proof.
  unfold decode_step. intros Hstep.
  destruct (decoder _ _ _ _ _) as [cache' all_logits].
  bind_inv Hstep. rename a into last_logits.
  bind_inv Hstep. rename a into preds.
  bind_inv Hstep. rename a into scores.
  bind_inv Hstep. rename a into done'.
  bind_inv Hstep. rename a into rows'.
  destruct (forallb id done'); [done|].
  bind_inv Hstep. bind_inv Hstep. bind_inv Hstep. bind_inv Hstep.
  injection Hstep as <-. simpl. by exists preds, scores, done'.
Qed.

End NextInput.

(** X17. After a call that leaves some sample running, the next input of
    the decoder is the column of the tokens just predicted, one per sample
    and those of the samples that are done included; with the static cache
    it is followed by rows of zeros up to [batch_size] rows. *)
Theorem next_decoder_input :
  forall `{Recognition.Settings, Recognition.Tokenizer, Recognition.Model,
           Recognition.Numerics}
         (batch_size : Z) (n : nat) (hidden : Torch.tensor Q)
         (st st' : Recognition.DecoderState),
    Recognition.decoder_shaped ->
    Recognition.state_ok n st ->
    Recognition.continues batch_size n hidden st st' ->
    exists s,
      last (Recognition.history st') = Some s
      /\ length (Recognition.step_preds s) = n
      /\ let rows :=
           if Recognition.RECOGNITION_STATIC_CACHE
           then Z.to_nat (Z.max (Z.of_nat n) batch_size) else n in
         Recognition.batch_decoder_input st'
         = Torch.Tensor [rows; 1%nat]
             (Recognition.step_preds s ++ replicate (rows - n) 0).
Proof.
  intros ? ? ? ? batch_size n hidden st st' shaped Hok [_ Hstep].
  destruct (decode_step_ok batch_size n hidden shaped st false st' Hok Hstep)
    as (_ & _ & _ & _ & preds & scores & Hlen_preds & _ & _ & Hhist & _).
  destruct (decode_step_input batch_size n hidden st st' Hstep)
    as (preds' & scores' & done' & Hhist' & Hinput).
  rewrite Hhist in Hhist'. apply app_inj_tail in Hhist' as [_ Heq].
  injection Heq as <- <- <-.
  eexists. split; [by rewrite Hhist, last_snoc|]. simpl. split; [done|].
  destruct Recognition.RECOGNITION_STATIC_CACHE.
  - unfold Torch.unsqueeze1 in Hinput. rewrite Hlen_preds in Hinput.
    destruct (Z.lt_ge_cases (Z.of_nat n) batch_size) as [Hlt|Hge].
    + rewrite pad_to_batch_size_pads in Hinput by (simpl; lia || done).
      injection Hinput as <-. rewrite Z.max_r by lia. simpl.
      by rewrite Nat.mul_1_r.
    + unfold Torch.pad_to_batch_size in Hinput. simpl in Hinput.
      destruct (Z.geb_spec (Z.of_nat n) batch_size) as [_|?]; [|lia].
      injection Hinput as <-. rewrite Z.max_l by lia.
      rewrite Nat2Z.id, Nat.sub_diag. simpl. by rewrite app_nil_r.
  - injection Hinput as <-. rewrite Nat.sub_diag. simpl.
    unfold Torch.unsqueeze1. by rewrite app_nil_r, Hlen_preds.
Qed.

Lemma next_decoder_input_witness :
  exists s,
    Example.static_step
      (Example.entry_state
         (Example.scripted Example.script_early_and_late) 2 4)
    = Ok (false, Example.after_static)
    /\ last (Recognition.history Example.after_static) = Some s
    /\ length (Recognition.step_preds s) = 2%nat
    /\ Recognition.batch_decoder_input Example.after_static
       = Torch.Tensor [4; 1]%nat (Recognition.step_preds s ++ [0; 0]).
Proof.
  destruct (@next_decoder_input (Example.settings 6 true) Example.tokenizer
              (Example.scripted Example.script_early_and_late)
              Example.numerics 4 2%nat (Example.context 2)
              (Example.entry_state
                 (Example.scripted Example.script_early_and_late) 2 4)
              Example.after_static)
    as (s & Hlast & Hlen & Hinput).
  - by apply scripted_shaped; intros c [|[|j]] H; destruct c as [|[|c]].
  - apply entry_state_ok. lia.
  - split; reflexivity.
  - exists s. split; [reflexivity|]. split; [done|]. split; [done|].
    exact Hinput.
Defined.

(** ** Confidences of a whole run *)

Section RunProbabilities.
Import Torch Recognition.
Context `{Settings, Tokenizer, Pillow, !Processor, Model, Postprocessing,
          Numerics}.
Hypothesis positive : exp_positive.



End RunProbabilities.



